(** * modal-client: the App lifecycle orchestrator and the output capture worker

    A shallow embedding of [modal/_output_capture.py] (the line-reassembly
    worker [capture_thread]) and of [modal/app.py] (the [_App] class: object
    creation, reference resolution, the [_run] context manager and [deploy]),
    with the properties the specification states about them. *)

From Stdlib Require Import Ascii String List Arith Lia.
From stdpp Require Import base option list gmap strings stringmap.

(** ** Python values shared by both modules *)

(** A Python [str] and a Python [bytes] are both modelled by [string]: a
    sequence of 8-bit characters.  Decoded text is kept in its UTF-8 form,
    which is in bijection with the sequence of code points; the two line
    terminator characters are single bytes that occur in no multi-byte
    sequence. *)
Definition LF : ascii := "010"%char.
Definition CR : ascii := "013"%char.

Definition str_LF : string := String LF "".
Definition str_CR : string := String CR "".
Definition str_CRLF : string := String CR (String LF "").

(** Python truthiness of a [str]: [not s] holds for the empty string. *)
Definition str_truthy (s : string) : bool :=
  match s with
  | EmptyString => false
  | String _ _ => true
  end.

Module OutputCapture.

(** *** [re.split("(\r\n|\r|\n)", s)]

    The pattern is an alternation of three literals inside one capturing
    group.  The regular expression engine scans from the left; at a position
    it tries the alternatives in the order written, so a carriage return
    followed by a line feed is one separator.  [re.split] returns the text
    between the matches interleaved with the captured separators.  [seg] is
    the text accumulated since the last separator. *)
Fixpoint re_split_from (seg s : string) : list string :=
  match s with
  | EmptyString => [seg]
  | String c s' =>
      if Ascii.eqb c CR then
        match s' with
        | String d s'' =>
            if Ascii.eqb d LF
            then seg :: str_CRLF :: re_split_from "" s''
            else seg :: str_CR :: re_split_from "" s'
        | EmptyString => seg :: str_CR :: re_split_from "" s'
        end
      else if Ascii.eqb c LF then seg :: str_LF :: re_split_from "" s'
      else re_split_from (seg +:+ String c "") s'
  end.

Definition re_split (s : string) : list string := re_split_from "" s.

(** The three strings the capturing group can match. *)
Definition separators : list string := [str_CRLF; str_CR; str_LF].

(** A text segment holds no line terminator character. *)
Fixpoint no_terminator (s : string) : bool :=
  match s with
  | EmptyString => true
  | String c s' => negb (Ascii.eqb c CR) && negb (Ascii.eqb c LF) && no_terminator s'
  end.

(** *** Exceptions of the worker *)
Inductive Errno : Type :=
| EIO
| EOTHER (code : nat).

Inductive WorkerExn : Type :=
| OSError (err : Errno)
| UnicodeDecodeError
| IndexError.

(** *** [codecs.getincrementaldecoder] *)

(** The decoder is an object of the standard library with internal state:
    [decode] consumes bytes and returns the text decoded so far, keeping an
    incomplete trailing sequence for the next call, or raises. *)
Record IncrementalDecoder : Type := {
  dec_state : Type;
  dec_init : dec_state;
  dec_decode : dec_state -> string -> WorkerExn + (dec_state * string)
}.

(** The UTF-8 decoder as a byte automaton.  [u8_need] continuation bytes are
    still expected; [u8_lo], [u8_hi] bound the next continuation byte (the
    second byte of a sequence is restricted after the lead bytes E0, ED, F0
    and F4); [u8_acc] holds the bytes of the sequence read so far. *)
Record Utf8State : Type := {
  u8_need : nat;
  u8_lo : nat;
  u8_hi : nat;
  u8_acc : string
}.

Definition utf8_idle : Utf8State :=
  {| u8_need := 0; u8_lo := 128; u8_hi := 191; u8_acc := "" |}.

Definition in_range (lo hi n : nat) : bool := Nat.leb lo n && Nat.leb n hi.

Definition utf8_lead (c : ascii) : option Utf8State :=
  let n := nat_of_ascii c in
  let start need lo hi :=
    Some {| u8_need := need; u8_lo := lo; u8_hi := hi; u8_acc := String c "" |} in
  if in_range 194 223 n then start 1 128 191
  else if Nat.eqb n 224 then start 2 160 191
  else if in_range 225 236 n then start 2 128 191
  else if Nat.eqb n 237 then start 2 128 159
  else if in_range 238 239 n then start 2 128 191
  else if Nat.eqb n 240 then start 3 144 191
  else if in_range 241 243 n then start 3 128 191
  else if Nat.eqb n 244 then start 3 128 143
  else None.

Fixpoint utf8_feed (st : Utf8State) (raw out : string)
  : WorkerExn + (Utf8State * string) :=
  match raw with
  | EmptyString => inr (st, out)
  | String c raw' =>
      match u8_need st with
      | O =>
          if Nat.ltb (nat_of_ascii c) 128 then utf8_feed st raw' (out +:+ String c "")
          else match utf8_lead c with
               | Some st' => utf8_feed st' raw' out
               | None => inl UnicodeDecodeError
               end
      | S k =>
          if in_range (u8_lo st) (u8_hi st) (nat_of_ascii c) then
            let acc := u8_acc st +:+ String c "" in
            match k with
            | O => utf8_feed utf8_idle raw' (out +:+ acc)
            | S _ =>
                utf8_feed {| u8_need := k; u8_lo := 128; u8_hi := 191; u8_acc := acc |}
                          raw' out
            end
          else inl UnicodeDecodeError
      end
  end.

Definition utf8_decoder : IncrementalDecoder :=
  {| dec_state := Utf8State;
     dec_init := utf8_idle;
     dec_decode := fun st raw => utf8_feed st raw "" |}.

(** *** [capture_thread] *)

(** What one [os.read(read_fd, 50)] gives the worker: bytes (none at end of
    stream) or an [OSError]. *)
Inductive ReadResult : Type :=
| ReadBytes (raw : string)
| ReadRaises (err : Errno).

(** How the worker stands when the given reads are used up. *)
Inductive WorkerEnd : Type :=
| Returned
| Raised (e : WorkerExn)
| Reading (buf : string).

(** [chunks[i]], which raises [IndexError] out of range. *)
Definition index (chunks : list string) (i : nat) : WorkerExn + string :=
  match chunks !! i with
  | Some x => inr x
  | None => inl IndexError
  end.

(** [chunks[-1]]. *)
Definition index_last (chunks : list string) : WorkerExn + string :=
  match last chunks with
  | Some x => inr x
  | None => inl IndexError
  end.

(** The loop [for i in range(int(len(chunks) / 2))]: the lines handed to the
    callback, in order, and the exception that stopped the loop, if any. *)
Fixpoint emit_lines (chunks : list string) (range : list nat)
  : list string * option WorkerExn :=
  match range with
  | [] => ([], None)
  | i :: range' =>
      match index chunks (2 * i) with
      | inl e => ([], Some e)
      | inr a =>
          match index chunks (2 * i + 1) with
          | inl e => ([], Some e)
          | inr b =>
              let line := a +:+ b in
              let '(rest, e) := emit_lines chunks range' in
              (line :: rest, e)
          end
      end
  end.

Section Worker.
Variable decoder : IncrementalDecoder.

(** The body of [while 1], run on the successive results of [os.read].
    The result lists the first arguments of the calls of [callback]. *)
Fixpoint capture_loop (reads : list ReadResult) (st : dec_state decoder)
    (buf : string) : list string * WorkerEnd :=
  match reads with
  | [] => ([], Reading buf)
  | r :: reads' =>
      let raw :=
        match r with
        | ReadBytes raw_data => inr raw_data
        | ReadRaises EIO => inr ""
        | ReadRaises err => inl (OSError err)
        end in
      match raw with
      | inl e => ([], Raised e)
      | inr raw_data =>
          if negb (str_truthy raw_data) then
            (if str_truthy buf then [buf] else [], Returned)
          else
            match dec_decode decoder st raw_data with
            | inl e => ([], Raised e)
            | inr (st', data) =>
                let chunks := re_split (buf +:+ data) in
                let '(lines, stop) :=
                  emit_lines chunks (seq 0 (List.length chunks / 2)) in
                match stop with
                | Some e => (lines, Raised e)
                | None =>
                    match index_last chunks with
                    | inl e => (lines, Raised e)
                    | inr buf' =>
                        let '(later, fin) := capture_loop reads' st' buf' in
                        (lines ++ later, fin)
                    end
                end
            end
      end
  end.

Definition capture_thread (reads : list ReadResult) : list string * WorkerEnd :=
  capture_loop reads (dec_init decoder) "".
End Worker.

End OutputCapture.

Module App.

(** ** Data model of [modal/app.py] *)

(** [AppState], imported from [modal/_app_state.py]: the four members
    [app.py] uses. *)
Inductive AppState : Type := NONE | STARTING | RUNNING | STOPPING.

(** [api_pb2.DeploymentNamespace]: the two members [app.py] names. *)
Inductive DeploymentNamespace : Type :=
| DEPLOYMENT_NAMESPACE_ACCOUNT
| DEPLOYMENT_NAMESPACE_GLOBAL.

(** [api_pb2.DeploymentNamespace.Name(namespace)]. *)
Definition DeploymentNamespace_Name (ns : DeploymentNamespace) : string :=
  match ns with
  | DEPLOYMENT_NAMESPACE_ACCOUNT => "DEPLOYMENT_NAMESPACE_ACCOUNT"
  | DEPLOYMENT_NAMESPACE_GLOBAL => "DEPLOYMENT_NAMESPACE_GLOBAL"
  end.

#[global] Instance AppState_eq_dec : EqDecision AppState.
Proof. solve_decision. Defined.

#[global] Instance DeploymentNamespace_eq_dec : EqDecision DeploymentNamespace.
Proof. solve_decision. Defined.

(** The label of an object made by [ref(app_name, tag, namespace)]. *)
Record Label : Type := {
  app_name : option string;
  object_label : option string;
  namespace : DeploymentNamespace
}.

(** The classes of objects an app registers; [KFunction] stands for
    [_Function], the class [_register_function] and the decorators build. *)
Inductive ObjectKind : Type :=
| KFunction | KImage | KMount | KSecret | KSchedule | KQueue.

(** An [Object] as [app.py] uses it: its [label] ([None] unless it is a
    reference), the results of [get_creating_message()] and
    [get_created_message()], and what [load] sends to the server. *)
Record Object : Type := {
  kind : ObjectKind;
  label : option Label;
  creating_message : option string;
  created_message : option string;
  definition : string
}.

Definition is_function (obj : Object) : bool :=
  match kind obj with
  | KFunction => true
  | _ => false
  end.

(** [Object.from_id(object_id, app)]: the handle of a created object. *)
Record LiveObject : Type := from_id { object_id : string }.

(** Modelled from the spec: the Blueprint ([modal/_blueprint.py] is not among
    the sources), "an ordered mapping from tag (string) to Object
    Specification" whose [get_objects] "produces a lazy, insertion-ordered
    sequence of (tag, spec) pairs". *)
Definition Blueprint : Type := list (string * Object).

Definition get_objects (bp : Blueprint) : list (string * Object) := bp.

Fixpoint get_object (bp : Blueprint) (tag : string) : option Object :=
  match bp with
  | [] => None
  | (t, obj) :: bp' => if String.eqb t tag then Some obj else get_object bp' tag
  end.

(** What [step_progress] and [step_completed] of [modal/_output.py] render. *)
Inductive Renderable : Type :=
| step_progress (message : string)
| step_completed (message : string) (is_substep : bool).

(** [rich.tree.Tree]: a label and the labels of the nodes added under it. *)
Record Tree : Type := {
  tree_label : Renderable;
  tree_children : list Renderable
}.

Record Client : Type := { client_id : string }.

Record App : Type := {
  _app_id : option string;
  client : option Client;
  _name : option string;
  deployment_name : option string;
  state : AppState;
  _tag_to_object : gmap string LiveObject;
  _tag_to_existing_id : gmap string string;
  _blueprint : Blueprint;
  _progress : option Tree
}.

(** [_App.__init__] gives every field but the name its initial value; the
    Blueprint is then filled by registration. *)
Definition new_App (name : option string) (bp : Blueprint) : App :=
  {| _app_id := None; client := None; _name := name; deployment_name := None;
     state := NONE; _tag_to_object := ∅; _tag_to_existing_id := ∅;
     _blueprint := bp; _progress := None |}.

(** Attribute assignments [self.x = v]. *)
Definition set__app_id (v : option string) (a : App) : App :=
  {| _app_id := v; client := client a; _name := _name a;
     deployment_name := deployment_name a; state := state a;
     _tag_to_object := _tag_to_object a;
     _tag_to_existing_id := _tag_to_existing_id a;
     _blueprint := _blueprint a; _progress := _progress a |}.

Definition set_client (v : option Client) (a : App) : App :=
  {| _app_id := _app_id a; client := v; _name := _name a;
     deployment_name := deployment_name a; state := state a;
     _tag_to_object := _tag_to_object a;
     _tag_to_existing_id := _tag_to_existing_id a;
     _blueprint := _blueprint a; _progress := _progress a |}.

Definition set_deployment_name (v : option string) (a : App) : App :=
  {| _app_id := _app_id a; client := client a; _name := _name a;
     deployment_name := v; state := state a;
     _tag_to_object := _tag_to_object a;
     _tag_to_existing_id := _tag_to_existing_id a;
     _blueprint := _blueprint a; _progress := _progress a |}.

Definition set_state (v : AppState) (a : App) : App :=
  {| _app_id := _app_id a; client := client a; _name := _name a;
     deployment_name := deployment_name a; state := v;
     _tag_to_object := _tag_to_object a;
     _tag_to_existing_id := _tag_to_existing_id a;
     _blueprint := _blueprint a; _progress := _progress a |}.

Definition set__tag_to_object (v : gmap string LiveObject) (a : App) : App :=
  {| _app_id := _app_id a; client := client a; _name := _name a;
     deployment_name := deployment_name a; state := state a;
     _tag_to_object := v;
     _tag_to_existing_id := _tag_to_existing_id a;
     _blueprint := _blueprint a; _progress := _progress a |}.

Definition set__tag_to_existing_id (v : gmap string string) (a : App) : App :=
  {| _app_id := _app_id a; client := client a; _name := _name a;
     deployment_name := deployment_name a; state := state a;
     _tag_to_object := _tag_to_object a;
     _tag_to_existing_id := v;
     _blueprint := _blueprint a; _progress := _progress a |}.

Definition set__progress (v : option Tree) (a : App) : App :=
  {| _app_id := _app_id a; client := client a; _name := _name a;
     deployment_name := deployment_name a; state := state a;
     _tag_to_object := _tag_to_object a;
     _tag_to_existing_id := _tag_to_existing_id a;
     _blueprint := _blueprint a; _progress := v |}.

(** ** Exceptions and results *)
Inductive Exn : Type :=
| InvalidError (msg : string)
| NotFoundError (msg obj_repr : string)
| Exception (msg : string)
| AssertionError
| AttributeError
| KeyError (key : option string)
| IndexError
| CancelledError
| RpcError (msg : string).

Inductive Result (A : Type) : Type :=
| Ok (a : A)
| Raise (e : Exn).
Arguments Ok {A} a.
Arguments Raise {A} e.

Definition is_Ok {A} (r : Result A) : bool :=
  match r with
  | Ok _ => true
  | Raise _ => false
  end.

(** ** The remote service *)

(** The service behind [client.stub] and behind [obj.load], an external
    collaborator: a state of type [B] and one operation per request, which
    answers or raises.  String fields of a response are [""] when unset. *)
Record Backend (B : Type) : Type := {
  AppGetByDeploymentName :
    string -> DeploymentNamespace -> string -> B -> B * Result (string * string);
  AppGetObjects : string -> B -> B * Result (gmap string string);
  AppCreate : string -> string -> B -> B * Result string;
  AppSetObjects : option string -> gmap string string -> B -> B * Result unit;
  AppClientDisconnect : option string -> B -> B * Result unit;
  AppDeploy : option string -> string -> DeploymentNamespace -> B -> B * Result unit;
  AppIncludeObject :
    option string -> string -> option string -> DeploymentNamespace -> B ->
    B * Result string;
  load : Object -> option string -> B -> B * Result (option string)
}.
Arguments AppGetByDeploymentName {B}.
Arguments AppGetObjects {B}.
Arguments AppCreate {B}.
Arguments AppSetObjects {B}.
Arguments AppClientDisconnect {B}.
Arguments AppDeploy {B}.
Arguments AppIncludeObject {B}.
Arguments load {B}.

(** What the process around the app provides: the service, [sys.argv], the
    client of [_Client.from_env()], and the text Python puts into a message
    for a value that is not a string. *)
Record Env (B : Type) : Type := {
  backend : Backend B;
  sys_argv : list string;
  client_from_env : Client;
  repr_Object : Object -> string;
  repr_Label : Label -> string;
  repr_type : Object -> string;
  repr_AppState : AppState -> string
}.
Arguments backend {B}.
Arguments sys_argv {B}.
Arguments client_from_env {B}.
Arguments repr_Object {B}.
Arguments repr_Label {B}.
Arguments repr_type {B}.
Arguments repr_AppState {B}.

(** ** The trace of a run *)

(** The calls that leave the app, and three marks: the [logger.debug] line of
    the creation loop, the start of the log task, and the [yield] that hands
    control to the body of the [with] statement. *)
Inductive Event : Type :=
| EvAppGetByDeploymentName (name : string) (ns : DeploymentNamespace) (client_id : string)
| EvAppGetObjects (app_id : string)
| EvAppCreate (client_id name : string)
| EvAppSetObjects (app_id : option string) (object_ids : gmap string string)
| EvAppClientDisconnect (app_id : option string)
| EvAppDeploy (app_id : option string) (name : string) (ns : DeploymentNamespace)
| EvAppIncludeObject (app_id : option string) (name : string)
    (object_label : option string) (ns : DeploymentNamespace)
| EvLoad (obj : Object) (existing_object_id : option string)
| EvCreating (tag : string) (existing_object_id : option string)
| EvGetLogsLoop (app_id : option string) (last_log_entry_id : string)
| EvYield.

(** An entry records the event, the [state] of the app when it happened and
    whether the call completed (rather than raised). *)
Record Entry : Type := {
  en_state : AppState;
  en_event : Event;
  en_ok : bool
}.

Record World (B : Type) : Type := {
  w_app : App;
  w_remote : B;
  w_trace : list Entry
}.
Arguments w_app {B}.
Arguments w_remote {B}.
Arguments w_trace {B}.

(** ** Stateful computations *)

(** A method of [_App] runs in a world (the app object, the state of the
    remote service, the trace so far) and returns or raises. *)
Definition M (B A : Type) : Type := World B -> World B * Result A.

Definition ret {B A} (a : A) : M B A := fun w => (w, Ok a).

Definition raise {B A} (e : Exn) : M B A := fun w => (w, Raise e).

Definition bind {B A C} (m : M B A) (k : A -> M B C) : M B C :=
  fun w =>
    match m w with
    | (w', Ok a) => k a w'
    | (w', Raise e) => (w', Raise e)
    end.

#[global] Instance M_ret {B} : MRet (M B) := @ret B.
#[global] Instance M_bind {B} : MBind (M B) := fun A C k m => bind m k.

(** [try: m finally: fin].  An exception of [fin] replaces the outcome of [m]. *)
Definition try_finally {B A} (m : M B A) (fin : M B unit) : M B A :=
  fun w =>
    let '(w1, r) := m w in
    match fin w1 with
    | (w2, Ok _) => (w2, r)
    | (w2, Raise e) => (w2, Raise e)
    end.

Definition get_app {B} : M B App := fun w => (w, Ok (w_app w)).

Definition modify_app {B} (f : App -> App) : M B unit :=
  fun w => ({| w_app := f (w_app w); w_remote := w_remote w; w_trace := w_trace w |}, Ok tt).

Definition record {B} (ev : Event) (ok : bool) (w : World B) (b : B) : World B :=
  {| w_app := w_app w; w_remote := b;
     w_trace := w_trace w ++ [{| en_state := state (w_app w); en_event := ev; en_ok := ok |}] |}.

(** A call of the remote service, entered in the trace with its outcome. *)
Definition call {B A} (ev : Event) (op : B -> B * Result A) : M B A :=
  fun w => let '(b, r) := op (w_remote w) in (record ev (is_Ok r) w b, r).

(** A mark in the trace. *)
Definition mark {B} (ev : Event) : M B unit :=
  fun w => (record ev true w (w_remote w), Ok tt).

(** [for x in xs: f x]. *)
Fixpoint for_each {B A} (xs : list A) (f : A -> M B unit) : M B unit :=
  match xs with
  | [] => ret tt
  | x :: xs' => bind (f x) (fun _ => for_each xs' f)
  end.

(** ** Python helpers *)

(** Truthiness of an optional [str]: [None] and [""] are false. *)
Definition opt_truthy (s : option string) : bool :=
  match s with
  | Some s => str_truthy s
  | None => false
  end.

(** [f"{x}"] for an optional string. *)
Definition format_opt (s : option string) : string := default "None" s.

(** [list.sort(key=key)] for a boolean key: a stable sort, [False] before
    [True].  [insert_by_key] puts [x], which stood before every element of
    [l], in front of the first element whose key is not smaller. *)
Fixpoint insert_by_key {A} (key : A -> bool) (x : A) (l : list A) : list A :=
  match l with
  | [] => [x]
  | y :: l' =>
      if implb (key x) (key y) then x :: y :: l' else y :: insert_by_key key x l'
  end.

Definition sort_by_key {A} (key : A -> bool) (l : list A) : list A :=
  foldr (insert_by_key key) [] l.

(** [os.path.split(path)[-1]]: what follows the last slash. *)
Fixpoint basename_from (acc path : string) : string :=
  match path with
  | EmptyString => acc
  | String c path' =>
      if Ascii.eqb c "/"%char then basename_from "" path'
      else basename_from (acc +:+ String c "") path'
  end.

Definition basename (path : string) : string := basename_from "" path.

(** [Tree.add(label)] appends a node and returns it; the node is known by
    its position. *)
Definition tree_add (t : Tree) (l : Renderable) : Tree * nat :=
  ({| tree_label := tree_label t; tree_children := tree_children t ++ [l] |},
   List.length (tree_children t)).

Definition tree_set_label (l : Renderable) (t : Tree) : Tree :=
  {| tree_label := l; tree_children := tree_children t |}.

Definition tree_set_child (i : nat) (l : Renderable) (t : Tree) : Tree :=
  {| tree_label := tree_label t; tree_children := <[i := l]> (tree_children t) |}.

Definition str_QUOTE : string := String (ascii_of_nat 34) EmptyString.

(** The text of the [InvalidError] of [deploy]. *)
Definition deploy_guidance : string :=
  "You need to either supply an explicit deployment name to the deploy command, or have a name set on the app."
  +:+ str_LF +:+ str_LF +:+ "Examples:" +:+ str_LF
  +:+ "app.deploy(" +:+ str_QUOTE +:+ "some_name" +:+ str_QUOTE +:+ ")"
  +:+ str_LF +:+ str_LF +:+ "or" +:+ str_LF
  +:+ "app = App(" +:+ str_QUOTE +:+ "some-name" +:+ str_QUOTE +:+ ")".

(** ** The methods of [_App] *)

Section Methods.
Context {B : Type} (env : Env B).

(** [self.client.stub]: an [AttributeError] when [self.client] is [None]. *)
Definition self_client_stub : M B Client :=
  a ← get_app;
  match client a with
  | Some c => ret c
  | None => raise AttributeError
  end.

Definition _infer_app_name : M B string :=
  match sys_argv env with
  | [] => raise IndexError
  | script :: rest => ret (String.concat " " (basename script :: rest))
  end.

(** The property [name]: [self._name or self._infer_app_name()]. *)
Definition name : M B string :=
  a ← get_app;
  if opt_truthy (_name a) then ret (default "" (_name a)) else _infer_app_name.

Definition _include (name : string) (object_label : option string)
    (namespace : DeploymentNamespace) : M B string :=
  a ← get_app;
  _ ← self_client_stub;
  response_object_id ←
    call (EvAppIncludeObject (_app_id a) name object_label namespace)
         (AppIncludeObject (backend env) (_app_id a) name object_label namespace);
  if negb (str_truthy response_object_id) then
    let obj_repr := name in
    let obj_repr :=
      match object_label with
      | Some l => obj_repr +:+ "." +:+ l
      | None => obj_repr
      end in
    let obj_repr :=
      if decide (namespace <> DEPLOYMENT_NAMESPACE_ACCOUNT)
      then obj_repr +:+ " (namespace " +:+ DeploymentNamespace_Name namespace +:+ ")"
      else obj_repr in
    let err_msg := "Could not find object " +:+ obj_repr in
    raise (NotFoundError err_msg obj_repr)
  else ret response_object_id.

Definition lookup (obj : Object) : M B string :=
  match label obj with
  | None =>
      raise (InvalidError ("Object " +:+ repr_Object env obj
               +:+ " has no label. Make sure every object is defined on the app."))
  | Some l =>
      if negb (opt_truthy (app_name l)) && negb (opt_truthy (object_label l)) then
        raise (InvalidError ("Object label " +:+ repr_Label env l
                 +:+ " is a malformed reference to nothing."))
      else
        object_id ←
          match app_name l with
          | Some an => _include an (object_label l) (namespace l)
          | None =>
              a ← get_app;
              match object_label l ≫= (fun tag => _tag_to_object a !! tag) with
              | Some o => ret (object_id o)
              | None => raise (KeyError (object_label l))
              end
          end;
        if str_truthy object_id then ret object_id else raise AssertionError
  end.

Definition _create_object (obj : Object) (existing_object_id : option string)
  : M B string :=
  let creating_message := creating_message obj in
  step_node ←
    match creating_message with
    | Some m =>
        a ← get_app;
        match _progress a with
        | Some t =>
            let '(t', node) := tree_add t (step_progress m) in
            modify_app (set__progress (Some t'));; ret (Some node)
        | None => raise AttributeError
        end
    | None => ret None
    end;
  object_id ←
    match label obj with
    | Some l =>
        match app_name l with
        | Some an =>
            id ← _include an (object_label l) (namespace l);
            ret (Some id)
        | None => raise AssertionError
        end
    | None =>
        object_id ← call (EvLoad obj existing_object_id) (load (backend env) obj existing_object_id);
        match existing_object_id with
        | Some existing =>
            if decide (object_id <> Some existing) then
              if negb (String.prefix "im-" existing) then
                raise (Exception ("Tried creating an object using existing id "
                         +:+ existing +:+ " but it has id " +:+ format_opt object_id))
              else ret object_id
            else ret object_id
        | None => ret object_id
        end
    end;
  match object_id with
  | None =>
      raise (Exception ("object_id for object of type " +:+ repr_type env obj +:+ " is None"))
  | Some object_id =>
      match step_node with
      | Some node =>
          match created_message obj with
          | Some m =>
              modify_app (fun a =>
                set__progress (tree_set_child node (step_completed m true) <$> _progress a) a)
          | None => raise AssertionError
          end
      | None => ret tt
      end;;
      ret object_id
  end.

(** The body of the loop of [_create_all_objects]. *)
Definition create_tagged (tag : string) : M B unit :=
  a ← get_app;
  obj ← match get_object (_blueprint a) tag with
         | Some obj => ret obj
         | None => raise (KeyError (Some tag))
         end;
  let existing_object_id := _tag_to_existing_id a !! tag in
  mark (EvCreating tag existing_object_id);;
  object_id ← _create_object obj existing_object_id;
  modify_app (fun a => set__tag_to_object (<[tag := from_id object_id]> (_tag_to_object a)) a).

(** The order in which [_create_all_objects] visits the tags. *)
Definition creation_order (bp : Blueprint) : list string :=
  let tags := map fst (get_objects bp) in
  sort_by_key (String.prefix "fu-") tags.

Definition _create_all_objects : M B unit :=
  a ← get_app;
  for_each (creation_order (_blueprint a)) create_tagged.

(** The first [try] block of [_run] up to the task context: the app gets
    its identity. *)
Definition acquire_app (client : Client) (existing_app_id : option string) : M B unit :=
  match existing_app_id with
  | Some existing_app_id =>
      _ ← self_client_stub;
      object_ids ← call (EvAppGetObjects existing_app_id) (AppGetObjects (backend env) existing_app_id);
      modify_app (set__tag_to_existing_id object_ids);;
      modify_app (set__app_id (Some existing_app_id))
  | None =>
      n ← name;
      app_id ← call (EvAppCreate (client_id client) n) (AppCreate (backend env) (client_id client) n);
      modify_app (set__tag_to_existing_id ∅);;
      modify_app (set__app_id (Some app_id))
  end.

(** The inner [try] block of [_run]; [body] is the body of the [with]
    statement, run at the [yield]. *)
Definition create_publish_yield (body : M B unit) : M B unit :=
  modify_app (set__progress
    (Some {| tree_label := step_progress "Creating objects..."; tree_children := [] |}));;
  _create_all_objects;;
  modify_app (fun a =>
    set__progress (tree_set_label (step_completed "Created objects." false) <$> _progress a) a);;
  a ← get_app;
  let object_ids := object_id <$> _tag_to_object a in
  _ ← self_client_stub;
  call (EvAppSetObjects (_app_id a) object_ids) (AppSetObjects (backend env) (_app_id a) object_ids);;
  modify_app (set_state RUNNING);;
  mark EvYield;;
  body;;
  modify_app (set_state STOPPING).

(** The inner [finally] block of [_run]. *)
Definition disconnect : M B unit :=
  a ← get_app;
  _ ← self_client_stub;
  call (EvAppClientDisconnect (_app_id a)) (AppClientDisconnect (backend env) (_app_id a)).

(** The outer [finally] block of [_run]. *)
Definition cleanup (a : App) : App :=
  set__tag_to_object ∅ (set__progress None (set_state NONE (set_client None a))).

(** The context manager [_run], with the body of its [with] statement.  The
    output manager only prints, and the task context only runs the log task,
    which is marked in the trace. *)
Definition _run (client : Client) (existing_app_id last_log_entry_id : option string)
    (body : M B unit) : M B unit :=
  a ← get_app;
  if decide (state a <> NONE) then
    raise (Exception ("Can't start a app that's already in state "
             +:+ repr_AppState env (state a)))
  else
    modify_app (set_state STARTING);;
    modify_app (set_client (Some client));;
    try_finally
      (acquire_app client existing_app_id;;
       a ← get_app;
       mark (EvGetLogsLoop (_app_id a) (default "" last_log_entry_id));;
       try_finally (create_publish_yield body) disconnect)
      (modify_app cleanup).

(** [_get_client]. *)
Definition _get_client (client : option Client) : Client :=
  default (client_from_env env) client.

Definition run (client : option Client) (body : M B unit) : M B unit :=
  _run (_get_client client) None None body.

Definition deploy (name_arg : option string) (namespace : DeploymentNamespace)
    (client : option Client) : M B (option string) :=
  a ← get_app;
  if decide (state a <> NONE) then
    raise (InvalidError "Can only deploy an app that isn't running")
  else
    name_arg ← match name_arg with
               | Some n => ret (Some n)
               | None => n ← name; ret (Some n)
               end;
    match name_arg with
    | None => raise (InvalidError deploy_guidance)
    | Some n =>
        modify_app (set_deployment_name (Some n));;
        let client := _get_client client in
        '(app_id, last_log_entry_id) ←
          call (EvAppGetByDeploymentName n namespace (client_id client))
               (AppGetByDeploymentName (backend env) n namespace (client_id client));
        let existing_app_id := if str_truthy app_id then Some app_id else None in
        _run client existing_app_id (Some last_log_entry_id)
          (a ← get_app;
           call (EvAppDeploy (_app_id a) n namespace) (AppDeploy (backend env) (_app_id a) n namespace));;
        a ← get_app;
        ret (_app_id a)
    end.

End Methods.

End App.

(** ** A remote service to run the app against *)

Module Servicer.
Import App.

(** Modelled from the spec: the remote service of section 6 (the servicer the
    tests of [client_test] run against is not among the sources).  It keeps
    the deployments by name, the objects published for each application and
    the identities it has handed out, and gives every new application and
    object an identity that is not in use: "ap-1", "ap-2", ... and, for
    objects, the prefix of their class with the first free number.  An object
    created with an existing identity keeps it. *)
Record State : Type := {
  deployed_apps : gmap string string;
  app_objects : gmap string (gmap string string);
  issued : gset string;
  function_create_error : bool
}.

Definition initial : State :=
  {| deployed_apps := ∅; app_objects := ∅; issued := ∅; function_create_error := false |}.

Definition kind_prefix (k : ObjectKind) : string :=
  match k with
  | KFunction => "fu-"
  | KImage => "im-"
  | KMount => "mo-"
  | KSecret => "st-"
  | KSchedule => "sc-"
  | KQueue => "qu-"
  end.

(** The identities found in the deployments and in the published objects. *)
Definition bound_apps (s : State) : gset string := map_img (deployed_apps s).

Definition stored_objects (s : State) : gset string :=
  ⋃ (map_img <$> (map_to_list (app_objects s)).*2).

Definition in_use (s : State) : gset string :=
  issued s ∪ bound_apps s ∪ stored_objects s.

(** The first of [prefix1], [prefix2], ... that is not in use. *)
Definition new_id (prefix : string) (s : State) : string :=
  fresh_string_of_set prefix ({[ ""; prefix; prefix +:+ "0" ]} ∪ in_use s).

Definition issue (id : string) (s : State) : State :=
  {| deployed_apps := deployed_apps s; app_objects := app_objects s;
     issued := {[ id ]} ∪ issued s;
     function_create_error := function_create_error s |}.

Definition servicer : Backend State :=
  {| AppGetByDeploymentName := fun name _ _ s =>
       (s, Ok (default "" (deployed_apps s !! name), ""));
     AppGetObjects := fun app_id s =>
       (s, Ok (default ∅ (app_objects s !! app_id)));
     AppCreate := fun _ _ s =>
       let id := new_id "ap-" s in (issue id s, Ok id);
     AppSetObjects := fun app_id object_ids s =>
       ({| deployed_apps := deployed_apps s;
           app_objects := <[default "" app_id := object_ids]> (app_objects s);
           issued := issued s;
           function_create_error := function_create_error s |}, Ok tt);
     AppClientDisconnect := fun _ s => (s, Ok tt);
     AppDeploy := fun app_id name _ s =>
       ({| deployed_apps := <[name := default "" app_id]> (deployed_apps s);
           app_objects := app_objects s;
           issued := issued s;
           function_create_error := function_create_error s |}, Ok tt);
     AppIncludeObject := fun _ name object_label _ s =>
       let objects := default ∅ (deployed_apps s !! name ≫= fun id => app_objects s !! id) in
       let found :=
         match object_label with
         | Some l => objects !! l
         | None => head (map_to_list objects).*2
         end in
       (s, Ok (default "" found));
     load := fun obj existing s =>
       if function_create_error s && is_function obj then (s, Raise (RpcError "FunctionCreate"))
       else match existing with
            | Some id => (s, Ok (Some id))
            | None => let id := new_id (kind_prefix (kind obj)) s in (issue id s, Ok (Some id))
            end |}.

(** The process of a test: the servicer, a script name for [sys.argv], and
    some text for the values Python would print. *)
Definition test_env : Env State :=
  {| backend := servicer;
     sys_argv := ["/usr/bin/pytest"; "client_test"];
     client_from_env := {| client_id := "cl-env" |};
     repr_Object := fun obj => "<Object " +:+ definition obj +:+ ">";
     repr_Label := fun l =>
       "Label(" +:+ format_opt (app_name l) +:+ ", " +:+ format_opt (object_label l) +:+ ")";
     repr_type := fun obj => "<class " +:+ kind_prefix (kind obj) +:+ ">";
     repr_AppState := fun st =>
       match st with
       | NONE => "AppState.NONE"
       | STARTING => "AppState.STARTING"
       | RUNNING => "AppState.RUNNING"
       | STOPPING => "AppState.STOPPING"
       end |}.

Definition test_client : Client := {| client_id := "cl-1" |}.

Definition start (a : App) : World State :=
  {| w_app := a; w_remote := initial; w_trace := [] |}.

(** The objects of the tests: a function, the default image, the client
    mount and a queue, none of them a reference. *)
Definition local_object (k : ObjectKind) (def : string) : Object :=
  {| kind := k; label := None;
     creating_message := Some ("Creating " +:+ def +:+ "...");
     created_message := Some ("Created " +:+ def +:+ ".");
     definition := def |}.

Definition square : Object := local_object KFunction "square".
Definition debian_slim : Object := local_object KImage "debian_slim".
Definition client_mount : Object := local_object KMount "client_mount".
Definition queue : Object := local_object KQueue "queue".

(** A reference made by [ref(app_name, tag)]. *)
Definition reference (app_name tag : option string) (ns : DeploymentNamespace) : Object :=
  {| kind := KQueue;
     label := Some {| app_name := app_name; object_label := tag; namespace := ns |};
     creating_message := None; created_message := None; definition := "ref" |}.

End Servicer.

(** ** The apps and the calls of the tests *)

Module Tests.
Import App Servicer.

Definition account : DeploymentNamespace := DEPLOYMENT_NAMESPACE_ACCOUNT.

(** The app of [test_redeploy]: [app.function(square)] registers the default
    image, the client mount and the function, under its qualified name. *)
Definition square_blueprint : Blueprint :=
  [("_image", debian_slim); ("_client_mount", client_mount);
   ("client_test.app_test.square", square)].

Definition square_app : App := new_App None square_blueprint.

(** The same app with the queue of [test_persistent_object] registered after
    the function. *)
Definition mixed_blueprint : Blueprint :=
  square_blueprint ++ [("q_1", queue)].

Definition mixed_app : App := new_App None mixed_blueprint.

Definition deployed_once : World State * Result (option string) :=
  deploy test_env (Some "my-app") account (Some test_client) (start square_app).

Definition deployed_twice : World State * Result (option string) :=
  deploy test_env (Some "my-app") account (Some test_client) (fst deployed_once).

Definition deployed_elsewhere : World State * Result (option string) :=
  deploy test_env (Some "my-app-xyz") account (Some test_client) (fst deployed_twice).

(** A workload that raises, and one that returns. *)
Definition failing_body : M State unit := raise (Exception "boom").
Definition passing_body : M State unit := ret tt.

Definition raising_run : World State * Result unit :=
  run test_env (Some test_client) failing_body (start mixed_app).

Definition passing_run : World State * Result unit :=
  run test_env (Some test_client) passing_body (start mixed_app).

(** A deployment with no name of an app with no name, run as
    [pytest client_test]. *)
Definition unnamed_deploy : World State * Result (option string) :=
  deploy test_env None account (Some test_client) (start square_app).

(** A service that gives an image the identity of its content, whatever
    identity it had. *)
Definition rehashing : Backend State :=
  {| AppGetByDeploymentName := AppGetByDeploymentName servicer;
     AppGetObjects := AppGetObjects servicer;
     AppCreate := AppCreate servicer;
     AppSetObjects := AppSetObjects servicer;
     AppClientDisconnect := AppClientDisconnect servicer;
     AppDeploy := AppDeploy servicer;
     AppIncludeObject := AppIncludeObject servicer;
     load := fun obj existing s =>
       match kind obj with
       | KImage => (s, Ok (Some ("im-" +:+ definition obj)))
       | _ => load servicer obj existing s
       end |}.

Definition rehashing_env : Env State :=
  {| backend := rehashing;
     sys_argv := sys_argv test_env;
     client_from_env := client_from_env test_env;
     repr_Object := repr_Object test_env;
     repr_Label := repr_Label test_env;
     repr_type := repr_type test_env;
     repr_AppState := repr_AppState test_env |}.

(** The references of [test_persistent_object]: one to an app that is not
    deployed, and one to nothing. *)
Definition missing : Object := reference (Some "bazbazbaz") None account.
Definition nothing : Object := reference None None account.

End Tests.

(** ** Further methods of [_App] *)

Module AppAccess.
Import App.

(** What [__getitem__] returns: the live object of a running app ([None]
    when the tag has none), or the reference [ref(None, tag)], given here
    by the arguments of [ref]. *)
Inductive Item : Type :=
| ItemLive (o : option LiveObject)
| ItemRef (app_name : option string) (tag : option string).

(** The Blueprint after [self._blueprint.register(tag, obj)]. *)
Definition set__blueprint (v : Blueprint) (a : App) : App :=
  {| _app_id := _app_id a; client := client a; _name := _name a;
     deployment_name := deployment_name a; state := state a;
     _tag_to_object := _tag_to_object a;
     _tag_to_existing_id := _tag_to_existing_id a;
     _blueprint := v; _progress := _progress a |}.

(** [obj.label and not obj.label.app_name]. *)
Definition is_local_reference (obj : Object) : bool :=
  match label obj with
  | Some l => negb (opt_truthy (app_name l))
  | None => false
  end.

Section Methods.
Context {B : Type} (env : Env B).

(** [_initialize_container(app_id, client, task_id)].  The request of the
    container carries the task as well as the application:
    [get_objects_of_task] is that call of the stub.  The loop assigns the
    entries of the response one by one. *)
Definition _initialize_container
    (get_objects_of_task : string -> string -> B -> B * Result (gmap string string))
    (app_id : string) (cl : Client) (task_id : string) : M B unit :=
  modify_app (set__app_id (Some app_id));;
  modify_app (set_client (Some cl));;
  _ ← self_client_stub;
  object_ids ← call (EvAppGetObjects app_id) (get_objects_of_task app_id task_id);
  for_each (map_to_list object_ids) (fun item =>
    modify_app (fun a =>
      set__tag_to_object (<[item.1 := from_id item.2]> (_tag_to_object a)) a));;
  modify_app (set_state RUNNING).

(** [__getitem__(tag)]. *)
Definition __getitem__ (tag : string) : M B Item :=
  a ← get_app;
  if decide (state a = RUNNING) then ret (ItemLive (_tag_to_object a !! tag))
  else ret (ItemRef None (Some tag)).

(** [__setitem__(tag, obj)]; [register] is [Blueprint.register], which
    returns the Blueprint with the object or raises. *)
Definition __setitem__ (register : Blueprint -> string -> Object -> Result Blueprint)
    (tag : string) (obj : Object) : M B unit :=
  if is_local_reference obj then
    raise (Exception "Setting a reference on the blueprint")
  else
    a ← get_app;
    match register (_blueprint a) tag obj with
    | Ok bp => modify_app (set__blueprint bp)
    | Raise e => raise e
    end.

(** [include(name, object_label, namespace)]. *)
Definition include (name : string) (object_label : option string)
    (namespace : DeploymentNamespace) : M B LiveObject :=
  object_id ← _include env name object_label namespace;
  ret (from_id object_id).

End Methods.

End AppAccess.

(** ** More services and worlds for the tests *)

Module MoreTests.
Import App Servicer Tests.

(** A servicer on which one call fails. *)
Inductive Fault : Type :=
| FaultCreate | FaultGetObjects | FaultSetObjects | FaultDisconnect.

Definition faulty (f : Fault) : Backend State :=
  {| AppGetByDeploymentName := AppGetByDeploymentName servicer;
     AppGetObjects := fun app_id s =>
       match f with
       | FaultGetObjects => (s, Raise (RpcError "AppGetObjects"))
       | _ => AppGetObjects servicer app_id s
       end;
     AppCreate := fun cid n s =>
       match f with
       | FaultCreate => (s, Raise (RpcError "AppCreate"))
       | _ => AppCreate servicer cid n s
       end;
     AppSetObjects := fun app_id ids s =>
       match f with
       | FaultSetObjects => (s, Raise (RpcError "AppSetObjects"))
       | _ => AppSetObjects servicer app_id ids s
       end;
     AppClientDisconnect := fun app_id s =>
       match f with
       | FaultDisconnect => (s, Raise (RpcError "AppClientDisconnect"))
       | _ => AppClientDisconnect servicer app_id s
       end;
     AppDeploy := AppDeploy servicer;
     AppIncludeObject := AppIncludeObject servicer;
     load := load servicer |}.

Definition faulty_env (f : Fault) : Env State :=
  {| backend := faulty f;
     sys_argv := sys_argv test_env;
     client_from_env := client_from_env test_env;
     repr_Object := repr_Object test_env;
     repr_Label := repr_Label test_env;
     repr_type := repr_type test_env;
     repr_AppState := repr_AppState test_env |}.

(** The servicer of [test_create_object_exception], on which the creation
    of a function fails. *)
Definition start_failing (a : App) : World State :=
  {| w_app := a;
     w_remote := {| deployed_apps := ∅; app_objects := ∅; issued := ∅;
                    function_create_error := true |};
     w_trace := [] |}.

(** The app of [test_persistent_object], and its deployment. *)
Definition queue_app : App := new_App None [("q_1", queue)].

Definition queue_deployed : World State * Result (option string) :=
  deploy test_env (Some "my-queue") account (Some test_client) (start queue_app).

(** A second app, running against the same servicer. *)
Definition second_app_running : World State :=
  {| w_app := set_state RUNNING (set_client (Some test_client)
                (set__app_id (Some "ap-2") (new_App None [])));
     w_remote := w_remote (fst queue_deployed);
     w_trace := [] |}.

(** A workload that checks that the app is running. *)
Definition checking_body : M State unit :=
  a ← get_app;
  if decide (state a = RUNNING) then ret tt else raise AssertionError.

(** The bytes of "caf\xc3" and "\xa9\n": a two-byte character divided
    between two reads. *)
Definition cafe_head : string := "caf" +:+ String (ascii_of_nat 195) "".
Definition cafe_tail : string := String (ascii_of_nat 169) (String LF "").

(** An app that registers a reference to the queue deployed as "my-queue"
    ([app["q"] = ref("my-queue")]) before its function, and its deployments
    next to that of the queue: twice under one name, then under another. *)
Definition referring_blueprint : Blueprint :=
  ("q", reference (Some "my-queue") None account) :: square_blueprint.

Definition referring_app : App := new_App None referring_blueprint.

Definition referring_start : World State :=
  {| w_app := referring_app; w_remote := w_remote (fst queue_deployed); w_trace := [] |}.

Definition referring_once : World State * Result (option string) :=
  deploy test_env (Some "my-app") account (Some test_client) referring_start.

Definition referring_twice : World State * Result (option string) :=
  deploy test_env (Some "my-app") account (Some test_client) (fst referring_once).

Definition referring_elsewhere : World State * Result (option string) :=
  deploy test_env (Some "my-app-xyz") account (Some test_client) (fst referring_twice).

(** A service that keeps the identity it is given, and gives a new image
    the identity of its content (the comment in [_create_object]: images
    are not assigned random ids, but an id given by the hash of their
    contents). *)
Definition content_addressed : Backend State :=
  {| AppGetByDeploymentName := AppGetByDeploymentName servicer;
     AppGetObjects := AppGetObjects servicer;
     AppCreate := AppCreate servicer;
     AppSetObjects := AppSetObjects servicer;
     AppClientDisconnect := AppClientDisconnect servicer;
     AppDeploy := AppDeploy servicer;
     AppIncludeObject := AppIncludeObject servicer;
     load := fun obj existing s =>
       match existing, kind obj with
       | None, KImage => (s, Ok (Some ("im-" +:+ definition obj)))
       | _, _ => load servicer obj existing s
       end |}.

Definition content_addressed_env : Env State :=
  {| backend := content_addressed;
     sys_argv := sys_argv test_env;
     client_from_env := client_from_env test_env;
     repr_Object := repr_Object test_env;
     repr_Label := repr_Label test_env;
     repr_type := repr_type test_env;
     repr_AppState := repr_AppState test_env |}.

Definition hashed_once : World State * Result (option string) :=
  deploy content_addressed_env (Some "my-app") account (Some test_client) (start square_app).

Definition hashed_twice : World State * Result (option string) :=
  deploy content_addressed_env (Some "my-app") account (Some test_client) (fst hashed_once).

Definition hashed_elsewhere : World State * Result (option string) :=
  deploy content_addressed_env (Some "my-app-xyz") account (Some test_client)
    (fst hashed_twice).

End MoreTests.

(** * Properties *)

(** ** Strings *)

Lemma append_cons (x : ascii) (a b : string) : String x a +:+ b = String x (a +:+ b).
Proof. reflexivity. Qed.

Lemma append_assoc_str (a b c : string) : (a +:+ b) +:+ c = a +:+ (b +:+ c).
Proof.
  induction a as [|x a IH]; [done|].
  rewrite !append_cons. f_equal. exact IH.
Qed.

Lemma append_nil_r (a : string) : a +:+ "" = a.
Proof. induction a as [|x a IH]; [done|]. rewrite append_cons. now f_equal. Qed.
Module OutputCaptureFacts.
Import OutputCapture.

(** The shape of the result of [re.split] with one capturing group: text
    segments and separators alternate, starting and ending with a segment. *)
Inductive alternating : list string -> Prop :=
| alt_last seg :
    no_terminator seg = true -> alternating [seg]
| alt_cons seg sep rest :
    no_terminator seg = true -> sep ∈ separators -> alternating rest ->
    alternating (seg :: sep :: rest).

Lemma no_terminator_snoc seg c :
  no_terminator seg = true -> Ascii.eqb c CR = false -> Ascii.eqb c LF = false ->
  no_terminator (seg +:+ String c "") = true.
Proof.
  intros Hseg Hcr Hlf. induction seg as [|d seg IH]; simpl in *.
  - now rewrite Hcr, Hlf.
  - apply andb_prop in Hseg as [Hd Hseg]. rewrite Hd. simpl. auto.
Qed.

Lemma separators_CRLF : str_CRLF ∈ separators.
Proof. unfold separators. apply list_elem_of_here. Qed.

Lemma separators_CR : str_CR ∈ separators.
Proof. unfold separators. apply list_elem_of_further, list_elem_of_here. Qed.

Lemma separators_LF : str_LF ∈ separators.
Proof. unfold separators. do 2 apply list_elem_of_further. apply list_elem_of_here. Qed.

Lemma re_split_from_alternating_bounded n :
  forall s seg, String.length s <= n -> no_terminator seg = true ->
  alternating (re_split_from seg s).
Proof.
  induction n as [|n IH]; intros s seg Hlen Hseg.
  - destruct s; simpl in Hlen; [|lia]. simpl. now constructor.
  - destruct s as [|c s]; simpl; [now constructor|].
    simpl in Hlen.
    destruct (Ascii.eqb c CR) eqn:Hcr.
    + destruct s as [|d s].
      * apply alt_cons; [done | apply separators_CR |]. apply IH; [simpl; lia | done].
      * simpl in Hlen. destruct (Ascii.eqb d LF) eqn:Hlf.
        -- apply alt_cons; [done | apply separators_CRLF |]. apply IH; [lia | done].
        -- apply alt_cons; [done | apply separators_CR |]. apply IH; [simpl; lia | done].
    + destruct (Ascii.eqb c LF) eqn:Hlf.
      * apply alt_cons; [done | apply separators_LF |]. apply IH; [lia | done].
      * apply IH; [lia |]. now apply no_terminator_snoc.
Qed.

Lemma re_split_alternating s : alternating (re_split s).
Proof. unfold re_split. now apply (re_split_from_alternating_bounded (String.length s)). Qed.

Lemma alternating_length l :
  alternating l -> exists k, List.length l = 2 * k + 1.
Proof.
  induction 1 as [seg _|seg sep rest _ _ _ [k IH]].
  - now exists 0.
  - exists (S k). simpl. rewrite IH. lia.
Qed.

Lemma alternating_even l :
  alternating l -> forall i seg, l !! (2 * i) = Some seg -> no_terminator seg = true.
Proof.
  induction 1 as [s Hs|s sep rest Hs Hsep Hrest IH]; intros i seg Hi.
  - destruct i as [|i]; [simpl in Hi; congruence|].
    replace (2 * S i) with (S (S (2 * i))) in Hi by lia. discriminate.
  - destruct i as [|i]; [simpl in Hi; congruence|].
    replace (2 * S i) with (S (S (2 * i))) in Hi by lia. simpl in Hi. exact (IH i seg Hi).
Qed.

Lemma alternating_odd l :
  alternating l -> forall i sep, l !! (2 * i + 1) = Some sep -> sep ∈ separators.
Proof.
  induction 1 as [s Hs|s sep' rest Hs Hsep Hrest IH]; intros i sep Hi.
  - replace (2 * i + 1) with (S (2 * i)) in Hi by lia. discriminate.
  - destruct i as [|i]; [simpl in Hi; congruence|].
    replace (2 * S i + 1) with (S (S (2 * i + 1))) in Hi by lia. simpl in Hi. exact (IH i sep Hi).
Qed.

(** The line the loop builds at index [i]. *)
Definition line_at (chunks : list string) (i : nat) : string :=
  default "" (chunks !! (2 * i)) +:+ default "" (chunks !! (2 * i + 1)).

Lemma emit_lines_in_bounds chunks range :
  Forall (fun i => 2 * i + 1 < List.length chunks) range ->
  emit_lines chunks range = (map (line_at chunks) range, None).
Proof.
  induction 1 as [|i range Hi _ IH]; [done|].
  cbn [emit_lines map]. unfold index, line_at.
  destruct (lookup_lt_is_Some_2 chunks (2 * i)) as [a Ha]; [lia|].
  destruct (lookup_lt_is_Some_2 chunks (2 * i + 1)) as [b Hb]; [lia|].
  rewrite Ha, Hb, IH. done.
Qed.

Lemma half_range_in_bounds n k :
  n = 2 * k + 1 -> Forall (fun i => 2 * i + 1 < n) (seq 0 (n / 2)).
Proof.
  intros ->. apply Forall_forall. intros i Hi. apply list_elem_of_In, in_seq in Hi.
  assert ((2 * k + 1) / 2 = k) as Hk.
  { symmetry. apply (Nat.div_unique _ 2 k 1); lia. }
  lia.
Qed.

Fixpoint concat_str (l : list string) : string :=
  match l with
  | [] => ""
  | x :: l' => x +:+ concat_str l'
  end.


Lemma re_split_from_concat_bounded n :
  forall s seg, String.length s <= n -> concat_str (re_split_from seg s) = seg +:+ s.
Proof.
  induction n as [|n IH]; intros s seg Hlen.
  - destruct s; simpl in Hlen; [|lia]. done.
  - destruct s as [|c s]; simpl; [done|]. simpl in Hlen.
    destruct (Ascii.eqb c CR) eqn:Hcr.
    + apply Ascii.eqb_eq in Hcr as ->.
      destruct s as [|d s].
      * simpl. done.
      * simpl in Hlen. destruct (Ascii.eqb d LF) eqn:Hlf.
        -- apply Ascii.eqb_eq in Hlf as ->. simpl. rewrite IH by lia. done.
        -- cbn [concat_str]. rewrite IH by (simpl; lia). done.
    + destruct (Ascii.eqb c LF) eqn:Hlf.
      * apply Ascii.eqb_eq in Hlf as ->. simpl. rewrite IH by lia. done.
      * rewrite IH by lia. now rewrite append_assoc_str.
Qed.

Lemma re_split_concat s : concat_str (re_split s) = s.
Proof. unfold re_split. now rewrite (re_split_from_concat_bounded (String.length s)). Qed.


(** The byte sequence of the round-trip scenario: "abc\ndef\r\nghi". *)
Definition roundtrip_bytes : string := "abc" +:+ str_LF +:+ "def" +:+ str_CRLF +:+ "ghi".

(** C9: [re.split] with the capturing separator pattern returns an odd
    number of chunks, text segments at even positions and separators at odd
    positions; so every index the worker's loop uses is in bounds, the
    retained buffer [chunks[-1]] exists, the loop raises nothing, and it hands
    the callback one line per separator, each a segment followed by its own
    terminator. *)
Theorem re_split_chunks_shape (s : string) :
  let chunks := re_split s in
  let half := List.length chunks / 2 in
  (exists k, List.length chunks = 2 * k + 1) /\
  (forall i seg, chunks !! (2 * i) = Some seg -> no_terminator seg = true) /\
  (forall i sep, chunks !! (2 * i + 1) = Some sep -> sep ∈ separators) /\
  (forall i, i < half ->
     exists seg sep, index chunks (2 * i) = inr seg /\ index chunks (2 * i + 1) = inr sep) /\
  (exists buf, index_last chunks = inr buf) /\
  (exists lines,
     emit_lines chunks (seq 0 half) = (lines, None) /\
     List.length lines = half /\
     forall i line, lines !! i = Some line ->
       exists seg sep,
         chunks !! (2 * i) = Some seg /\ chunks !! (2 * i + 1) = Some sep /\
         no_terminator seg = true /\ sep ∈ separators /\ line = seg +:+ sep).
Proof.
  intros chunks half.
  pose proof (re_split_alternating s) as Halt. fold chunks in Halt.
  destruct (alternating_length _ Halt) as [k Hk].
  pose proof (half_range_in_bounds _ _ Hk) as Hrange. fold half in Hrange.
  assert (half = k) as Hhalf.
  { unfold half. rewrite Hk. symmetry. apply (Nat.div_unique _ 2 k 1); lia. }
  split; [eauto|]. split; [apply alternating_even, Halt|].
  split; [apply alternating_odd, Halt|]. split; [|split].
  - intros i Hi. unfold index.
    destruct (lookup_lt_is_Some_2 chunks (2 * i)) as [a Ha]; [lia|].
    destruct (lookup_lt_is_Some_2 chunks (2 * i + 1)) as [b Hb]; [lia|].
    rewrite Ha, Hb. eauto.
  - unfold index_last. destruct (last chunks) as [buf|] eqn:Hlast; [eauto|].
    apply last_None in Hlast. rewrite Hlast in Hk. simpl in Hk. lia.
  - exists (map (line_at chunks) (seq 0 half)).
    split; [now apply emit_lines_in_bounds|]. split; [now rewrite length_map, length_seq|].
    intros i line Hline. rewrite list_lookup_fmap in Hline.
    destruct (seq 0 half !! i) as [j|] eqn:Hj; [|discriminate].
    apply lookup_seq in Hj as [-> Hlt]. simpl in Hline. injection Hline as <-.
    destruct (lookup_lt_is_Some_2 chunks (2 * i)) as [a Ha]; [lia|].
    destruct (lookup_lt_is_Some_2 chunks (2 * i + 1)) as [b Hb]; [lia|].
    exists a, b. unfold line_at. rewrite Ha, Hb.
    repeat split; [eapply alternating_even | eapply alternating_odd]; eauto.
Qed.

(** The round trip when one read gives all the bytes: the worker calls the
    callback with "abc\n" and then "def\r\n" and keeps "ghi"; at the end of
    the stream (an empty read, or the [EIO] error of a closed pseudo-terminal) it
    calls the callback once more, with "ghi", and returns. *)
Lemma capture_roundtrip :
  capture_thread utf8_decoder [ReadBytes roundtrip_bytes]
    = (["abc" +:+ str_LF; "def" +:+ str_CRLF], Reading "ghi") /\
  capture_thread utf8_decoder [ReadBytes roundtrip_bytes; ReadBytes ""]
    = (["abc" +:+ str_LF; "def" +:+ str_CRLF; "ghi"], Returned) /\
  capture_thread utf8_decoder [ReadBytes roundtrip_bytes; ReadRaises EIO]
    = (["abc" +:+ str_LF; "def" +:+ str_CRLF; "ghi"], Returned).
Proof. repeat split; vm_compute; reflexivity. Qed.

(** *** The round trip, however the bytes are read *)

(** The worker takes what [os.read(read_fd, 50)] returns: the bytes written
    reach it divided into reads, each of one byte at least.  [ends_read_at n
    reads]: one of the reads ends with the [n]-th byte of the stream. *)
Fixpoint ends_read_at (n : nat) (reads : list string) : bool :=
  match reads with
  | [] => false
  | r :: reads' =>
      if Nat.eqb (String.length r) n then true
      else if Nat.ltb (String.length r) n then ends_read_at (n - String.length r) reads'
      else false
  end.

(** The lines of the round trip, and the lines that the worker gives when
    the carriage return and the line feed come in two reads. *)
Definition roundtrip_lines : list string := ["abc" +:+ str_LF; "def" +:+ str_CRLF; "ghi"].

Definition roundtrip_lines_divided : list string :=
  ["abc" +:+ str_LF; "def" +:+ str_CR; str_LF; "ghi"].

(** All the ways to divide a string into reads of one byte at least. *)
Fixpoint divisions (s : string) : list (list string) :=
  match s with
  | EmptyString => [[]]
  | String c s' =>
      flat_map (fun d =>
                  match d with
                  | [] => [[String c ""]]
                  | r :: d' => [String c "" :: r :: d'; String c r :: d']
                  end) (divisions s')
  end.

Lemma divisions_cons (r : string) : forall (reads : list string),
  r <> "" ->
  List.In reads (divisions (concat_str reads)) ->
  List.In (r :: reads) (divisions (concat_str (r :: reads))).
Proof.
  induction r as [|c r IH]; intros reads Hr Hin; [contradiction|].
  change (concat_str (String c r :: reads)) with (String c (concat_str (r :: reads))).
  cbn [divisions]. apply List.in_flat_map.
  destruct r as [|c' r'].
  - exists reads. split; [exact Hin|].
    destruct reads as [|r0 reads']; cbn; auto.
  - exists (String c' r' :: reads). split; [apply IH; [discriminate|exact Hin]|].
    cbn. auto.
Qed.

Lemma divisions_complete (reads : list string) :
  Forall (fun r => str_truthy r = true) reads ->
  List.In reads (divisions (concat_str reads)).
Proof.
  induction 1 as [|r reads Hr _ IH]; [now left|].
  apply divisions_cons; [|exact IH]. intros ->. discriminate.
Qed.

Fixpoint lines_eqb (l1 l2 : list string) : bool :=
  match l1, l2 with
  | [], [] => true
  | x :: l1', y :: l2' => String.eqb x y && lines_eqb l1' l2'
  | _, _ => false
  end.

Lemma lines_eqb_eq (l1 : list string) : forall l2, lines_eqb l1 l2 = true -> l1 = l2.
Proof.
  induction l1 as [|x l1 IH]; intros [|y l2] H; try discriminate; [reflexivity|].
  cbn in H. apply andb_prop in H as [Hx Hl]. apply String.eqb_eq in Hx as ->.
  now rewrite (IH l2 Hl).
Qed.

(** The worker returns with the lines that the division of the reads
    decides. *)
Definition roundtrip_check (fin : ReadResult) (reads : list string) : bool :=
  match capture_thread utf8_decoder (map ReadBytes reads ++ [fin]) with
  | (lines, Returned) =>
      lines_eqb lines (if ends_read_at 8 reads then roundtrip_lines_divided
                       else roundtrip_lines)
  | _ => false
  end.

Lemma roundtrip_check_all :
  forallb (roundtrip_check (ReadBytes "")) (divisions roundtrip_bytes) = true.
Proof. vm_compute. reflexivity. Qed.

(** The error [EIO] ends the stream as an empty read does. *)
Lemma capture_loop_EIO (decoder : IncrementalDecoder) (reads : list ReadResult) :
  forall st buf,
  capture_loop decoder (reads ++ [ReadRaises EIO]) st buf
  = capture_loop decoder (reads ++ [ReadBytes ""]) st buf.
Proof.
  induction reads as [|r reads IH]; intros st buf; [reflexivity|].
  cbn [app capture_loop]. destruct r as [raw|[|n]]; [|reflexivity|reflexivity].
  destruct (negb (str_truthy raw)); [reflexivity|].
  destruct (dec_decode decoder st raw) as [e|[st' data]]; [reflexivity|].
  destruct (emit_lines _ _) as [lines [e|]]; [reflexivity|].
  destruct (index_last _) as [e|buf']; [reflexivity|]. now rewrite IH.
Qed.

(** C6 (the code diverges): the bytes "abc\ndef\r\nghi" reach the worker
    as [os.read] divides them, and the lines it gives the callback depend on
    the division.  Whatever the reads are (each of one byte at least, the
    stream ending by an empty read or by the error [EIO]), the worker
    returns, and the final "ghi" is given once; the lines are "abc\n",
    "def\r\n", "ghi" exactly when no read ends with the carriage return,
    the eighth byte.  When one does, the callback gets "def\r" and then
    "\n" as a line of its own: four calls, and "def\r\n" is never given. *)
Theorem capture_roundtrip_by_reads (reads : list string) (fin : ReadResult) :
  Forall (fun r => str_truthy r = true) reads ->
  concat_str reads = roundtrip_bytes ->
  fin = ReadBytes "" \/ fin = ReadRaises EIO ->
  capture_thread utf8_decoder (map ReadBytes reads ++ [fin])
  = (if ends_read_at 8 reads then roundtrip_lines_divided else roundtrip_lines, Returned).
Proof.
  intros Hreads Hbytes Hfin.
  pose proof (divisions_complete reads Hreads) as Hin. rewrite Hbytes in Hin.
  assert (capture_thread utf8_decoder (map ReadBytes reads ++ [fin])
          = capture_thread utf8_decoder (map ReadBytes reads ++ [ReadBytes ""])) as ->.
  { destruct Hfin as [-> | ->]; [reflexivity|apply capture_loop_EIO]. }
  pose proof (proj1 (List.forallb_forall _ _) roundtrip_check_all reads Hin) as Hcheck.
  unfold roundtrip_check in Hcheck.
  destruct (capture_thread utf8_decoder (map ReadBytes reads ++ [ReadBytes ""]))
    as [lines [| |]]; try discriminate.
  now rewrite (lines_eqb_eq _ _ Hcheck).
Qed.

End OutputCaptureFacts.

Module AppFacts.
Import App.

(** ** Running a computation step by step *)

Lemma bind_Ok {B A C} (m : M B A) (k : A -> M B C) w w1 a :
  m w = (w1, Ok a) -> (m ≫= k) w = k a w1.
Proof. intros H. unfold mbind, M_bind, bind. now rewrite H. Qed.

Lemma bind_Raise {B A C} (m : M B A) (k : A -> M B C) w w1 e :
  m w = (w1, Raise e) -> (m ≫= k) w = (w1, Raise e).
Proof. intros H. unfold mbind, M_bind, bind. now rewrite H. Qed.

Lemma bind_inv {B A C} (m : M B A) (k : A -> M B C) w w' r :
  (m ≫= k) w = (w', r) ->
  (exists w1 a, m w = (w1, Ok a) /\ k a w1 = (w', r)) \/
  (exists e, m w = (w', Raise e) /\ r = Raise e).
Proof.
  unfold mbind, M_bind, bind. destruct (m w) as [w1 [a|e]]; intros H.
  - left. eauto.
  - right. injection H as <- <-. eauto.
Qed.

Lemma try_finally_inv {B A} (m : M B A) (fin : M B unit) w w' r :
  try_finally m fin w = (w', r) ->
  exists w1 r1 rf, m w = (w1, r1) /\ fin w1 = (w', rf) /\
    r = match rf with Ok _ => r1 | Raise e => Raise e end.
Proof.
  unfold try_finally. destruct (m w) as [w1 r1].
  destruct (fin w1) as [w2 [u|e]] eqn:Hfin; intros H; injection H as <- <-.
  - exists w1, r1, (Ok u). auto.
  - exists w1, r1, (Raise e). auto.
Qed.

Lemma bind_modify_app {B C} (f : App -> App) (k : unit -> M B C) w :
  (modify_app f ≫= k) w
  = k tt {| w_app := f (w_app w); w_remote := w_remote w; w_trace := w_trace w |}.
Proof. reflexivity. Qed.

Lemma bind_get_app {B C} (k : App -> M B C) w : (get_app ≫= k) w = k (w_app w) w.
Proof. reflexivity. Qed.

Lemma bind_mark {B C} ev (k : unit -> M B C) w :
  (mark ev ≫= k) w = k tt (record ev true w (w_remote w)).
Proof. reflexivity. Qed.

Lemma bind_ret {B A C} (a : A) (k : A -> M B C) w : (mret a ≫= k) w = k a w.
Proof. reflexivity. Qed.

Lemma bind_call {B A C} ev (op : B -> B * Result A) (k : A -> M B C) w :
  (call ev op ≫= k) w
  = match op (w_remote w) with
    | (b, Ok a) => k a (record ev true w b)
    | (b, Raise e) => (record ev false w b, Raise e)
    end.
Proof.
  unfold mbind, M_bind, bind, call. destruct (op (w_remote w)) as [b [a|e]]; reflexivity.
Qed.

Lemma bind_self_client_stub {B C} (k : Client -> M B C) w c :
  client (w_app w) = Some c -> (self_client_stub ≫= k) w = k c w.
Proof.
  intros Hc. unfold self_client_stub, mbind, M_bind, bind, get_app. now rewrite Hc.
Qed.

(** Unfolds the primitive computations in a hypothesis. *)
Ltac exec_in H :=
  repeat progress
    (unfold self_client_stub, mbind, M_bind, bind, mret, M_ret, ret, raise,
       get_app, modify_app, call, mark in H);
  simpl in H.

(** ** What a step leaves unchanged *)

(** The attributes that only [_run] and [deploy] themselves assign. *)
Record frame (a a' : App) : Prop := {
  fr_state : state a' = state a;
  fr_client : client a' = client a;
  fr_app_id : _app_id a' = _app_id a;
  fr_name : _name a' = _name a;
  fr_deployment_name : deployment_name a' = deployment_name a;
  fr_blueprint : _blueprint a' = _blueprint a;
  fr_existing : _tag_to_existing_id a' = _tag_to_existing_id a
}.

(** The same, and the live objects. *)
Record frame_objects (a a' : App) : Prop := {
  fo_frame : frame a a';
  fo_objects : _tag_to_object a' = _tag_to_object a
}.

(** What the relations between the app before and after a step have in
    common. *)
Class FrameRel (F : App -> App -> Prop) : Prop := {
  frame_rel_refl : forall a, F a a;
  frame_rel_trans : forall a b c, F a b -> F b c -> F a c;
  frame_rel_state : forall a b, F a b -> state b = state a
}.

#[global] Instance frame_rel : FrameRel frame.
Proof.
  split.
  - now constructor.
  - intros a b c [] []. constructor; congruence.
  - intros a b []. assumption.
Qed.

#[global] Instance frame_objects_rel : FrameRel frame_objects.
Proof.
  split.
  - intros a. split; [apply frame_rel_refl | reflexivity].
  - intros a b c [] []. split; [eapply frame_rel_trans; eassumption | congruence].
  - intros a b [[] _]. assumption.
Qed.

(** The entries a step adds carry the state the step started in. *)
Definition stamped (st : AppState) (P : Event -> Prop) (ext : list Entry) : Prop :=
  Forall (fun e => en_state e = st /\ P (en_event e)) ext.

Definition completed (ext : list Entry) : Prop :=
  Forall (fun e => en_ok e = true) ext.

(** A computation that keeps the frame [F] and appends stamped entries with
    events in [P], all of them completed calls if it returns. *)
Definition tracks {B A} (F : App -> App -> Prop) (P : Event -> Prop) (m : M B A) : Prop :=
  forall w w' r, m w = (w', r) ->
    F (w_app w) (w_app w') /\
    exists ext, w_trace w' = w_trace w ++ ext /\
      stamped (state (w_app w)) P ext /\
      (is_Ok r = true -> completed ext).

(** The body of a [with] statement: it keeps the frame and appends stamped
    entries. *)
Definition workload {B} (body : M B unit) : Prop :=
  forall w w' r, body w = (w', r) ->
    frame (w_app w) (w_app w') /\
    exists ext, w_trace w' = w_trace w ++ ext /\
      stamped (state (w_app w)) (fun _ => True) ext.

Section Tracking.
Context {B : Type} (F : App -> App -> Prop) `{!FrameRel F}.
Implicit Types (P : Event -> Prop) (w : World B).

Lemma tracks_ret {A} P (a : A) : tracks (B:=B) F P (mret a).
Proof.
  intros w w' r H. injection H as <- <-. split; [apply frame_rel_refl|].
  exists []. rewrite app_nil_r. repeat split; constructor.
Qed.

Lemma tracks_raise {A} P e : tracks (B:=B) (A:=A) F P (raise e).
Proof.
  intros w w' r H. injection H as <- <-. split; [apply frame_rel_refl|].
  exists []. rewrite app_nil_r. repeat split; constructor.
Qed.

Lemma tracks_get_app P : tracks (B:=B) F P get_app.
Proof.
  intros w w' r H. injection H as <- <-. split; [apply frame_rel_refl|].
  exists []. rewrite app_nil_r. repeat split; constructor.
Qed.

Lemma tracks_modify_app P (f : App -> App) :
  (forall a, F a (f a)) -> tracks (B:=B) F P (modify_app f).
Proof.
  intros Hf w w' r H. injection H as <- <-. split; [apply Hf|].
  exists []. simpl. rewrite app_nil_r. repeat split; constructor.
Qed.

Lemma tracks_call {A} P ev (op : B -> B * Result A) :
  P ev -> tracks F P (call ev op).
Proof.
  intros Hev w w' r H. unfold call in H. destruct (op (w_remote w)) as [b r0].
  injection H as <- <-. split; [apply frame_rel_refl|].
  eexists. split; [reflexivity|]. split.
  - repeat constructor; assumption.
  - intros Hok. repeat constructor. exact Hok.
Qed.

Lemma tracks_mark P ev : P ev -> tracks (B:=B) F P (mark ev).
Proof.
  intros Hev w w' r H. injection H as <- <-. split; [apply frame_rel_refl|].
  eexists. split; [reflexivity|]. split; repeat constructor; assumption.
Qed.

Lemma tracks_bind {A C} P (m : M B A) (k : A -> M B C) :
  tracks F P m -> (forall a, tracks F P (k a)) -> tracks F P (m ≫= k).
Proof.
  intros Hm Hk w w' r H. apply bind_inv in H as [(w1 & a & H1 & H2)|(e & H1 & ->)].
  - apply Hm in H1 as (Hf1 & ext1 & Ht1 & Hs1 & Hc1).
    apply Hk in H2 as (Hf2 & ext2 & Ht2 & Hs2 & Hc2).
    split; [eapply frame_rel_trans; eassumption|].
    exists (ext1 ++ ext2). rewrite Ht2, Ht1, app_assoc. split; [done|].
    rewrite (frame_rel_state _ _ Hf1) in Hs2. split.
    + apply Forall_app. split; assumption.
    + intros Hok. apply Forall_app. split; [now apply Hc1 | now apply Hc2].
  - now apply Hm in H1.
Qed.

Lemma tracks_for_each {A} P (xs : list A) (f : A -> M B unit) :
  (forall x, tracks F P (f x)) -> tracks F P (for_each xs f).
Proof.
  intros Hf. induction xs as [|x xs IH]; simpl.
  - apply (tracks_ret P tt).
  - apply (tracks_bind P (f x) (fun _ => for_each xs f)); auto.
Qed.

Lemma tracks_weaken {A} P Q (m : M B A) :
  (forall ev, P ev -> Q ev) -> tracks F P m -> tracks F Q m.
Proof.
  intros HPQ Hm w w' r H. apply Hm in H as (Hf & ext & Ht & Hs & Hc).
  split; [done|]. exists ext. repeat split; try done.
  eapply Forall_impl; [exact Hs|]. intros e [? ?]. auto.
Qed.

End Tracking.

(** Solves [tracks] goals by following the structure of the computation. *)
Ltac track_side :=
  lazymatch goal with
  | |- FrameRel _ => typeclasses eauto
  | |- forall _, tracks _ _ _ => intros ?
  | |- tracks _ _ _ => idtac
  | |- forall _ : App, _ => solve [intros ?; repeat constructor]
  | |- _ => solve [simpl; tauto | auto]
  end.

Ltac track :=
  repeat first
    [ apply tracks_bind; track_side
    | solve [apply tracks_ret; track_side]
    | solve [apply tracks_raise; track_side]
    | solve [apply tracks_get_app; track_side]
    | solve [apply tracks_mark; track_side]
    | solve [apply tracks_call; track_side]
    | solve [apply tracks_modify_app; track_side]
    | apply tracks_for_each; track_side
    | match goal with
      | |- tracks _ _ (match ?x with _ => _ end) => destruct x
      end
    | assumption ].

(** ** The methods and the frame *)

Definition creation_event (ev : Event) : Prop :=
  match ev with
  | EvCreating _ _ | EvLoad _ _ | EvAppIncludeObject _ _ _ _ => True
  | _ => False
  end.

Section MethodFacts.
Context {B : Type} (env : Env B).

Lemma tracks_self_client_stub P : tracks (B:=B) frame_objects P self_client_stub.
Proof. unfold self_client_stub. track. Qed.

Lemma tracks_include P n l ns :
  (forall id, P (EvAppIncludeObject id n l ns)) ->
  tracks frame_objects P (_include env n l ns).
Proof. intros HP. unfold _include. track; try apply tracks_self_client_stub. Qed.

Lemma tracks_create_object obj existing :
  tracks frame_objects creation_event (_create_object env obj existing).
Proof.
  unfold _create_object. track.
Qed.

Lemma tracks_create_tagged tag : tracks frame creation_event (create_tagged env tag).
Proof. unfold create_tagged. track. Qed.

Lemma tracks_create_all_objects : tracks frame creation_event (_create_all_objects env).
Proof. unfold _create_all_objects. track. Qed.

End MethodFacts.

(** ** Reference resolution and object creation *)

Ltac run_create_object :=
  unfold _create_object, mbind, M_bind, bind, mret, M_ret, ret, raise,
    get_app, modify_app, call; simpl.

Section Resolution.
Context {B : Type} (env : Env B).

(** The description of what was not found, as the specification words it: the
    app name, the label when present, the namespace when it is not the
    account namespace. *)
Definition not_found_repr (name : string) (object_label : option string)
    (ns : DeploymentNamespace) : string :=
  name
  +:+ match object_label with Some l => "." +:+ l | None => "" end
  +:+ match ns with
      | DEPLOYMENT_NAMESPACE_ACCOUNT => ""
      | _ => " (namespace " +:+ DeploymentNamespace_Name ns +:+ ")"
      end.

(** The backend answered the include request of world [w] with no identity. *)
Definition include_finds_nothing (w : World B) (name : string)
    (object_label : option string) (ns : DeploymentNamespace) (b : B) : Prop :=
  AppIncludeObject (backend env) (_app_id (w_app w)) name object_label ns (w_remote w)
    = (b, Ok "").

Lemma include_not_found w name object_label ns c b :
  client (w_app w) = Some c ->
  include_finds_nothing w name object_label ns b ->
  _include env name object_label ns w
    = (record (EvAppIncludeObject (_app_id (w_app w)) name object_label ns) true w b,
       Raise (NotFoundError
                ("Could not find object " +:+ not_found_repr name object_label ns)
                (not_found_repr name object_label ns))).
Proof.
  intros Hc Hresp. unfold include_finds_nothing in Hresp.
  unfold _include, self_client_stub, mbind, M_bind, bind, get_app, call. simpl.
  rewrite Hc. simpl. rewrite Hresp. simpl. unfold raise. do 2 f_equal.
  assert (forall a, a +:+ "" = a) as Hnil by apply append_nil_r.
  unfold not_found_repr.
  destruct object_label as [l|], ns; simpl;
    rewrite ?Hnil, ?append_assoc_str; reflexivity.
Qed.

(** C5: resolving a reference that has neither an app name nor a label (or
    an object with no label at all) raises [InvalidError] without any
    request; resolving a reference to another app, when the include request
    is answered with no identity, raises [NotFoundError] with the message
    "Could not find object" followed by the app name, the label when present
    and the namespace when it is not the account namespace. *)
Theorem lookup_invalid_or_not_found (obj : Object) (w : World B) :
  ((label obj = None \/
    exists l, label obj = Some l /\
      opt_truthy (app_name l) = false /\ opt_truthy (object_label l) = false) ->
   exists msg, lookup env obj w = (w, Raise (InvalidError msg)))
  /\
  (forall l an c b,
     label obj = Some l -> app_name l = Some an ->
     str_truthy an || opt_truthy (object_label l) = true ->
     client (w_app w) = Some c ->
     include_finds_nothing w an (object_label l) (namespace l) b ->
     exists w',
       lookup env obj w
         = (w', Raise (NotFoundError
                  ("Could not find object "
                     +:+ not_found_repr an (object_label l) (namespace l))
                  (not_found_repr an (object_label l) (namespace l)))) /\
       _include env an (object_label l) (namespace l) w = (w', snd (lookup env obj w))).
Proof.
  split.
  - intros [Hnone|(l & Hl & Han & Hol)]; unfold lookup.
    + rewrite Hnone. eexists. reflexivity.
    + rewrite Hl, Han, Hol. simpl. eexists. reflexivity.
  - intros l an c b Hl Han Htruthy Hc Hresp.
    pose proof (include_not_found w an _ _ c b Hc Hresp) as Hinc.
    eexists. unfold lookup. rewrite Hl, Han.
    change (opt_truthy (Some an)) with (str_truthy an).
    destruct (negb (str_truthy an) && negb (opt_truthy (object_label l))) eqn:Hneg.
    { apply andb_prop in Hneg as [H1 H2]. apply negb_true_iff in H1, H2.
      rewrite H1, H2 in Htruthy. discriminate. }
    cbv iota. erewrite bind_Raise by exact Hinc. simpl. split; [reflexivity|exact Hinc].
Qed.

(** The progress tree can take the step of the object: [_create_object]
    adds a node to [self._progress] when the object has a creating message. *)
Definition progress_ready (w : World B) (obj : Object) : Prop :=
  creating_message obj = None \/ is_Some (_progress (w_app w)).

(** ... and the object has a created message for the node when it has a
    creating message. *)
Definition reporting_ready (w : World B) (obj : Object) : Prop :=
  creating_message obj = None \/
  (is_Some (_progress (w_app w)) /\ is_Some (created_message obj)).

(** C4: for an object that is not a reference, created with an existing
    identity: when [load] returns another identity, [_create_object] raises
    an [Exception] unless the existing identity starts with "im-", in which
    case it returns the new identity; and when [load] returns [None],
    [_create_object] raises, whatever the class of the object and the
    existing identity. *)
Theorem create_object_identity_check (obj : Object) (w : World B) :
  label obj = None ->
  (forall existing b r,
     load (backend env) obj (Some existing) (w_remote w) = (b, Ok r) ->
     r <> Some existing -> String.prefix "im-" existing = false ->
     progress_ready w obj ->
     exists w',
       _create_object env obj (Some existing) w
         = (w', Raise (Exception ("Tried creating an object using existing id "
                         +:+ existing +:+ " but it has id " +:+ format_opt r))))
  /\
  (forall existing b id,
     load (backend env) obj (Some existing) (w_remote w) = (b, Ok (Some id)) ->
     id <> existing -> String.prefix "im-" existing = true ->
     reporting_ready w obj ->
     exists w', _create_object env obj (Some existing) w = (w', Ok id))
  /\
  (forall existing b,
     load (backend env) obj existing (w_remote w) = (b, Ok None) ->
     forall w' r, _create_object env obj existing w = (w', r) ->
     exists e, r = Raise e /\ (progress_ready w obj -> exists msg, e = Exception msg)).
Proof.
  intros Hlabel. split; [|split].
  - intros existing b r Hload Hne Hprefix Hready.
    run_create_object. rewrite Hlabel.
    destruct Hready as [Hcm|[t Ht]].
    + rewrite Hcm. simpl. rewrite Hload. simpl.
      destruct (decide (r <> Some existing)); [|tauto].
      rewrite Hprefix. simpl. eauto.
    + destruct (creating_message obj) as [m|]; simpl.
      * rewrite Ht. simpl. rewrite Hload. simpl.
        destruct (decide (r <> Some existing)); [|tauto].
        rewrite Hprefix. simpl. eauto.
      * rewrite Hload. simpl.
        destruct (decide (r <> Some existing)); [|tauto].
        rewrite Hprefix. simpl. eauto.
  - intros existing b id Hload Hne Hprefix Hready.
    assert (Some id <> Some existing) as Hne' by congruence.
    run_create_object. rewrite Hlabel.
    destruct Hready as [Hcm|[[t Ht] [cm Hcm]]].
    + rewrite Hcm. simpl. rewrite Hload. simpl.
      destruct (decide (Some id <> Some existing)); [|tauto].
      rewrite Hprefix. simpl. eauto.
    + destruct (creating_message obj) as [m|]; simpl.
      * rewrite Ht. simpl. rewrite Hload. simpl.
        destruct (decide (Some id <> Some existing)); [|tauto].
        rewrite Hprefix. simpl. rewrite Hcm. simpl. eauto.
      * rewrite Hload. simpl.
        destruct (decide (Some id <> Some existing)); [|tauto].
        rewrite Hprefix. simpl. eauto.
  - intros existing b Hload w' r. run_create_object. rewrite Hlabel.
    destruct (creating_message obj) as [m|] eqn:Hm; simpl.
    + destruct (_progress (w_app w)) as [t|] eqn:Ht; simpl.
      * rewrite Hload. simpl. destruct existing as [existing|]; simpl.
        -- destruct (decide (None <> Some existing)) as [_|n]; [|exfalso; apply n; discriminate].
           destruct (String.prefix "im-" existing); simpl;
             intros H; injection H as <- <-; eauto.
        -- intros H; injection H as <- <-; eauto.
      * intros H; injection H as <- <-. eexists. split; [reflexivity|].
        intros [Hc|[t' Ht']]; congruence.
    + rewrite Hload. simpl. destruct existing as [existing|]; simpl.
      * destruct (decide (None <> Some existing)) as [_|n]; [|exfalso; apply n; discriminate].
        destruct (String.prefix "im-" existing); simpl;
          intros H; injection H as <- <-; eauto.
      * intros H; injection H as <- <-; eauto.
Qed.

End Resolution.

(** ** The anatomy of a run *)

Section Run.
Context {B : Type} (env : Env B).

(** The world after the first two assignments of [_run]. *)
Definition started (cl : Client) (w : World B) : World B :=
  {| w_app := set_client (Some cl) (set_state STARTING (w_app w));
     w_remote := w_remote w; w_trace := w_trace w |}.

(** The world after the outer [finally] block. *)
Definition cleaned (w : World B) : World B :=
  {| w_app := cleanup (w_app w); w_remote := w_remote w; w_trace := w_trace w |}.

Definition with_app (f : App -> App) (w : World B) : World B :=
  {| w_app := f (w_app w); w_remote := w_remote w; w_trace := w_trace w |}.

(** The entry of the log task. *)
Definition logged (cursor : option string) (w : World B) : World B :=
  record (EvGetLogsLoop (_app_id (w_app w)) (default "" cursor)) true w (w_remote w).

(** The identity the app acquires when [_run] is entered in world [w]. *)
Definition acquired (cl : Client) (existing_app_id : option string) (w : World B)
  : option string :=
  _app_id (w_app (fst (acquire_app env cl existing_app_id (started cl w)))).

Lemma run_anatomy cl ex cur body w w' r :
  state (w_app w) = NONE ->
  _run env cl ex cur body w = (w', r) ->
  exists w1 r1, acquire_app env cl ex (started cl w) = (w1, r1) /\
    match r1 with
    | Raise e => w' = cleaned w1 /\ r = Raise e
    | Ok _ =>
        exists w3 r3 w4 r4,
          create_publish_yield env body (logged cur w1) = (w3, r3) /\
          disconnect env w3 = (w4, r4) /\
          w' = cleaned w4 /\
          r = match r4 with Ok _ => r3 | Raise e => Raise e end
    end.
Proof.
  intros Hst H. unfold _run in H.
  unfold mbind at 1, M_bind at 1, bind at 1, get_app at 1 in H.
  destruct (decide (state (w_app w) <> NONE)) as [Hne|_]; [congruence|].
  unfold mbind at 1, M_bind at 1, bind at 1, modify_app at 1 in H.
  unfold mbind at 1, M_bind at 1, bind at 1, modify_app at 1 in H.
  apply try_finally_inv in H as (wa & ra & rf & Hbody & Hfin & ->).
  change (with_app (set_client (Some cl))
            (with_app (set_state STARTING) w)) with (started cl w) in Hbody.
  injection Hfin as <- <-.
  apply bind_inv in Hbody as [(w1 & [] & Hacq & Hrest)|(e & Hacq & ->)].
  - exists w1, (Ok tt). split; [exact Hacq|].
    unfold mbind at 1, M_bind at 1, bind at 1, get_app at 1 in Hrest.
    unfold mbind at 1, M_bind at 1, bind at 1, mark at 1 in Hrest.
    apply try_finally_inv in Hrest as (w3 & r3 & r4 & Hcpy & Hdisc & ->).
    exists w3, r3, wa, r4. auto.
  - exists wa, (Raise e). auto.
Qed.

(** *** Acquiring the identity *)

Definition acquisition_event (ev : Event) : Prop :=
  match ev with
  | EvAppGetObjects _ | EvAppCreate _ _ => True
  | _ => False
  end.

Lemma acquire_app_spec cl ex w w1 r1 :
  is_Some (client (w_app w)) ->
  acquire_app env cl ex w = (w1, r1) ->
  state (w_app w1) = state (w_app w) /\
  client (w_app w1) = client (w_app w) /\
  _name (w_app w1) = _name (w_app w) /\
  deployment_name (w_app w1) = deployment_name (w_app w) /\
  _blueprint (w_app w1) = _blueprint (w_app w) /\
  _tag_to_object (w_app w1) = _tag_to_object (w_app w) /\
  (exists ext, w_trace w1 = w_trace w ++ ext /\
     stamped (state (w_app w)) acquisition_event ext /\
     (is_Ok r1 = true -> completed ext)) /\
  (is_Ok r1 = true ->
     is_Some (_app_id (w_app w1)) /\
     (forall x, ex = Some x -> _app_id (w_app w1) = Some x) /\
     (ex = None -> _tag_to_existing_id (w_app w1) = ∅)).
Proof.
  intros [c Hc] H. unfold acquire_app in H.
  assert (Hnil : forall A (l : list A), l = l ++ []) by (intros; now rewrite app_nil_r).
  destruct ex as [x|].
  - exec_in H. rewrite Hc in H. simpl in H.
    destruct (AppGetObjects (backend env) x (w_remote w)) as [b [ids|e]];
      simpl in H; injection H as <- <-; simpl; repeat split;
      solve [ done | eauto | congruence | discriminate
            | eexists; split; [reflexivity|]; split; repeat constructor; discriminate ].
  - unfold name, _infer_app_name in H. exec_in H.
    destruct (opt_truthy (_name (w_app w))); [|destruct (sys_argv env) as [|script rest]];
      simpl in H.
    2: { injection H as <- <-. repeat split; try done; try discriminate.
         exists []. split; [apply Hnil|]. split; [constructor|discriminate]. }
    all: destruct (AppCreate (backend env) (client_id cl) _ (w_remote w)) as [b [id|e]];
      simpl in H; injection H as <- <-; simpl; repeat split;
      solve [ done | eauto | congruence | discriminate
            | eexists; split; [reflexivity|]; split; repeat constructor; discriminate ].
Qed.

(** *** The creation loop *)

(** The tags of the [EvCreating] marks of a piece of trace, in order. *)
Definition created_tags (ext : list Entry) : list string :=
  omap (fun e => match en_event e with EvCreating t _ => Some t | _ => None end) ext.

Definition object_call (ev : Event) : Prop :=
  match ev with
  | EvLoad _ _ | EvAppIncludeObject _ _ _ _ => True
  | _ => False
  end.

Lemma created_tags_app ext1 ext2 :
  created_tags (ext1 ++ ext2) = created_tags ext1 ++ created_tags ext2.
Proof. unfold created_tags. apply omap_app. Qed.

Lemma created_tags_none st P ext :
  (forall t x, ~ P (EvCreating t x)) -> stamped st P ext -> created_tags ext = [].
Proof.
  intros HP. induction 1 as [|e ext [_ He] _ IH]; [done|].
  change (created_tags (e :: ext))
    with (match (match en_event e with EvCreating t _ => Some t | _ => None end) with
          | Some y => y :: created_tags ext
          | None => created_tags ext
          end).
  rewrite IH. destruct (en_event e); try reflexivity. now apply HP in He.
Qed.

Lemma tracks_object_calls obj existing :
  tracks frame_objects object_call (_create_object env obj existing).
Proof. unfold _create_object. track. Qed.

Lemma create_tagged_spec tag w w' r :
  create_tagged env tag w = (w', r) ->
  exists ext, w_trace w' = w_trace w ++ ext /\
    (created_tags ext = [] \/ created_tags ext = [tag]) /\
    (is_Ok r = true ->
       created_tags ext = [tag] /\
       exists id, _tag_to_object (w_app w')
                  = <[tag := from_id id]> (_tag_to_object (w_app w))).
Proof.
  unfold create_tagged. intros H.
  unfold mbind at 1, M_bind at 1, bind at 1, get_app at 1 in H.
  destruct (get_object (_blueprint (w_app w)) tag) as [obj|].
  2: { exec_in H. injection H as <- <-. exists []. rewrite app_nil_r.
       split; [done|]. split; [now left|discriminate]. }
  unfold mbind at 1, M_bind at 1, bind at 1, mret, M_ret, ret in H.
  unfold mbind at 1, M_bind at 1, bind at 1, mark at 1 in H.
  set (w0 := record _ true w (w_remote w)) in H.
  apply bind_inv in H as [(w1 & id & Hcreate & Hset)|(e & Hcreate & ->)];
    apply tracks_object_calls in Hcreate as ([Hf Hobj] & ext & Ht & Hs & _).
  - injection Hset as <- <-. simpl. eexists. rewrite Ht. subst w0. simpl.
    rewrite <- app_assoc. split; [reflexivity|].
    assert (created_tags ext = []) as Hnone.
    { eapply created_tags_none; [|exact Hs]. intros ? ? []. }
    rewrite created_tags_app, Hnone. split; [now right|]. intros _. split; [done|].
    exists id. now rewrite Hobj.
  - eexists. rewrite Ht. subst w0. simpl. rewrite <- app_assoc. split; [reflexivity|].
    assert (created_tags ext = []) as Hnone.
    { eapply created_tags_none; [|exact Hs]. intros ? ? []. }
    rewrite created_tags_app, Hnone. split; [now right|discriminate].
Qed.

Lemma create_loop_spec tags : forall w w' r,
  for_each tags (create_tagged env) w = (w', r) ->
  exists ext, w_trace w' = w_trace w ++ ext /\
    created_tags ext `prefix_of` tags /\
    (is_Ok r = true ->
       created_tags ext = tags /\
       forall tag,
         tag ∈ tags \/ is_Some (_tag_to_object (w_app w) !! tag) ->
         is_Some (_tag_to_object (w_app w') !! tag)).
Proof.
  induction tags as [|t ts IH]; intros w w' r H.
  - injection H as <- <-. exists []. rewrite app_nil_r. split; [done|].
    split; [done|]. intros _. split; [done|].
    intros tag [Hin|Hsome]; [|done]. now apply elem_of_nil in Hin.
  - simpl in H.
    apply (bind_inv (create_tagged env t) (fun _ => for_each ts (create_tagged env)))
      in H as [(w1 & [] & H1 & H2)|(e & H1 & ->)].
    + apply create_tagged_spec in H1 as (ext1 & Ht1 & _ & Hok1).
      destruct (Hok1 eq_refl) as (Htags1 & id & Hobj).
      apply IH in H2 as (ext2 & Ht2 & Hpre2 & Hok2).
      exists (ext1 ++ ext2). rewrite Ht2, Ht1, app_assoc. split; [done|].
      rewrite created_tags_app, Htags1. split.
      * now apply prefix_cons.
      * intros Hok. destruct (Hok2 Hok) as [-> Hsome]. split; [done|].
        intros tag Htag. apply Hsome. rewrite Hobj.
        destruct (decide (t = tag)) as [->|Hne].
        -- right. rewrite lookup_insert_eq. eauto.
        -- rewrite lookup_insert_ne by done.
           destruct Htag as [Hin|Hin]; [|now right].
           apply elem_of_cons in Hin as [->|Hin]; [congruence|now left].
    + apply create_tagged_spec in H1 as (ext1 & Ht1 & Hcases & _).
      exists ext1. split; [done|]. split; [|discriminate].
      destruct Hcases as [->| ->]; [apply prefix_nil|].
      apply (prefix_cons t [] ts), prefix_nil.
Qed.

(** *** Creating, publishing, yielding *)

Record kept (a a' : App) : Prop := {
  kept_client : client a' = client a;
  kept_app_id : _app_id a' = _app_id a;
  kept_name : _name a' = _name a;
  kept_deployment_name : deployment_name a' = deployment_name a;
  kept_blueprint : _blueprint a' = _blueprint a;
  kept_existing : _tag_to_existing_id a' = _tag_to_existing_id a
}.

Lemma frame_kept a a' : frame a a' -> kept a a'.
Proof. intros []. now constructor. Qed.

Lemma kept_trans a b c : kept a b -> kept b c -> kept a c.
Proof. intros [] []. constructor; congruence. Qed.

Definition publish_entry (aid : option string) (ids : gmap string string) (ok : bool)
  : Entry :=
  {| en_state := STARTING; en_event := EvAppSetObjects aid ids; en_ok := ok |}.

Definition yield_entry : Entry :=
  {| en_state := RUNNING; en_event := EvYield; en_ok := true |}.

(** The creation phase went through: every call completed, every tag of the
    Blueprint was visited in the order of [creation_order], and [ids] has an
    identity for each. *)
Record created (bp : Blueprint) (cext : list Entry) (ids : gmap string string)
  : Prop := {
  cr_completed : completed cext;
  cr_tags : created_tags cext = creation_order bp;
  cr_ids : forall tag, tag ∈ creation_order bp -> is_Some (ids !! tag)
}.

(** What follows the entries [cext] of the creation phase, the state in
    which the inner [try] block ends, and whether it returned. *)
Inductive run_tail (aid : option string) (bp : Blueprint) (cext : list Entry)
  : list Entry -> AppState -> bool -> Prop :=
| rt_creation_failed :
    created_tags cext `prefix_of` creation_order bp ->
    run_tail aid bp cext [] STARTING false
| rt_publish_failed ids :
    created bp cext ids ->
    run_tail aid bp cext [publish_entry aid ids false] STARTING false
| rt_body_raised ids bext :
    created bp cext ids -> stamped RUNNING (fun _ => True) bext ->
    run_tail aid bp cext (publish_entry aid ids true :: yield_entry :: bext) RUNNING false
| rt_body_returned ids bext :
    created bp cext ids -> stamped RUNNING (fun _ => True) bext ->
    run_tail aid bp cext (publish_entry aid ids true :: yield_entry :: bext) STOPPING true.

Lemma create_publish_yield_spec body w2 w3 r3 :
  workload body ->
  state (w_app w2) = STARTING ->
  is_Some (client (w_app w2)) ->
  create_publish_yield env body w2 = (w3, r3) ->
  kept (w_app w2) (w_app w3) /\
  exists cext tail,
    w_trace w3 = w_trace w2 ++ cext ++ tail /\
    stamped STARTING creation_event cext /\
    run_tail (_app_id (w_app w2)) (_blueprint (w_app w2)) cext tail
      (state (w_app w3)) (is_Ok r3).
Proof.
  intros Hbody Hst [c Hc] H. unfold create_publish_yield in H.
  rewrite bind_modify_app in H.
  set (wp := {| w_app := set__progress _ (w_app w2) |}) in H.
  assert (kept (w_app w2) (w_app wp)) as Hk0 by now constructor.
  assert (exists wc rc, _create_all_objects env wp = (wc, rc)) as (wc & rc & Hcreate)
    by (destruct (_create_all_objects env wp); eauto).
  pose proof (tracks_create_all_objects env _ _ _ Hcreate) as (Hf & cext & Htc & Hsc & Hcc).
  assert (stamped STARTING creation_event cext) as Hsc'
    by (simpl in Hsc; now rewrite Hst in Hsc).
  assert (state (w_app wc) = STARTING) as Hstc
    by (rewrite (fr_state _ _ Hf); exact Hst).
  assert (kept (w_app w2) (w_app wc)) as Hk
    by (eapply kept_trans; [exact Hk0 | apply frame_kept, Hf]).
  assert (w_trace wc = w_trace w2 ++ cext) as Htc2 by exact Htc.
  pose proof Hcreate as Hloop.
  unfold _create_all_objects in Hloop. rewrite bind_get_app in Hloop.
  apply create_loop_spec in Hloop as (cext' & Htc' & Hpre & Hok).
  rewrite Htc in Htc'. apply app_inv_head in Htc' as <-.
  change (_blueprint (w_app wp)) with (_blueprint (w_app w2)) in Hpre, Hok.
  destruct rc as [[]|e].
  2: { rewrite (bind_Raise _ _ _ _ _ Hcreate) in H. injection H as <- <-.
       split; [exact Hk|]. exists cext, []. rewrite app_nil_r, Hstc.
       repeat split; try done. now apply rt_creation_failed. }
  rewrite (bind_Ok _ _ _ _ _ Hcreate) in H.
  destruct (Hok eq_refl) as [Htags Hsome].
  rewrite bind_modify_app, bind_get_app in H.
  rewrite (bind_self_client_stub _ _ c) in H
    by (simpl; rewrite (fr_client _ _ Hf); exact Hc).
  rewrite bind_call in H.
  cbn [_tag_to_object _app_id set__progress w_app w_remote] in H.
  set (ids := object_id <$> _tag_to_object (w_app wc)) in *.
  assert (created (_blueprint (w_app w2)) cext ids) as Hcreated.
  { split; [now apply Hcc|exact Htags|].
    intros tag Hin. unfold ids. rewrite lookup_fmap.
    destruct (Hsome tag (or_introl Hin)) as [o ->]. simpl. eauto. }
  rewrite (kept_app_id _ _ Hk) in H.
  destruct (AppSetObjects (backend env) (_app_id (w_app w2)) ids (w_remote wc))
    as [b [[]|e]]; cbv beta iota in H.
  - rewrite bind_modify_app, bind_mark in H.
    assert (exists wb rb, body (record EvYield true
              {| w_app := set_state RUNNING
                   (w_app (record (EvAppSetObjects (_app_id (w_app w2)) ids) true
                      {| w_app := set__progress
                           (tree_set_label (step_completed "Created objects." false)
                              <$> _progress (w_app wc)) (w_app wc);
                         w_remote := w_remote wc; w_trace := w_trace wc |} b));
                 w_remote := b;
                 w_trace := w_trace wc ++ [publish_entry (_app_id (w_app w2)) ids true] |}
              b) = (wb, rb)) as (wb & rb & Hb)
      by (match goal with |- exists _ _, ?t = _ => destruct t; eauto end).
    pose proof (Hbody _ _ _ Hb) as (Hfb & bext & Htb & Hsb).
    cbn in Hfb, Htb, Hsb.
    assert (kept (w_app w2) (w_app wb)) as Hkb.
    { eapply kept_trans; [exact Hk|]. destruct Hfb. constructor; simpl in *; congruence. }
    assert (w_trace wb
            = w_trace w2 ++ cext
              ++ publish_entry (_app_id (w_app w2)) ids true :: yield_entry :: bext) as Htr.
    { rewrite Htb, Htc2. rewrite <- !app_assoc. reflexivity. }
    cbn in H. unfold publish_entry in Hb. rewrite Hstc in H.
    destruct rb as [[]|e].
    + rewrite (bind_Ok _ _ _ _ _ Hb) in H. injection H as <- <-.
      split; [destruct Hkb; now constructor|].
      exists cext, (publish_entry (_app_id (w_app w2)) ids true :: yield_entry :: bext).
      split; [exact Htr|]. split; [exact Hsc'|]. now apply rt_body_returned.
    + rewrite (bind_Raise _ _ _ _ _ Hb) in H. injection H as <- <-.
      split; [exact Hkb|].
      exists cext, (publish_entry (_app_id (w_app w2)) ids true :: yield_entry :: bext).
      split; [exact Htr|]. split; [exact Hsc'|].
      rewrite (fr_state _ _ Hfb). now apply rt_body_raised.
  - injection H as <- <-. split; [destruct Hk; now constructor|].
    exists cext, [publish_entry (_app_id (w_app w2)) ids false].
    cbn. rewrite Htc2, Hstc, <- app_assoc.
    repeat split; try done. now apply rt_publish_failed.
Qed.

(** *** The whole run *)

Definition log_entry (aid : option string) (cursor : option string) : Entry :=
  {| en_state := STARTING; en_event := EvGetLogsLoop aid (default "" cursor); en_ok := true |}.

Definition disconnect_entry (st : AppState) (aid : option string) (ok : bool) : Entry :=
  {| en_state := st; en_event := EvAppClientDisconnect aid; en_ok := ok |}.

Lemma disconnect_spec w3 w4 r4 :
  is_Some (client (w_app w3)) ->
  disconnect env w3 = (w4, r4) ->
  w_app w4 = w_app w3 /\
  w_trace w4
  = w_trace w3 ++ [disconnect_entry (state (w_app w3)) (_app_id (w_app w3)) (is_Ok r4)].
Proof.
  intros [c Hc] H. unfold disconnect in H.
  rewrite bind_get_app, (bind_self_client_stub _ _ c Hc) in H. unfold call in H.
  destruct (AppClientDisconnect (backend env) (_app_id (w_app w3)) (w_remote w3)) as [b r0].
  injection H as <- <-. split; reflexivity.
Qed.

(** The identity attribute and the other attributes at the end of a run,
    and the entries the run added to the trace. *)
Lemma run_summary cl ex cur body w w' r :
  state (w_app w) = NONE ->
  workload body ->
  _run env cl ex cur body w = (w', r) ->
  exists w1 r1 acq,
    acquire_app env cl ex (started cl w) = (w1, r1) /\
    w_trace w1 = w_trace w ++ acq /\
    stamped STARTING acquisition_event acq /\
    (exists a, w_app w' = cleanup a /\ kept (w_app w1) a) /\
    _name (w_app w1) = _name (w_app w) /\
    deployment_name (w_app w1) = deployment_name (w_app w) /\
    _blueprint (w_app w1) = _blueprint (w_app w) /\
    match r1 with
    | Raise e => r = Raise e /\ w_trace w' = w_trace w1
    | Ok _ =>
        completed acq /\
        is_Some (_app_id (w_app w1)) /\
        exists cext tail st ok returned,
          w_trace w'
          = w_trace w1 ++ log_entry (_app_id (w_app w1)) cur
              :: cext ++ tail ++ [disconnect_entry st (_app_id (w_app w1)) ok] /\
          stamped STARTING creation_event cext /\
          run_tail (_app_id (w_app w1)) (_blueprint (w_app w)) cext tail st returned /\
          is_Ok r = returned && ok
    end.
Proof.
  intros Hst Hbody H.
  apply run_anatomy in H as (w1 & r1 & Hacq & H); [|exact Hst].
  assert (Hsome : is_Some (client (w_app (started cl w)))) by (simpl; eauto).
  pose proof (acquire_app_spec cl ex _ _ _ Hsome Hacq)
    as (Hs1 & Hc1 & Hn1 & Hd1 & Hb1 & _ & (acq & Hta & Hsa & Hca) & Hid).
  simpl in Hs1, Hc1, Hn1, Hd1, Hb1, Hta, Hsa.
  exists w1, r1, acq. split; [exact Hacq|]. split; [exact Hta|]. split; [exact Hsa|].
  destruct r1 as [[]|e].
  - destruct H as (w3 & r3 & w4 & r4 & Hcpy & Hdisc & -> & ->).
    apply create_publish_yield_spec in Hcpy as (Hk & cext & tail & Ht3 & Hsc & Htail);
      [|exact Hbody|exact Hs1|simpl; rewrite Hc1; eauto].
    apply disconnect_spec in Hdisc as [Ha4 Ht4];
      [|rewrite (kept_client _ _ Hk); simpl; rewrite Hc1; eauto].
    simpl in Hk, Ht3, Htail.
    split; [exists (w_app w3); simpl; rewrite Ha4; split; [reflexivity|exact Hk]|].
    split; [exact Hn1|]. split; [exact Hd1|]. split; [exact Hb1|].
    split; [now apply Hca|]. split; [now apply Hid|].
    exists cext, tail, (state (w_app w3)), (is_Ok r4), (is_Ok r3).
    split.
    { simpl. rewrite Ht4, Ht3, (kept_app_id _ _ Hk). simpl.
      unfold log_entry. rewrite Hs1, <- !app_assoc. reflexivity. }
    split; [exact Hsc|]. rewrite Hb1 in Htail. split; [exact Htail|].
    destruct r3, r4; reflexivity.
  - destruct H as [-> ->].
    split; [exists (w_app w1); split; [reflexivity|now constructor]|].
    repeat split; assumption.
Qed.

End Run.

(** ** Lists of entries *)

Lemma split_at_unique {A} (Q : A -> Prop) X p0 Y pre p post :
  X ++ p0 :: Y = pre ++ p :: post ->
  Forall (fun x => ~ Q x) X -> Forall (fun x => ~ Q x) Y -> Q p ->
  pre = X /\ p = p0 /\ post = Y.
Proof.
  revert pre. induction X as [|x X IH]; intros pre Heq HX HY Hp.
  - destruct pre as [|a pre]; simpl in Heq; injection Heq as -> ->; [done|].
    exfalso. rewrite Forall_forall in HY. apply (HY p); [|exact Hp].
    apply elem_of_app. right. left.
  - apply Forall_cons in HX as [Hx HX].
    destruct pre as [|a pre]; simpl in Heq; injection Heq as -> Heq; [tauto|].
    destruct (IH pre Heq HX HY Hp) as (-> & -> & ->). done.
Qed.

Lemma split_after {A} (R : A -> Prop) X p0 Y pre q post :
  X ++ p0 :: Y = pre ++ q :: post ->
  Forall (fun x => ~ R x) X -> ~ R p0 -> R q ->
  exists pre2, pre = X ++ p0 :: pre2.
Proof.
  revert pre. induction X as [|x X IH]; intros pre Heq HX Hp0 Hq.
  - destruct pre as [|a pre]; simpl in Heq; injection Heq as -> Heq; [tauto|].
    now exists pre.
  - apply Forall_cons in HX as [Hx HX].
    destruct pre as [|a pre]; simpl in Heq; injection Heq as -> Heq; [tauto|].
    destruct (IH pre Heq HX Hp0 Hq) as [pre2 ->]. now exists pre2.
Qed.

Lemma split_none {A} (Q : A -> Prop) l pre p post :
  l = pre ++ p :: post -> Forall (fun x => ~ Q x) l -> Q p -> False.
Proof.
  intros -> Hl Hp. rewrite Forall_forall in Hl. apply (Hl p); [|exact Hp].
  apply elem_of_app. right. left.
Qed.

Lemma split_before_last {A} (l : list A) d pre y post :
  l ++ [d] = pre ++ y :: post -> y <> d -> exists mid, post = mid ++ [d].
Proof.
  intros Heq Hne. destruct post as [|z post _] using rev_ind.
  - apply app_inj_tail in Heq as [_ ->]. congruence.
  - exists post. change (pre ++ y :: post ++ [z]) with (pre ++ (y :: post) ++ [z]) in Heq.
    rewrite app_assoc in Heq. apply app_inj_tail in Heq as [_ ->]. reflexivity.
Qed.

(** ** The anatomy of a deployment *)

Section Deploy.
Context {B : Type} (env : Env B).

(** The body of the [async with self._run(...)] statement of [deploy]. *)
Definition deploy_body (n : string) (ns : DeploymentNamespace) : M B unit :=
  a ← get_app;
  call (EvAppDeploy (_app_id a) n ns) (AppDeploy (backend env) (_app_id a) n ns).

Lemma workload_deploy_body n ns : workload (deploy_body n ns).
Proof.
  intros w w' r H. unfold deploy_body in H. rewrite bind_get_app in H. unfold call in H.
  destruct (AppDeploy (backend env) (_app_id (w_app w)) n ns (w_remote w)) as [b r0].
  injection H as <- <-. split; [now constructor|].
  eexists. split; [reflexivity|]. repeat constructor.
Qed.

(** The world after [self.deployment_name = name]. *)
Definition named (n : string) (w : World B) : World B :=
  with_app (set_deployment_name (Some n)) w.

Definition lookup_event (n : string) (ns : DeploymentNamespace) (c : option Client) : Event :=
  EvAppGetByDeploymentName n ns (client_id (_get_client env c)).

Definition existing_of (aid : string) : option string :=
  if str_truthy aid then Some aid else None.

Lemma name_world (w : World B) : exists r, name env w = (w, r).
Proof.
  unfold name, _infer_app_name. rewrite bind_get_app.
  destruct (opt_truthy (_name (w_app w))); [eexists; reflexivity|].
  destruct (sys_argv env); eexists; reflexivity.
Qed.

Lemma deploy_anatomy nm ns c w w' r :
  state (w_app w) = NONE ->
  deploy env nm ns c w = (w', r) ->
  exists rn,
    match nm with Some x => rn = Ok x | None => name env w = (w, rn) end /\
    match rn with
    | Raise e => w' = w /\ r = Raise e
    | Ok n =>
        exists b rl,
          AppGetByDeploymentName (backend env) n ns (client_id (_get_client env c))
            (w_remote w) = (b, rl) /\
          match rl with
          | Raise e => w' = record (lookup_event n ns c) false (named n w) b /\ r = Raise e
          | Ok (aid, cursor) =>
              exists rr,
                _run env (_get_client env c) (existing_of aid) (Some cursor)
                  (deploy_body n ns) (record (lookup_event n ns c) true (named n w) b)
                = (w', rr) /\
                r = match rr with
                    | Ok _ => Ok (_app_id (w_app w'))
                    | Raise e => Raise e
                    end
          end
    end.
Proof.
  intros Hst H. unfold deploy in H. rewrite bind_get_app in H.
  destruct (decide (state (w_app w) <> NONE)) as [Hne|_]; [congruence|].
  assert (forall n, 
    (modify_app (set_deployment_name (Some n));;
     (let client := _get_client env c in
      '(app_id, last_log_entry_id) ←
        call (EvAppGetByDeploymentName n ns (client_id client))
          (AppGetByDeploymentName (backend env) n ns (client_id client));
      let existing_app_id := if str_truthy app_id then Some app_id else None in
      _run env client existing_app_id (Some last_log_entry_id)
        (a ← get_app;
         call (EvAppDeploy (_app_id a) n ns) (AppDeploy (backend env) (_app_id a) n ns));;
      a ← get_app; ret (_app_id a))) w = (w', r) ->
    exists b rl,
      AppGetByDeploymentName (backend env) n ns (client_id (_get_client env c))
        (w_remote w) = (b, rl) /\
      match rl with
      | Raise e => w' = record (lookup_event n ns c) false (named n w) b /\ r = Raise e
      | Ok (aid, cursor) =>
          exists rr,
            _run env (_get_client env c) (existing_of aid) (Some cursor)
              (deploy_body n ns) (record (lookup_event n ns c) true (named n w) b)
            = (w', rr) /\
            r = match rr with
                | Ok _ => Ok (_app_id (w_app w'))
                | Raise e => Raise e
                end
      end) as Hrest.
  { intros n Hn. rewrite bind_modify_app in Hn. cbv zeta in Hn. rewrite bind_call in Hn.
    simpl w_remote in Hn.
    destruct (AppGetByDeploymentName (backend env) n ns (client_id (_get_client env c))
                (w_remote w)) as [b [[aid cursor]|e]] eqn:Hl.
    - exists b, (Ok (aid, cursor)). split; [reflexivity|].
      apply bind_inv in Hn as [(w1 & [] & Hrun & Hret)|(e & Hrun & ->)].
      + exists (Ok tt). rewrite bind_get_app in Hret. injection Hret as <- <-.
        split; [exact Hrun|reflexivity].
      + exists (Raise e). split; [exact Hrun|reflexivity].
    - exists b, (Raise e). split; [reflexivity|]. injection Hn as <- <-. split; reflexivity. }
  destruct nm as [x|].
  - exists (Ok x). split; [reflexivity|]. now apply Hrest.
  - destruct (name_world w) as [rn Hname]. exists rn. split; [exact Hname|].
    destruct rn as [n|e].
    + apply Hrest. rewrite <- H. symmetry.
      apply bind_Ok with (w1 := w) (a := Some n). now apply bind_Ok with (w1 := w) (a := n).
    + cbv iota in H. apply bind_inv in H as [(w1 & a & Hm & _)|(e' & Hm & ->)].
      * apply bind_inv in Hm as [(w2 & a' & Hm & _)|(e' & _ & He)];
          [rewrite Hname in Hm|]; discriminate.
      * apply bind_inv in Hm as [(w2 & a' & Hm & _)|(e'' & Hm & He)];
          [rewrite Hname in Hm; discriminate|].
        rewrite Hname in Hm. injection Hm as <- <-. injection He as ->.
        split; reflexivity.
Qed.

End Deploy.

(** ** The cleanup of a run *)

Section RunClaims.
Context {B : Type} (env : Env B).

Ltac forall_parts :=
  repeat first [rewrite Forall_app | rewrite Forall_cons | rewrite Forall_nil].

Lemma stamped_not st P (Q : Entry -> Prop) ext :
  stamped st P ext ->
  (forall e, en_state e = st -> P (en_event e) -> ~ Q e) ->
  Forall (fun e => ~ Q e) ext.
Proof.
  intros Hs HQ. eapply Forall_impl; [exact Hs|]. intros e [H1 H2]. now apply HQ.
Qed.

Lemma stamped_state st P ext : stamped st P ext -> Forall (fun e => en_state e = st) ext.
Proof. intros Hs. eapply Forall_impl; [exact Hs|]. now intros e [H1 _]. Qed.

Lemma acquired_eq cl ex w w1 r1 :
  acquire_app env cl ex (started cl w) = (w1, r1) -> acquired env cl ex w = _app_id (w_app w1).
Proof. intros H. unfold acquired. now rewrite H. Qed.

Lemma run_entries_assoc (acq cext tail : list Entry) l d :
  acq ++ l :: cext ++ tail ++ [d] = (acq ++ l :: cext ++ tail) ++ [d].
Proof. rewrite <- app_assoc. simpl. now rewrite <- app_assoc. Qed.

(** C2: in a run entered with state NONE, whenever the workload of the
    caller was entered (the trace has the mark of the yield), the last call
    of the run is the Disconnect call for the acquired application identity,
    issued while the state is still RUNNING (the workload raised or was
    cancelled) or STOPPING (it returned); and when the run is over the
    client reference is None, the state is NONE, the progress tree is None
    and the map of live objects is empty, however the run ended. *)
Theorem run_disconnects_then_resets cl ex cur body w w' r :
  state (w_app w) = NONE ->
  workload body ->
  _run env cl ex cur body w = (w', r) ->
  (client (w_app w') = None /\ state (w_app w') = NONE /\
   _progress (w_app w') = None /\ _tag_to_object (w_app w') = ∅) /\
  forall pre y post,
    w_trace w' = w_trace w ++ pre ++ y :: post ->
    en_event y = EvYield ->
    is_Some (acquired env cl ex w) /\
    exists mid st ok,
      post = mid ++ [disconnect_entry st (acquired env cl ex w) ok] /\
      (st = RUNNING \/ st = STOPPING) /\
      (is_Ok r = true -> st = STOPPING /\ ok = true).
Proof.
  intros Hst Hbody H.
  destruct (run_summary env _ _ _ _ _ _ _ Hst Hbody H)
    as (w1 & r1 & acq & Hacq & Hta & Hsa & (a & Ha & Hk) & _ & _ & _ & Hr).
  split; [rewrite Ha; repeat split; reflexivity|].
  intros pre y post Heq Hy. rewrite (acquired_eq _ _ _ _ _ Hacq).
  set (Q := fun e : Entry => en_event e = EvYield).
  assert (Forall (fun e => ~ Q e) acq) as HQa.
  { eapply stamped_not; [exact Hsa|]. intros e _ He HQ. unfold Q in HQ.
    now rewrite HQ in He. }
  destruct r1 as [[]|e].
  - destruct Hr as (_ & Hid & cext & tail & st & ok & ret & Ht & Hsc & Htail & Hret).
    split; [exact Hid|].
    rewrite Hta, <- app_assoc in Ht. rewrite Ht in Heq. apply app_inv_head in Heq.
    assert (Forall (fun e => ~ Q e) cext) as HQc.
    { eapply stamped_not; [exact Hsc|]. intros e0 _ He HQ. unfold Q in HQ.
      now rewrite HQ in He. }
    rewrite run_entries_assoc in Heq.
    assert (st = RUNNING /\ ret = false \/ st = STOPPING /\ ret = true) as Hcase.
    { inversion Htail; subst; [exfalso..|now left|now right].
      all: eapply (split_none Q); [exact Heq| |exact Hy].
      all: forall_parts; repeat split;
        try assumption; unfold Q; simpl; discriminate. }
    apply split_before_last in Heq as [mid ->];
      [|intros ->; simpl in Hy; discriminate].
    exists mid, st, ok. split; [reflexivity|].
    split; [destruct Hcase as [[-> _]|[-> _]]; auto|].
    intros Hok. rewrite Hok in Hret. symmetry in Hret.
    apply andb_true_iff in Hret as [-> ->].
    destruct Hcase as [[_ ?]|[-> _]]; [discriminate|auto].
  - destruct Hr as [_ Ht]. rewrite Hta in Ht. rewrite Ht in Heq.
    apply app_inv_head in Heq. exfalso.
    eapply (split_none Q); [exact Heq|exact HQa|exact Hy].
Qed.

(** C8: in a run entered with state NONE, the call that publishes the map
    of objects (the AppSetObjects entry made in state STARTING) carries the
    acquired application identity and an identity for every tag of the
    Blueprint, every call before it completed, the creations before it are
    those of all the tags in creation order, and no creation of the
    starting phase follows it; and every entry made in state RUNNING comes
    after a completed publish call, all the entries before which were made
    in state STARTING. *)
Theorem publish_after_creations_before_running cl ex cur body w w' r :
  state (w_app w) = NONE ->
  workload body ->
  _run env cl ex cur body w = (w', r) ->
  (forall pre p post aid ids,
     w_trace w' = w_trace w ++ pre ++ p :: post ->
     en_state p = STARTING ->
     en_event p = EvAppSetObjects aid ids ->
     aid = acquired env cl ex w /\
     completed pre /\
     created_tags pre = creation_order (_blueprint (w_app w)) /\
     (forall tag, tag ∈ creation_order (_blueprint (w_app w)) -> is_Some (ids !! tag)) /\
     Forall (fun e => en_state e = STARTING -> ~ creation_event (en_event e)) post) /\
  (forall pre q post,
     w_trace w' = w_trace w ++ pre ++ q :: post ->
     en_state q = RUNNING ->
     exists pre1 ids pre2,
       pre = pre1 ++ publish_entry (acquired env cl ex w) ids true :: pre2 /\
       Forall (fun e => en_state e = STARTING) pre1).
Proof.
  intros Hst Hbody H.
  destruct (run_summary env _ _ _ _ _ _ _ Hst Hbody H)
    as (w1 & r1 & acq & Hacq & Hta & Hsa & _ & _ & _ & _ & Hr).
  rewrite (acquired_eq _ _ _ _ _ Hacq).
  pose proof (stamped_state _ _ _ Hsa) as Hsta.
  split.
  - intros pre p post aid ids Heq Hps Hpe.
    set (Q := fun e : Entry =>
                en_state e = STARTING /\ exists aid ids, en_event e = EvAppSetObjects aid ids).
    assert (Q p) as HQp by (split; eauto).
    assert (Forall (fun e => ~ Q e) acq) as HQa.
    { eapply stamped_not; [exact Hsa|]. intros e _ He [_ (x & y & HQ)].
      now rewrite HQ in He. }
    destruct r1 as [[]|e].
    + destruct Hr as (Hca & Hid & cext & tail & st & ok & ret & Ht & Hsc & Htail & Hret).
      rewrite Hta, <- app_assoc in Ht. rewrite Ht in Heq. apply app_inv_head in Heq.
      assert (Forall (fun e => ~ Q e) cext) as HQc.
      { eapply stamped_not; [exact Hsc|]. intros e0 _ He [_ (x & y & HQ)].
        now rewrite HQ in He. }
      assert (forall okp bext,
                Forall (fun e => en_state e <> STARTING) bext ->
                tail = publish_entry (_app_id (w_app w1)) ids okp :: bext ->
                pre = acq ++ log_entry (_app_id (w_app w1)) cur :: cext /\
                p = publish_entry (_app_id (w_app w1)) ids okp /\
                post = bext ++ [disconnect_entry st (_app_id (w_app w1)) ok]) as Hsplit.
      { intros okp bext Hb ->.
        assert ((acq ++ log_entry (_app_id (w_app w1)) cur :: cext)
                ++ publish_entry (_app_id (w_app w1)) ids okp
                   :: (bext ++ [disconnect_entry st (_app_id (w_app w1)) ok])
                = pre ++ p :: post) as Heq'.
        { rewrite <- Heq, <- app_assoc. reflexivity. }
        apply (split_at_unique Q) in Heq'; [exact Heq'| | |exact HQp].
        - forall_parts; repeat split; try assumption.
          intros [_ (x & y & HQ)]. discriminate.
        - forall_parts; repeat split.
          + eapply Forall_impl; [exact Hb|]. intros e0 He0 [HQ _]. contradiction.
          + intros [_ (x & y & HQ)]. discriminate. }
      assert (forall ids0 okp bext,
                created (_blueprint (w_app w)) cext ids0 ->
                Forall (fun e => en_state e <> STARTING) bext ->
                tail = publish_entry (_app_id (w_app w1)) ids0 okp :: bext ->
                aid = _app_id (w_app w1) /\
                completed pre /\
                created_tags pre = creation_order (_blueprint (w_app w)) /\
                (forall tag, tag ∈ creation_order (_blueprint (w_app w)) ->
                             is_Some (ids !! tag)) /\
                Forall (fun e => en_state e = STARTING -> ~ creation_event (en_event e))
                  post) as Hfin.
      { intros ids0 okp bext [Hcc Hct Hci] Hb Htl.
        assert (ids0 = ids /\ aid = _app_id (w_app w1)) as [-> ->].
        { subst tail. rewrite run_entries_assoc in Heq.
          assert ((acq ++ log_entry (_app_id (w_app w1)) cur :: cext)
                  ++ publish_entry (_app_id (w_app w1)) ids0 okp
                     :: (bext ++ [disconnect_entry st (_app_id (w_app w1)) ok])
                  = pre ++ p :: post) as Heq'.
          { rewrite <- Heq, <- !app_assoc. simpl. now rewrite <- app_assoc. }
          apply (split_at_unique Q) in Heq' as (_ & Hp & _); [| | |exact HQp].
          - rewrite Hp in Hpe. simpl in Hpe. injection Hpe as <- <-. done.
          - forall_parts; repeat split; try assumption.
            intros [_ (x & y & HQ)]. discriminate.
          - forall_parts; repeat split.
            + eapply Forall_impl; [exact Hb|]. intros e0 He0 [HQ _]. contradiction.
            + intros [_ (x & y & HQ)]. discriminate. }
        destruct (Hsplit okp bext Hb Htl) as (-> & -> & ->).
        split; [reflexivity|]. split.
        { unfold completed. forall_parts; repeat split; assumption. }
        split.
        { rewrite created_tags_app.
          rewrite (created_tags_none _ _ _ (fun _ _ H0 => H0) Hsa). simpl. exact Hct. }
        split; [exact Hci|].
        forall_parts; repeat split.
        - eapply Forall_impl; [exact Hb|]. intros e0 He0 HS. contradiction.
        - simpl. intros _ Hc. exact Hc. }
      inversion Htail; subst.
      * exfalso. eapply (split_none Q); [exact Heq| |exact HQp].
        forall_parts; repeat split; try assumption;
          intros [_ (x & y & HQ)]; discriminate.
      * eapply Hfin; [eassumption| |reflexivity]. constructor.
      * eapply Hfin; [eassumption| |reflexivity].
        constructor; [simpl; discriminate|].
        eapply Forall_impl; [eassumption|]. intros e0 [He0 _]. rewrite He0. discriminate.
      * eapply Hfin; [eassumption| |reflexivity].
        constructor; [simpl; discriminate|].
        eapply Forall_impl; [eassumption|]. intros e0 [He0 _]. rewrite He0. discriminate.
    + destruct Hr as [_ Ht]. rewrite Hta in Ht. rewrite Ht in Heq.
      apply app_inv_head in Heq. exfalso.
      eapply (split_none Q); [exact Heq|exact HQa|exact HQp].
  - intros pre q post Heq Hq.
    set (R := fun e : Entry => en_state e = RUNNING).
    assert (Forall (fun e => ~ R e) acq) as HRa.
    { eapply Forall_impl; [exact Hsta|]. intros e He HR. unfold R in HR. congruence. }
    destruct r1 as [[]|e].
    + destruct Hr as (Hca & Hid & cext & tail & st & ok & ret & Ht & Hsc & Htail & Hret).
      rewrite Hta, <- app_assoc in Ht. rewrite Ht in Heq. apply app_inv_head in Heq.
      pose proof (stamped_state _ _ _ Hsc) as Hstc.
      assert (Forall (fun e => ~ R e) cext) as HRc.
      { eapply Forall_impl; [exact Hstc|]. intros e0 He HR. unfold R in HR. congruence. }
      assert (forall ids bext,
                tail = publish_entry (_app_id (w_app w1)) ids true :: bext ->
                exists pre1 ids pre2,
                  pre = pre1 ++ publish_entry (_app_id (w_app w1)) ids true :: pre2 /\
                  Forall (fun e => en_state e = STARTING) pre1) as Hfin.
      { intros ids bext ->.
        assert ((acq ++ log_entry (_app_id (w_app w1)) cur :: cext)
                ++ publish_entry (_app_id (w_app w1)) ids true
                   :: (bext ++ [disconnect_entry st (_app_id (w_app w1)) ok])
                = pre ++ q :: post) as Heq'.
        { rewrite <- Heq, <- !app_assoc. reflexivity. }
        apply (split_after R) in Heq' as [pre2 ->]; [| | |exact Hq].
        - exists (acq ++ log_entry (_app_id (w_app w1)) cur :: cext), ids, pre2.
          split; [reflexivity|].
          forall_parts; repeat split; assumption.
        - forall_parts; repeat split; try assumption.
          unfold R. simpl. discriminate.
        - unfold R. simpl. discriminate. }
      inversion Htail; subst.
      * exfalso. eapply (split_none R); [exact Heq| |exact Hq].
        forall_parts; repeat split; try assumption;
          unfold R; simpl; discriminate.
      * exfalso. eapply (split_none R); [exact Heq| |exact Hq].
        forall_parts; repeat split; try assumption;
          unfold R; simpl; discriminate.
      * eapply Hfin. reflexivity.
      * eapply Hfin. reflexivity.
    + destruct Hr as [_ Ht]. rewrite Hta in Ht. rewrite Ht in Heq.
      apply app_inv_head in Heq. exfalso.
      eapply (split_none R); [exact Heq|exact HRa|exact Hq].
Qed.

(** What a run leaves of the app. *)
Lemma run_identity cl ex cur body w w' r :
  state (w_app w) = NONE ->
  workload body ->
  _run env cl ex cur body w = (w', r) ->
  _app_id (w_app w') = acquired env cl ex w /\
  _name (w_app w') = _name (w_app w) /\
  deployment_name (w_app w') = deployment_name (w_app w) /\
  _blueprint (w_app w') = _blueprint (w_app w) /\
  client (w_app w') = None /\ state (w_app w') = NONE /\
  (is_Ok r = true -> is_Some (acquired env cl ex w)).
Proof.
  intros Hst Hbody H.
  destruct (run_summary env _ _ _ _ _ _ _ Hst Hbody H)
    as (w1 & r1 & acq & Hacq & Hta & Hsa & (a & Ha & Hk) & Hn & Hd & Hb & Hr).
  rewrite (acquired_eq _ _ _ _ _ Hacq), Ha. simpl.
  rewrite (kept_app_id _ _ Hk), (kept_name _ _ Hk), (kept_deployment_name _ _ Hk),
    (kept_blueprint _ _ Hk).
  repeat split; try assumption.
  intros Hok. destruct r1 as [[]|e]; [apply Hr|].
  destruct Hr as [-> _]. discriminate.
Qed.

Lemma deploy_state nm ns c w w' r :
  deploy env nm ns c w = (w', Ok r) -> state (w_app w) = NONE.
Proof.
  intros H. unfold deploy in H. rewrite bind_get_app in H.
  destruct (decide (state (w_app w) <> NONE)) as [Hne|Heq]; [discriminate|].
  destruct (decide (state (w_app w) = NONE)) as [E|N]; [exact E|destruct (Heq N)].
Qed.

(** C10: the cleanup block assigns the client reference, the state, the
    progress tree and the map of live objects, and no other attribute: the
    application identity, the name, the deployment name, the Blueprint and
    the map of existing identities are those of the app before it.  Hence a
    deployment that returns gives the application identity that the app
    still holds after its run has closed (with the state NONE and no
    client), and this identity is not None. *)
Theorem cleanup_keeps_identity :
  (forall a,
     (client (cleanup a) = None /\ state (cleanup a) = NONE /\
      _progress (cleanup a) = None /\ _tag_to_object (cleanup a) = ∅) /\
     (_app_id (cleanup a) = _app_id a /\ _name (cleanup a) = _name a /\
      deployment_name (cleanup a) = deployment_name a /\
      _blueprint (cleanup a) = _blueprint a /\
      _tag_to_existing_id (cleanup a) = _tag_to_existing_id a)) /\
  (forall nm ns c (w w' : World B) r,
     deploy env nm ns c w = (w', Ok r) ->
     r = _app_id (w_app w') /\ is_Some r /\
     state (w_app w') = NONE /\ client (w_app w') = None /\
     _name (w_app w') = _name (w_app w) /\
     _blueprint (w_app w') = _blueprint (w_app w) /\
     is_Some (deployment_name (w_app w'))).
Proof.
  split; [intros a; repeat split|].
  intros nm ns c w w' r H.
  pose proof (deploy_state _ _ _ _ _ _ H) as Hst.
  destruct (deploy_anatomy env _ _ _ _ _ _ Hst H) as (rn & _ & Hrn).
  destruct rn as [n|e]; [|destruct Hrn as [_ Hr]; discriminate].
  destruct Hrn as (b & rl & _ & Hrl).
  destruct rl as [[aid cursor]|e]; [|destruct Hrl as [_ Hr]; discriminate].
  destruct Hrl as (rr & Hrun & Hr).
  destruct rr as [[]|e]; [|discriminate]. injection Hr as ->.
  apply run_identity in Hrun as (Hid & Hn & Hd & Hb & Hc & Hs & Hsome);
    [|exact Hst|apply workload_deploy_body].
  simpl in Hn, Hd, Hb.
  split; [reflexivity|]. split; [rewrite Hid; now apply Hsome|].
  repeat split; try assumption. rewrite Hd. eauto.
Qed.

End RunClaims.

(** ** The order of creation *)

Lemma insert_by_key_true {A} (key : A -> bool) x (F T : list A) :
  key x = true ->
  Forall (fun y => key y = false) F -> Forall (fun y => key y = true) T ->
  insert_by_key key x (F ++ T) = F ++ x :: T.
Proof.
  intros Hx HF HT. induction HF as [|y F Hy _ IH]; simpl.
  - destruct HT as [|z T Hz _]; simpl; [reflexivity|]. now rewrite Hx, Hz.
  - now rewrite Hx, Hy, IH.
Qed.

Lemma insert_by_key_false {A} (key : A -> bool) x (l : list A) :
  key x = false -> insert_by_key key x l = x :: l.
Proof. intros Hx. destruct l; simpl; [reflexivity|]. now rewrite Hx. Qed.

(** The sort of [_create_all_objects] keeps the tags that do not start
    with the key prefix in their order, and puts those that do after them,
    in their order. *)
Lemma sort_by_key_partition {A} (key : A -> bool) (l : list A) :
  sort_by_key key l
  = List.filter (fun x => negb (key x)) l ++ List.filter key l.
Proof.
  unfold sort_by_key. induction l as [|x l IH]; simpl; [reflexivity|].
  rewrite IH. destruct (key x) eqn:Hx; simpl.
  - apply insert_by_key_true; [exact Hx| |].
    + apply List.Forall_forall. intros y Hy. apply List.filter_In in Hy as [_ Hy].
      now apply negb_true_iff in Hy.
    + apply List.Forall_forall. intros y Hy. now apply List.filter_In in Hy as [_ Hy].
  - now apply insert_by_key_false.
Qed.

Lemma creation_order_partition (bp : Blueprint) :
  creation_order bp
  = List.filter (fun t => negb (String.prefix "fu-" t)) (map fst (get_objects bp))
    ++ List.filter (String.prefix "fu-") (map fst (get_objects bp)).
Proof. apply sort_by_key_partition. Qed.

Lemma elem_of_creation_order (bp : Blueprint) (tag : string) :
  tag ∈ creation_order bp <-> tag ∈ map fst (get_objects bp).
Proof.
  rewrite creation_order_partition, elem_of_app, !list_elem_of_In, !List.filter_In.
  destruct (String.prefix "fu-" tag); simpl; intuition congruence.
Qed.

Lemma get_object_elem_of (bp : Blueprint) tag obj :
  get_object bp tag = Some obj -> (tag, obj) ∈ bp.
Proof.
  induction bp as [|[t o] bp IH]; simpl; [discriminate|].
  destruct (String.eqb t tag) eqn:Ht.
  - apply String.eqb_eq in Ht as ->. intros H. injection H as ->. left.
  - intros H. right. now apply IH.
Qed.

Lemma filter_all {A} (f : A -> bool) (l : list A) :
  (forall x, x ∈ l -> f x = true) -> List.filter f l = l.
Proof.
  induction l as [|x l IH]; intros H; simpl; [reflexivity|].
  rewrite (H x) by left. f_equal. apply IH. intros y Hy. apply H. now right.
Qed.

Lemma filter_none {A} (f : A -> bool) (l : list A) :
  (forall x, x ∈ l -> f x = false) -> List.filter f l = [].
Proof.
  induction l as [|x l IH]; intros H; simpl; [reflexivity|].
  rewrite (H x) by left. apply IH. intros y Hy. apply H. now right.
Qed.

(** C1 (the code diverges): [_create_all_objects] orders the tags by
    whether they start with "fu-", which is how the identities of functions
    start, not their tags; it does not look at the objects.  When no tag of
    the Blueprint starts with "fu-", as when functions are registered under
    their qualified names, the objects are created in the order of
    registration, whatever they are: a function registered before another
    object is created before it. *)
Theorem creation_order_by_tag_prefix (bp : Blueprint) :
  (forall tag, tag ∈ map fst (get_objects bp) -> String.prefix "fu-" tag = false) ->
  creation_order bp = map fst (get_objects bp).
Proof.
  intros H. rewrite creation_order_partition.
  rewrite filter_all, filter_none, app_nil_r; [reflexivity|exact H|].
  intros tag Hin. now rewrite (H tag Hin).
Qed.

(** ** The name of a deployment *)

Section Names.
Context {B : Type} (env : Env B).

Lemma run_trace_extends cl ex cur body (w w' : World B) r :
  state (w_app w) = NONE ->
  workload body ->
  _run env cl ex cur body w = (w', r) ->
  exists ext, w_trace w' = w_trace w ++ ext.
Proof.
  intros Hst Hbody H.
  destruct (run_summary env _ _ _ _ _ _ _ Hst Hbody H)
    as (w1 & r1 & acq & _ & Hta & _ & _ & _ & _ & _ & Hr).
  destruct r1 as [[]|e].
  - destruct Hr as (_ & _ & cext & tail & st & ok & ret & Ht & _).
    eexists. rewrite Ht, Hta, <- app_assoc. reflexivity.
  - destruct Hr as [_ Ht]. eexists. rewrite Ht, Hta. reflexivity.
Qed.

(** The deployment went under the name [n]: the app has it as its
    deployment name, and the first call of the deployment is the lookup of
    [n] at the remote service. *)
Definition deployed_as (n : string) (ns : DeploymentNamespace) (c : option Client)
    (w w' : World B) : Prop :=
  deployment_name (w_app w') = Some n /\
  exists ok rest,
    w_trace w'
    = w_trace w ++ {| en_state := NONE; en_event := lookup_event env n ns c; en_ok := ok |}
                   :: rest.

Lemma deploy_resolved nm ns c (w w' : World B) r n :
  state (w_app w) = NONE ->
  deploy env nm ns c w = (w', r) ->
  match nm with Some x => x = n | None => name env w = (w, Ok n) end ->
  deployed_as n ns c w w'.
Proof.
  intros Hst H Hn.
  destruct (deploy_anatomy env _ _ _ _ _ _ Hst H) as (rn & Hrn & Hrest).
  assert (rn = Ok n) as ->.
  { destruct nm as [x|]; [now subst|]. rewrite Hn in Hrn. now injection Hrn as <-. }
  destruct Hrest as (b & rl & _ & Hrl).
  destruct rl as [[aid cursor]|e].
  - destruct Hrl as (rr & Hrun & _).
    pose proof (run_identity env _ _ _ _ _ _ _
                  (Hst : state (w_app (record (lookup_event env n ns c) true (named n w) b))
                         = NONE)
                  (workload_deploy_body env n ns) Hrun) as (_ & _ & Hd & _).
    apply run_trace_extends in Hrun as [ext Ht];
      [|exact Hst|apply workload_deploy_body].
    split; [exact Hd|]. exists true, ext. rewrite Ht. simpl. rewrite Hst.
    rewrite <- app_assoc. reflexivity.
  - destruct Hrl as [-> _]. split; [reflexivity|]. exists false, []. simpl.
    now rewrite Hst.
Qed.

(** C7 (the code diverges): [deploy] takes the explicit name when there is
    one, and otherwise the property [name], which is the name of the app
    when it has one and otherwise the name inferred from the command line.
    So a deployment with no explicit name of an app with no name does not
    raise the [InvalidError] with the guidance: it goes under the inferred
    name and reaches the remote service with it; only an empty command line
    stops it, with the [IndexError] of [sys.argv[0]]. *)
Theorem deploy_name_resolution nm ns c (w w' : World B) r :
  state (w_app w) = NONE ->
  deploy env nm ns c w = (w', r) ->
  match nm with
  | Some n => deployed_as n ns c w w'
  | None =>
      if opt_truthy (_name (w_app w)) then
        deployed_as (default "" (_name (w_app w))) ns c w w'
      else
        match sys_argv env with
        | script :: rest =>
            deployed_as (String.concat " " (basename script :: rest)) ns c w w'
        | [] => w' = w /\ r = Raise IndexError
        end
  end.
Proof.
  intros Hst H. destruct nm as [n|].
  - now apply (deploy_resolved _ _ _ _ _ _ n Hst H).
  - destruct (opt_truthy (_name (w_app w))) eqn:Hname.
    + apply (deploy_resolved _ _ _ _ _ _ _ Hst H).
      unfold name. rewrite bind_get_app, Hname. reflexivity.
    + destruct (sys_argv env) as [|script rest] eqn:Hargv.
      * destruct (deploy_anatomy env _ _ _ _ _ _ Hst H) as (rn & Hrn & Hrest).
        unfold name, _infer_app_name in Hrn. rewrite bind_get_app, Hname, Hargv in Hrn.
        injection Hrn as <-. exact Hrest.
      * apply (deploy_resolved _ _ _ _ _ _ _ Hst H).
        unfold name, _infer_app_name. rewrite bind_get_app, Hname, Hargv. reflexivity.
Qed.

End Names.

(** ** Deploying again *)

(** *** A remote service that keeps what it is given *)

Section BackendLaws.
Context {B : Type} (be : Backend B).

(** What can be observed of the remote service: the application deployed
    under a name, and the objects published for an application. *)
Context (deployment : B -> string -> DeploymentNamespace -> option string).
Context (objects_of : B -> string -> gmap string string).

Definition same_view (b b' : B) : Prop :=
  (forall n ns, deployment b' n ns = deployment b n ns) /\
  (forall aid, objects_of b' aid = objects_of b aid).

(** An identity that no published object has. *)
Definition fresh_object (b : B) (id : string) : Prop :=
  forall aid tag, objects_of b aid !! tag <> Some id.

(** An identity that no deployment has. *)
Definition fresh_app (b : B) (aid : string) : Prop :=
  aid <> "" /\ forall n ns, deployment b n ns <> Some aid.

(** The laws of the calls that return: a lookup by name gives the deployed
    application, or the empty string; the objects of an application are the
    published ones; a new application has a new identity; publishing and
    deploying store what they are given and nothing else; and an object
    created with an existing identity keeps it, while one created without
    gets an identity that no published object has. *)
Record BackendSpec : Prop := {
  law_lookup : forall n ns cid b b' aid cur,
    AppGetByDeploymentName be n ns cid b = (b', Ok (aid, cur)) ->
    same_view b b' /\ existing_of aid = deployment b n ns;
  law_get_objects : forall aid b b' ids,
    AppGetObjects be aid b = (b', Ok ids) ->
    same_view b b' /\ ids = objects_of b aid;
  law_create : forall cid nm b b' aid,
    AppCreate be cid nm b = (b', Ok aid) ->
    same_view b b' /\ fresh_app b aid;
  law_set_objects : forall aid ids b b',
    AppSetObjects be (Some aid) ids b = (b', Ok tt) ->
    (forall n ns, deployment b' n ns = deployment b n ns) /\
    objects_of b' aid = ids /\
    (forall aid', aid' <> aid -> objects_of b' aid' = objects_of b aid');
  law_deploy : forall aid n ns b b',
    AppDeploy be (Some aid) n ns b = (b', Ok tt) ->
    aid <> "" ->
    deployment b' n ns = Some aid /\
    (forall n' ns', n' <> n -> deployment b' n' ns' = deployment b n' ns') /\
    (forall a, objects_of b' a = objects_of b a);
  law_disconnect : forall aid b b',
    AppClientDisconnect be aid b = (b', Ok tt) -> same_view b b';
  law_load : forall obj ex b b' id,
    load be obj ex b = (b', Ok (Some id)) ->
    same_view b b' /\
    match ex with Some e => id = e | None => fresh_object b id end
}.

Lemma same_view_refl b : same_view b b.
Proof. split; reflexivity. Qed.

Lemma same_view_trans b1 b2 b3 : same_view b1 b2 -> same_view b2 b3 -> same_view b1 b3.
Proof. intros [H1 H2] [H3 H4]. split; intros; [rewrite H3, H1|rewrite H4, H2]; reflexivity. Qed.

Lemma fresh_object_view b b' id : same_view b b' -> fresh_object b' id -> fresh_object b id.
Proof. intros [_ H] Hf aid tag. rewrite <- H. apply Hf. Qed.

End BackendLaws.

(** *** The calls of a run that returns *)

Section Success.
Context {B : Type} (env : Env B).
Context (deployment : B -> string -> DeploymentNamespace -> option string).
Context (objects_of : B -> string -> gmap string string).
Context (Hspec : BackendSpec (backend env) deployment objects_of).

Definition load_entry (st : AppState) (obj : Object) (x : option string) : Entry :=
  {| en_state := st; en_event := EvLoad obj x; en_ok := true |}.

Definition creating_entry (st : AppState) (tag : string) (x : option string) : Entry :=
  {| en_state := st; en_event := EvCreating tag x; en_ok := true |}.

Lemma create_object_ok obj x w w' id :
  label obj = None ->
  _create_object env obj x w = (w', Ok id) ->
  load (backend env) obj x (w_remote w) = (w_remote w', Ok (Some id)) /\
  frame_objects (w_app w) (w_app w') /\
  w_trace w' = w_trace w ++ [load_entry (state (w_app w)) obj x].
Proof.
  intros Hl H.
  pose proof (tracks_object_calls env obj x _ _ _ H) as (Hf & _).
  split; [|split; [exact Hf|]]; revert H; run_create_object; rewrite Hl.
  all: destruct (creating_message obj) as [m|]; simpl;
    [destruct (_progress (w_app w)) as [t|]; simpl; [|discriminate]|].
  all: destruct (load (backend env) obj x (w_remote w)) as [b [[id'|]|e]]; simpl;
    try discriminate.
  all: destruct x as [existing|]; simpl;
    repeat match goal with
           | |- context [decide ?P] => destruct (decide P); simpl
           | |- context [String.prefix ?a ?b] => destruct (String.prefix a b); simpl
           | |- context [created_message ?o] => destruct (created_message o); simpl
           end;
    try discriminate; intros H; injection H as <- <-; reflexivity.
Qed.

(** The entries of the creation of the objects of [tags], each created with
    the identity that [existing] has for its tag. *)
Definition creation_entries (st : AppState) (bp : Blueprint)
    (existing : gmap string string) (tags : list string) : list Entry :=
  flat_map (fun tag =>
              match get_object bp tag with
              | Some obj => [creating_entry st tag (existing !! tag);
                             load_entry st obj (existing !! tag)]
              | None => []
              end) tags.

(** The objects of [tags] are defined on the app: none is a reference. *)
Definition local_objects (bp : Blueprint) (tags : list string) : Prop :=
  forall tag obj, tag ∈ tags -> get_object bp tag = Some obj -> label obj = None.

(** The identity [id] of an object created with [x]. *)
Definition identity_for (b : B) (x : option string) (id : string) : Prop :=
  match x with Some e => id = e | None => fresh_object objects_of b id end.

Lemma create_tagged_ok tag w w' :
  (forall obj, get_object (_blueprint (w_app w)) tag = Some obj -> label obj = None) ->
  create_tagged env tag w = (w', Ok tt) ->
  exists obj id,
    get_object (_blueprint (w_app w)) tag = Some obj /\
    load (backend env) obj (_tag_to_existing_id (w_app w) !! tag) (w_remote w)
    = (w_remote w', Ok (Some id)) /\
    frame (w_app w) (w_app w') /\
    _tag_to_object (w_app w') = <[tag := from_id id]> (_tag_to_object (w_app w)) /\
    w_trace w'
    = w_trace w ++ [creating_entry (state (w_app w)) tag (_tag_to_existing_id (w_app w) !! tag);
                    load_entry (state (w_app w)) obj (_tag_to_existing_id (w_app w) !! tag)].
Proof.
  intros Hlocal H. unfold create_tagged in H.
  unfold mbind at 1, M_bind at 1, bind at 1, get_app at 1 in H.
  destruct (get_object (_blueprint (w_app w)) tag) as [obj|]; [|discriminate H].
  unfold mbind at 1, M_bind at 1, bind at 1, mret, M_ret, ret in H.
  unfold mbind at 1, M_bind at 1, bind at 1, mark at 1 in H.
  set (w0 := record _ true w (w_remote w)) in H.
  apply bind_inv in H as [(w1 & id & Hcreate & Hset)|(e & _ & He)]; [|discriminate].
  apply create_object_ok in Hcreate as (Hload & [Hf Hobj] & Ht); [|now apply Hlocal].
  injection Hset as <-. exists obj, id. split; [reflexivity|].
  split; [exact Hload|]. split.
  { destruct Hf. constructor; simpl; assumption. }
  split; [simpl; now rewrite Hobj|].
  simpl. rewrite Ht. subst w0. simpl. rewrite <- app_assoc. reflexivity.
Qed.

Lemma create_loop_ok tags : forall w w',
  local_objects (_blueprint (w_app w)) tags ->
  for_each tags (create_tagged env) w = (w', Ok tt) ->
  frame (w_app w) (w_app w') /\
  same_view deployment objects_of (w_remote w) (w_remote w') /\
  w_trace w'
  = w_trace w ++ creation_entries (state (w_app w)) (_blueprint (w_app w))
                   (_tag_to_existing_id (w_app w)) tags /\
  (forall tag, tag ∈ tags ->
     exists id, _tag_to_object (w_app w') !! tag = Some (from_id id) /\
       identity_for (w_remote w) (_tag_to_existing_id (w_app w) !! tag) id) /\
  (forall tag, tag ∉ tags ->
     _tag_to_object (w_app w') !! tag = _tag_to_object (w_app w) !! tag).
Proof.
  induction tags as [|t ts IH]; intros w w' Hlocal H.
  - injection H as <-. split; [now constructor|]. split; [apply same_view_refl|].
    split; [simpl; now rewrite app_nil_r|]. split; [|done].
    intros tag Hin. now apply elem_of_nil in Hin.
  - simpl in H.
    apply (bind_inv (create_tagged env t) (fun _ => for_each ts (create_tagged env)))
      in H as [(w1 & [] & H1 & H2)|(e & _ & He)]; [|discriminate].
    apply create_tagged_ok in H1 as (obj & id & Hget & Hload & Hf1 & Hobj & Ht1);
      [|intros o Ho; apply (Hlocal t o); [left|exact Ho]].
    apply (law_load _ _ _ Hspec) in Hload as [Hv1 Hid].
    apply IH in H2 as (Hf2 & Hv2 & Ht2 & Hin2 & Hout2).
    2: { intros tag o Hin Ho. rewrite (fr_blueprint _ _ Hf1) in Ho.
         apply (Hlocal tag o); [now right|exact Ho]. }
    rewrite (fr_state _ _ Hf1), (fr_blueprint _ _ Hf1), (fr_existing _ _ Hf1) in Ht2.
    split. { destruct Hf1, Hf2. constructor; congruence. }
    split; [eapply same_view_trans; eassumption|].
    split. { rewrite Ht2, Ht1. simpl. rewrite Hget. rewrite <- app_assoc. reflexivity. }
    split.
    + intros tag Hin. destruct (decide (tag ∈ ts)) as [Hts|Hts].
      * destruct (Hin2 tag Hts) as (id' & Hl & Hi). exists id'. split; [exact Hl|].
        rewrite (fr_existing _ _ Hf1) in Hi. unfold identity_for in *.
        destruct (_tag_to_existing_id (w_app w) !! tag); [exact Hi|].
        eapply fresh_object_view; eassumption.
      * apply elem_of_cons in Hin as [->|Hin]; [|contradiction].
        exists id. rewrite (Hout2 t Hts), Hobj, lookup_insert_eq. split; [reflexivity|].
        exact Hid.
    + intros tag Hnin. apply not_elem_of_cons in Hnin as [Hne Hnin].
      rewrite (Hout2 tag Hnin), Hobj. now rewrite lookup_insert_ne.
Qed.

Lemma acquire_ok cl ex w w1 :
  is_Some (client (w_app w)) ->
  acquire_app env cl ex w = (w1, Ok tt) ->
  same_view deployment objects_of (w_remote w) (w_remote w1) /\
  exists a, _app_id (w_app w1) = Some a /\
    match ex with
    | Some x => a = x /\ _tag_to_existing_id (w_app w1) = objects_of (w_remote w) x
    | None => fresh_app deployment (w_remote w) a /\ _tag_to_existing_id (w_app w1) = ∅
    end.
Proof.
  intros [c Hc] H. unfold acquire_app in H.
  destruct ex as [x|].
  - exec_in H. rewrite Hc in H. simpl in H.
    destruct (AppGetObjects (backend env) x (w_remote w)) as [b [ids|e]] eqn:Hget;
      simpl in H; [|discriminate].
    injection H as <-. simpl.
    apply (law_get_objects _ _ _ Hspec) in Hget as [Hv ->].
    split; [exact Hv|]. exists x. done.
  - unfold name, _infer_app_name in H. exec_in H.
    destruct (opt_truthy (_name (w_app w))); [|destruct (sys_argv env) as [|script rest]];
      simpl in H; [|discriminate|].
    all: destruct (AppCreate (backend env) (client_id cl) _ (w_remote w))
           as [b [id|e]] eqn:Hcreate; simpl in H; [|discriminate].
    all: injection H as <-; simpl.
    all: apply (law_create _ _ _ Hspec) in Hcreate as [Hv Hfresh].
    all: split; [exact Hv|]; exists id; done.
Qed.

(** The world in which the objects are created. *)
Definition creating (w : World B) : World B :=
  with_app (set__progress
    (Some {| tree_label := step_progress "Creating objects..."; tree_children := [] |})) w.

Lemma create_publish_yield_ok body w2 w3 :
  is_Some (client (w_app w2)) ->
  create_publish_yield env body w2 = (w3, Ok tt) ->
  exists wc b wy wb,
    _create_all_objects env (creating w2) = (wc, Ok tt) /\
    AppSetObjects (backend env) (_app_id (w_app wc))
      (object_id <$> _tag_to_object (w_app wc)) (w_remote wc) = (b, Ok tt) /\
    w_remote wy = b /\ _app_id (w_app wy) = _app_id (w_app wc) /\
    (exists e1 e2, w_trace wy = w_trace wc ++ [e1; e2]) /\
    body wy = (wb, Ok tt) /\
    w_remote w3 = w_remote wb /\ w_trace w3 = w_trace wb.
Proof.
  intros [c Hc] H. unfold create_publish_yield in H.
  rewrite bind_modify_app in H. fold (with_app (set__progress
    (Some {| tree_label := step_progress "Creating objects..."; tree_children := [] |})) w2)
    in H. fold (creating w2) in H.
  apply bind_inv in H as [(wc & [] & Hcreate & H)|(e & _ & He)]; [|discriminate].
  pose proof (tracks_create_all_objects env _ _ _ Hcreate) as (Hf & _).
  rewrite bind_modify_app, bind_get_app in H.
  rewrite (bind_self_client_stub _ _ c) in H
    by (simpl; rewrite (fr_client _ _ Hf); exact Hc).
  rewrite bind_call in H.
  cbn [_tag_to_object _app_id set__progress w_app w_remote] in H.
  destruct (AppSetObjects (backend env) (_app_id (w_app wc))
              (object_id <$> _tag_to_object (w_app wc)) (w_remote wc))
    as [b [[]|e]] eqn:Hset; cbv beta iota in H; [|discriminate].
  rewrite bind_modify_app, bind_mark in H.
  apply bind_inv in H as [(wb & [] & Hb & H)|(e & _ & He)]; [|discriminate].
  injection H as <-.
  eexists wc, b, _, wb. split; [exact Hcreate|]. split; [exact Hset|].
  split; [|split; [|split; [|split; [exact Hb|split; reflexivity]]]].
  - reflexivity.
  - reflexivity.
  - simpl. eexists _, _. rewrite <- app_assoc. reflexivity.
Qed.

Lemma deploy_body_ok n ns w w' :
  deploy_body env n ns w = (w', Ok tt) ->
  AppDeploy (backend env) (_app_id (w_app w)) n ns (w_remote w) = (w_remote w', Ok tt) /\
  exists e, w_trace w' = w_trace w ++ [e].
Proof.
  intros H. unfold deploy_body in H. rewrite bind_get_app in H. unfold call in H.
  destruct (AppDeploy (backend env) (_app_id (w_app w)) n ns (w_remote w)) as [b [[]|e]];
    injection H as <-; [|discriminate].
  split; [reflexivity|]. eexists. reflexivity.
Qed.

Lemma disconnect_ok w w' :
  is_Some (client (w_app w)) ->
  disconnect env w = (w', Ok tt) ->
  AppClientDisconnect (backend env) (_app_id (w_app w)) (w_remote w) = (w_remote w', Ok tt) /\
  exists e, w_trace w' = w_trace w ++ [e].
Proof.
  intros [c Hc] H. unfold disconnect in H.
  rewrite bind_get_app, (bind_self_client_stub _ _ c Hc) in H. unfold call in H.
  destruct (AppClientDisconnect (backend env) (_app_id (w_app w)) (w_remote w))
    as [b [[]|e]]; injection H as <-; [|discriminate].
  split; [reflexivity|]. eexists. reflexivity.
Qed.

Lemma existing_of_Some aid x : existing_of aid = Some x -> x = aid /\ x <> "".
Proof.
  unfold existing_of. destruct aid as [|ch rest]; simpl; [discriminate|].
  intros H. injection H as <-. split; [reflexivity|discriminate].
Qed.

(** The objects published for the application deployed under a name, if
    there is one. *)
Definition prior (b : B) (n : string) (ns : DeploymentNamespace) : gmap string string :=
  match deployment b n ns with
  | Some a0 => objects_of b a0
  | None => ∅
  end.

(** A deployment that returns, of an app whose objects are defined on it. *)
Lemma deploy_ok n ns c w w' r :
  local_objects (_blueprint (w_app w)) (creation_order (_blueprint (w_app w))) ->
  deploy env (Some n) ns c w = (w', Ok r) ->
  exists a, r = Some a /\ a <> "" /\
    match deployment (w_remote w) n ns with
    | Some a0 => a = a0
    | None => fresh_app deployment (w_remote w) a
    end /\
    deployment (w_remote w') n ns = Some a /\
    (forall n' ns', n' <> n ->
       deployment (w_remote w') n' ns' = deployment (w_remote w) n' ns') /\
    (forall a', a' <> a -> objects_of (w_remote w') a' = objects_of (w_remote w) a') /\
    (forall tag, tag ∈ creation_order (_blueprint (w_app w)) ->
       exists id, objects_of (w_remote w') a !! tag = Some id /\
         identity_for (w_remote w) (prior (w_remote w) n ns !! tag) id) /\
    (exists pre post,
       w_trace w'
       = w_trace w ++ pre
         ++ creation_entries STARTING (_blueprint (w_app w)) (prior (w_remote w) n ns)
              (creation_order (_blueprint (w_app w)))
         ++ post) /\
    _blueprint (w_app w') = _blueprint (w_app w).
Proof.
  intros Hlocal H.
  pose proof (deploy_state _ _ _ _ _ _ _ H) as Hst.
  destruct (deploy_anatomy env _ _ _ _ _ _ Hst H) as (rn & -> & bl & rl & Hlook & Hrl).
  destruct rl as [[aid cursor]|e]; [|destruct Hrl as [_ Hr]; discriminate].
  destruct Hrl as (rr & Hrun & Hr).
  destruct rr as [[]|e]; [|discriminate]. injection Hr as ->.
  apply (law_lookup _ _ _ Hspec) in Hlook as [Hv0 Hex].
  set (wl := record (lookup_event env n ns c) true (named n w) bl) in Hrun.
  pose proof (run_identity env _ _ _ _ _ _ _ (Hst : state (w_app wl) = NONE)
                (workload_deploy_body env n ns) Hrun) as (Hid & _ & _ & Hbp & _).
  apply run_anatomy in Hrun as (w1 & r1 & Hacq & Hrun); [|exact Hst].
  rewrite (acquired_eq _ _ _ _ _ _ Hacq) in Hid.
  destruct r1 as [[]|e]; [|destruct Hrun as [_ Hr]; discriminate].
  destruct Hrun as (w3 & r3 & w4 & r4 & Hcpy & Hdisc & -> & Hr).
  destruct r4 as [[]|e]; [|discriminate]. subst r3.
  assert (Hsome : is_Some (client (w_app (started (_get_client env c) wl))))
    by (simpl; eauto).
  pose proof (acquire_app_spec env _ _ _ _ _ Hsome Hacq)
    as (Hs1 & Hc1 & _ & _ & Hb1 & Ho1 & (acq & Hta & _) & _).
  apply acquire_ok in Hacq as (Hv1 & a & Ha & Hex1); [|exact Hsome].
  simpl in Hs1, Hc1, Hb1, Hta, Hv1.
  assert (is_Some (client (w_app w3))) as Hc3.
  { apply create_publish_yield_spec in Hcpy as [Hk3 _];
      [|apply workload_deploy_body|exact Hs1|simpl; rewrite Hc1; eauto].
    rewrite (kept_client _ _ Hk3). simpl. rewrite Hc1. eauto. }
  apply create_publish_yield_ok in Hcpy
    as (wc & bs & wy & wb & Hcreate & Hset & Hwy & Hay & (e1 & e2 & Hty) & Hbody & Hr3 & Ht3);
    [|simpl; rewrite Hc1; eauto].
  pose proof (tracks_create_all_objects env _ _ _ Hcreate) as (Hfc & _).
  unfold _create_all_objects in Hcreate. rewrite bind_get_app in Hcreate.
  simpl in Hcreate, Hfc. rewrite Hb1 in Hcreate.
  apply create_loop_ok in Hcreate as (_ & Hvc & Htc & Hids & _);
    [|simpl; rewrite Hb1; exact Hlocal].
  simpl in Hvc, Htc, Hids. rewrite Hs1, Hb1 in Htc.
  rewrite (fr_app_id _ _ Hfc) in Hset. simpl in Hset. rewrite Ha in Hset.
  apply (law_set_objects _ _ _ Hspec) in Hset as (Hds & Hos & Hoo).
  apply deploy_body_ok in Hbody as (Hdep & ed & Htb).
  rewrite Hay, (fr_app_id _ _ Hfc), Hwy in Hdep. simpl in Hdep. rewrite Ha in Hdep.
  assert (a <> "") as Hne.
  { destruct (existing_of aid) as [x|] eqn:Hx.
    - destruct Hex1 as [-> _]. now apply existing_of_Some in Hx.
    - now destruct Hex1 as [[? _] _]. }
  apply (law_deploy _ _ _ Hspec) in Hdep as (Hdn & Hdo & Hdobj); [|exact Hne].
  apply disconnect_ok in Hdisc as (Hdisc & edis & Ht4).
  2: exact Hc3.
  apply (law_disconnect _ _ _ Hspec) in Hdisc as [Hvd1 Hvd2].
  rewrite Hr3 in Hvd1, Hvd2.
  destruct Hv0 as [Hv0d Hv0o], Hv1 as [Hv1d Hv1o], Hvc as [Hvcd Hvco].
  exists a. simpl.
  assert (_tag_to_existing_id (w_app w1) = prior (w_remote w) n ns) as HE.
  { unfold prior. rewrite <- Hex. destruct (existing_of aid) as [x|].
    - destruct Hex1 as [_ ->]. simpl. apply Hv0o.
    - now destruct Hex1 as [_ ->]. }
  split; [simpl in Hid; rewrite Hid; exact Ha|]. split; [exact Hne|].
  split.
  { rewrite <- Hex. destruct (existing_of aid) as [x|]; [now destruct Hex1|].
    destruct Hex1 as [[_ Hfresh] _]. split; [exact Hne|].
    intros n0 ns0. rewrite <- Hv0d. apply Hfresh. }
  split; [rewrite Hvd1; exact Hdn|].
  split; [intros n' ns' Hn'; now rewrite Hvd1, Hdo, Hds, Hvcd, Hv1d, Hv0d|].
  split; [intros a' Ha'; now rewrite Hvd2, Hdobj, Hoo, Hvco, Hv1o, Hv0o|].
  split.
  { intros tag Hin. destruct (Hids tag Hin) as (id & Hl & Hi). exists id.
    split; [rewrite Hvd2, Hdobj, Hos, lookup_fmap, Hl; reflexivity|].
    rewrite HE in Hi. unfold identity_for in *.
    destruct (prior (w_remote w) n ns !! tag); [exact Hi|].
    intros aid0 tag0. rewrite <- Hv0o, <- Hv1o. apply Hi. }
  split; [|exact Hbp].
  eexists (_ :: acq ++ [_]), [e1; e2; ed; edis].
  rewrite Ht4, Ht3, Htb, Hty, Htc, Hta, HE.
  generalize (creation_entries STARTING (_blueprint (w_app w)) (prior (w_remote w) n ns)
                (creation_order (_blueprint (w_app w)))).
  intros ce. repeat progress (rewrite <- ?app_assoc; cbn [app]). reflexivity.
Qed.


End Success.

End AppFacts.

(** * The servicer *)

Module ServicerFacts.
Import App AppFacts Servicer.

(** What can be observed of the servicer. *)
Definition deployment (s : State) (n : string) (ns : DeploymentNamespace) : option string :=
  existing_of (default "" (deployed_apps s !! n)).

Definition objects_of (s : State) (aid : string) : gmap string string :=
  default ∅ (app_objects s !! aid).

Lemma new_id_fresh prefix s : new_id prefix s <> "" /\ new_id prefix s ∉ in_use s.
Proof.
  unfold new_id.
  pose proof (fresh_string_of_set_fresh
                ({[ ""; prefix; prefix +:+ "0" ]} ∪ in_use s) prefix) as Hfresh.
  rewrite !elem_of_union, !elem_of_singleton in Hfresh.
  split; [intros Heq; rewrite Heq in Hfresh|intros Hin]; apply Hfresh; tauto.
Qed.

Lemma deployment_bound s n ns aid : deployment s n ns = Some aid -> aid ∈ bound_apps s.
Proof.
  unfold deployment, bound_apps. intros H. apply existing_of_Some in H as [-> Hne].
  destruct (deployed_apps s !! n) as [x|] eqn:Hx; simpl in *; [|done].
  apply elem_of_map_img. eauto.
Qed.

Lemma objects_stored s aid tag id : objects_of s aid !! tag = Some id -> id ∈ stored_objects s.
Proof.
  unfold objects_of, stored_objects. intros H.
  destruct (app_objects s !! aid) as [m|] eqn:Hm; simpl in H; [|now rewrite lookup_empty in H].
  apply elem_of_union_list. exists (map_img m). split.
  - apply list_elem_of_fmap. exists m. split; [reflexivity|].
    apply list_elem_of_fmap. exists (aid, m). split; [reflexivity|].
    now apply elem_of_map_to_list.
  - apply elem_of_map_img. eauto.
Qed.

(** The servicer keeps the laws of a remote service. *)
Lemma servicer_spec : BackendSpec servicer deployment objects_of.
Proof.
  split.
  - intros n ns cid b b' aid cur H. injection H as <- <- <-.
    split; [apply same_view_refl|reflexivity].
  - intros aid b b' ids H. injection H as <- <-. split; [apply same_view_refl|reflexivity].
  - intros cid nm b b' aid H. injection H as <- <-.
    split; [split; reflexivity|].
    destruct (new_id_fresh "ap-" b) as [Hne Hfresh]. split; [exact Hne|].
    intros n ns Hd. apply Hfresh. apply deployment_bound in Hd. unfold in_use.
    rewrite !elem_of_union. tauto.
  - intros aid ids b b' H. injection H as <-. split; [reflexivity|]. split.
    + unfold objects_of. simpl. now rewrite lookup_insert_eq.
    + intros aid' Hne. unfold objects_of. simpl. now rewrite lookup_insert_ne.
  - intros aid n ns b b' H Hne. injection H as <-. split; [|split].
    + unfold deployment. simpl. rewrite lookup_insert_eq. simpl.
      destruct aid; [done|reflexivity].
    + intros n' ns' Hn'. unfold deployment. simpl. now rewrite lookup_insert_ne.
    + reflexivity.
  - intros aid b b' H. injection H as <-. apply same_view_refl.
  - intros obj ex b b' id H. simpl in H.
    destruct (function_create_error b && is_function obj); [discriminate|].
    destruct ex as [e|]; injection H as <- <-.
    + split; [apply same_view_refl|reflexivity].
    + split; [split; reflexivity|].
      destruct (new_id_fresh (kind_prefix (kind obj)) b) as [_ Hfresh].
      intros aid tag Hl. apply Hfresh. apply objects_stored in Hl. unfold in_use.
      rewrite !elem_of_union. tauto.
Qed.

End ServicerFacts.

(** * The scenarios of the tests *)

Module Scenarios.
Import App AppFacts Servicer ServicerFacts Tests.

Lemma workload_failing_body : workload failing_body.
Proof.
  intros w w' r H. injection H as <- <-. split; [now constructor|].
  exists []. split; [now rewrite app_nil_r|constructor].
Qed.

Lemma workload_passing_body : workload passing_body.
Proof.
  intros w w' r H. injection H as <- <-. split; [now constructor|].
  exists []. split; [now rewrite app_nil_r|constructor].
Qed.

Lemma local_objects_all (bp : Blueprint) tags :
  Forall (fun p => label (snd p) = None) bp -> local_objects bp tags.
Proof.
  intros Hall tag obj _ Hget. apply get_object_elem_of in Hget.
  rewrite Forall_forall in Hall. exact (Hall _ Hget).
Qed.

Lemma creation_order_by_tag_prefix_witness :
  creation_order mixed_blueprint = map fst (get_objects mixed_blueprint).
Proof.
  apply (creation_order_by_tag_prefix mixed_blueprint).
  intros tag Hin.
  repeat (apply elem_of_cons in Hin as [->|Hin]; [reflexivity|]).
  now apply elem_of_nil in Hin.
Defined.

(** The run of the mixed app creates the function before the queue. *)
Lemma function_created_before_queue :
  created_tags (w_trace (fst passing_run))
  = ["_image"; "_client_mount"; "client_test.app_test.square"; "q_1"] /\
  (is_function <$> get_object mixed_blueprint "client_test.app_test.square") = Some true /\
  (is_function <$> get_object mixed_blueprint "q_1") = Some false.
Proof. vm_compute. repeat split. Qed.

Lemma run_disconnects_then_resets_witness :
  (client (w_app (fst raising_run)) = None /\ state (w_app (fst raising_run)) = NONE /\
   _progress (w_app (fst raising_run)) = None /\
   _tag_to_object (w_app (fst raising_run)) = ∅) /\
  forall pre y post,
    w_trace (fst raising_run) = w_trace (start mixed_app) ++ pre ++ y :: post ->
    en_event y = EvYield ->
    is_Some (acquired test_env test_client None (start mixed_app)) /\
    exists mid st ok,
      post = mid ++ [disconnect_entry st
                       (acquired test_env test_client None (start mixed_app)) ok] /\
      (st = RUNNING \/ st = STOPPING) /\
      (is_Ok (snd raising_run) = true -> st = STOPPING /\ ok = true).
Proof.
  apply (run_disconnects_then_resets test_env test_client None None failing_body
           (start mixed_app) (fst raising_run) (snd raising_run)).
  - reflexivity.
  - apply workload_failing_body.
  - apply surjective_pairing.
Defined.

(** The run whose workload raises: the workload was entered, the run
    raises what it raised, and its last call is the Disconnect call. *)
Lemma raising_run_disconnects :
  snd raising_run = Raise (Exception "boom") /\
  In {| en_state := RUNNING; en_event := EvYield; en_ok := true |}
     (w_trace (fst raising_run)) /\
  last (w_trace (fst raising_run))
  = Some (disconnect_entry RUNNING (Some "ap-1") true).
Proof. vm_compute. repeat split. tauto. Qed.

Lemma publish_after_creations_before_running_witness :
  (forall pre p post aid ids,
     w_trace (fst passing_run) = w_trace (start mixed_app) ++ pre ++ p :: post ->
     en_state p = STARTING ->
     en_event p = EvAppSetObjects aid ids ->
     aid = acquired test_env test_client None (start mixed_app) /\
     completed pre /\
     created_tags pre = creation_order (_blueprint (w_app (start mixed_app))) /\
     (forall tag, tag ∈ creation_order (_blueprint (w_app (start mixed_app))) ->
                  is_Some (ids !! tag)) /\
     Forall (fun e => en_state e = STARTING -> ~ creation_event (en_event e)) post) /\
  (forall pre q post,
     w_trace (fst passing_run) = w_trace (start mixed_app) ++ pre ++ q :: post ->
     en_state q = RUNNING ->
     exists pre1 ids pre2,
       pre = pre1 ++ publish_entry (acquired test_env test_client None (start mixed_app))
                       ids true :: pre2 /\
       Forall (fun e => en_state e = STARTING) pre1).
Proof.
  apply (publish_after_creations_before_running test_env test_client None None
           passing_body (start mixed_app) (fst passing_run) (snd passing_run)).
  - reflexivity.
  - apply workload_passing_body.
  - apply surjective_pairing.
Defined.

Lemma cleanup_keeps_identity_witness :
  Some "ap-1" = _app_id (w_app (fst deployed_once)) /\ is_Some (Some "ap-1") /\
  state (w_app (fst deployed_once)) = NONE /\ client (w_app (fst deployed_once)) = None /\
  _name (w_app (fst deployed_once)) = _name (w_app (start square_app)) /\
  _blueprint (w_app (fst deployed_once)) = _blueprint (w_app (start square_app)) /\
  is_Some (deployment_name (w_app (fst deployed_once))).
Proof.
  apply (proj2 (cleanup_keeps_identity test_env) (Some "my-app") account (Some test_client)
           (start square_app) (fst deployed_once) (Some "ap-1")).
  vm_compute. reflexivity.
Defined.


(** The deployments of [test_redeploy]: "ap-1" and "fu-1" twice, then
    "ap-2" and "fu-2". *)
Lemma test_redeploy :
  snd deployed_once = Ok (Some "ap-1") /\
  objects_of (w_remote (fst deployed_once)) "ap-1" !! "client_test.app_test.square"
  = Some "fu-1" /\
  snd deployed_twice = Ok (Some "ap-1") /\
  objects_of (w_remote (fst deployed_twice)) "ap-1" !! "client_test.app_test.square"
  = Some "fu-1" /\
  snd deployed_elsewhere = Ok (Some "ap-2") /\
  objects_of (w_remote (fst deployed_elsewhere)) "ap-2" !! "client_test.app_test.square"
  = Some "fu-2".
Proof. vm_compute. repeat split. Qed.

Lemma deploy_name_resolution_witness :
  deployed_as test_env "pytest client_test" account (Some test_client)
    (start square_app) (fst unnamed_deploy).
Proof.
  exact (deploy_name_resolution test_env None account (Some test_client)
           (start square_app) (fst unnamed_deploy) (snd unnamed_deploy)
           eq_refl (surjective_pairing _)).
Defined.

(** It returns the identity of a new application, deployed under the
    inferred name. *)
Lemma unnamed_deploy_succeeds :
  snd unnamed_deploy = Ok (Some "ap-1") /\
  deployment (w_remote (fst unnamed_deploy)) "pytest client_test" account = Some "ap-1".
Proof. vm_compute. split; reflexivity. Qed.

(** The world in which [_run] creates the objects. *)
Definition creating_world : World State :=
  creating (started test_client (start square_app)).

Lemma create_object_identity_check_witness :
  (exists w', _create_object rehashing_env debian_slim (Some "im-1") creating_world
              = (w', Ok "im-debian_slim")) /\
  (exists w', _create_object rehashing_env debian_slim (Some "qu-1") creating_world
              = (w', Raise (Exception
                   "Tried creating an object using existing id qu-1 but it has id im-debian_slim"))).
Proof.
  destruct (create_object_identity_check rehashing_env debian_slim creating_world eq_refl)
    as (Hfatal & Htolerated & _).
  split.
  - apply (Htolerated "im-1" (w_remote creating_world) "im-debian_slim").
    + reflexivity.
    + discriminate.
    + reflexivity.
    + right. split; eexists; reflexivity.
  - apply (Hfatal "qu-1" (w_remote creating_world) (Some "im-debian_slim")).
    + reflexivity.
    + discriminate.
    + reflexivity.
    + right. eexists; reflexivity.
Defined.

Definition running_world : World State := started test_client (start square_app).

Lemma lookup_invalid_or_not_found_witness :
  (exists msg, lookup test_env nothing running_world
               = (running_world, Raise (InvalidError msg))) /\
  (exists w', lookup test_env missing running_world
              = (w', Raise (NotFoundError "Could not find object bazbazbaz" "bazbazbaz"))).
Proof.
  split.
  - apply (proj1 (lookup_invalid_or_not_found test_env nothing running_world)).
    right. eexists. repeat split.
  - destruct (proj2 (lookup_invalid_or_not_found test_env missing running_world)
                _ "bazbazbaz" test_client (w_remote running_world)
                eq_refl eq_refl eq_refl eq_refl eq_refl) as (w' & Hw & _).
    exists w'. exact Hw.
Defined.

End Scenarios.

(** * More on the capture worker *)

Module CaptureFacts.
Import OutputCapture OutputCaptureFacts.

(** The lines that the loop over the chunks hands to the callback, and the
    chunk it keeps. *)
Fixpoint pair_up (chunks : list string) : list string * string :=
  match chunks with
  | seg :: sep :: rest => let '(lines, buf) := pair_up rest in ((seg +:+ sep) :: lines, buf)
  | [seg] => ([], seg)
  | [] => ([], "")
  end.

Definition lines_of (text : string) : list string := fst (pair_up (re_split text)).
Definition rest_of (text : string) : string := snd (pair_up (re_split text)).

Lemma emit_lines_shift seg sep rest range :
  emit_lines (seg :: sep :: rest) (map S range) = emit_lines rest range.
Proof.
  induction range as [|i range IH]; [reflexivity|].
  cbn [map emit_lines]. rewrite IH. unfold index.
  replace (2 * S i) with (S (S (2 * i))) by lia.
  replace (S (S (2 * i)) + 1) with (S (S (2 * i + 1))) by lia.
  reflexivity.
Qed.

Lemma half_length {A} (x y : A) (l : list A) :
  List.length (x :: y :: l) / 2 = S (List.length l / 2).
Proof.
  cbn [List.length]. replace (S (S (List.length l))) with (1 * 2 + List.length l) by lia.
  rewrite Nat.div_add_l by lia. lia.
Qed.

Lemma emit_lines_pair_up chunks :
  alternating chunks ->
  emit_lines chunks (seq 0 (List.length chunks / 2)) = (fst (pair_up chunks), None) /\
  index_last chunks = inr (snd (pair_up chunks)).
Proof.
  induction 1 as [seg _|seg sep rest _ _ Hrest [IH1 IH2]].
  - split; reflexivity.
  - rewrite half_length. cbn [seq]. rewrite <- seq_shift.
    cbn [emit_lines]. unfold index at 1 2. cbn [lookup list_lookup Nat.mul Nat.add].
    rewrite emit_lines_shift, IH1. cbn [pair_up].
    destruct (pair_up rest) as [lines buf] eqn:Hp. split; [reflexivity|].
    unfold index_last in *. cbn [last]. destruct rest as [|r rest']; [inversion Hrest|].
    cbn [last] in IH2 |- *. exact IH2.
Qed.

Lemma pair_up_concat chunks :
  concat_str (fst (pair_up chunks)) +:+ snd (pair_up chunks) = concat_str chunks.
Proof.
  remember (List.length chunks) as n eqn:Hn. revert chunks Hn.
  induction n as [n IH] using lt_wf_ind. intros chunks ->.
  destruct chunks as [|seg [|sep rest]]; [reflexivity|cbn; now rewrite append_nil_r|].
  cbn [pair_up]. specialize (IH (List.length rest) ltac:(simpl; lia) rest eq_refl).
  destruct (pair_up rest) as [lines buf]. cbn [fst snd concat_str] in *.
  rewrite !append_assoc_str. now rewrite IH.
Qed.

(** A line with its terminator: a text segment and one separator. *)
Definition complete_line (line : string) : Prop :=
  exists seg sep, line = seg +:+ sep /\ no_terminator seg = true /\ sep ∈ separators.

Lemma pair_up_shape chunks :
  alternating chunks ->
  Forall complete_line (fst (pair_up chunks)) /\ no_terminator (snd (pair_up chunks)) = true.
Proof.
  induction 1 as [seg Hseg|seg sep rest Hseg Hsep _ [IH1 IH2]].
  - split; [constructor|exact Hseg].
  - cbn [pair_up]. destruct (pair_up rest) as [lines buf]. cbn [fst snd] in *.
    split; [|exact IH2]. constructor; [|exact IH1]. exists seg, sep. auto.
Qed.

(** The lines and the rest of a text scanned after the segment [seg]. *)
Definition scan (seg text : string) : list string * string :=
  pair_up (re_split_from seg text).

Lemma re_split_from_seg (a : string) :
  forall seg s, no_terminator a = true ->
  re_split_from seg (a +:+ s) = re_split_from (seg +:+ a) s.
Proof.
  induction a as [|c a IH]; intros seg s Ha.
  - now rewrite append_nil_r.
  - cbn [no_terminator] in Ha. apply andb_prop in Ha as [Hc Ha].
    apply andb_prop in Hc as [Hcr Hlf]. apply negb_true_iff in Hcr, Hlf.
    rewrite append_cons. cbn [re_split_from]. rewrite Hcr, Hlf.
    rewrite IH by exact Ha. f_equal. now rewrite append_assoc_str.
Qed.

Lemma no_terminator_app (a b : string) :
  no_terminator a = true -> no_terminator b = true -> no_terminator (a +:+ b) = true.
Proof.
  intros Ha Hb. induction a as [|c a IH]; [exact Hb|].
  rewrite append_cons. cbn [no_terminator] in Ha |- *.
  apply andb_prop in Ha as [Hc Ha]. apply andb_true_intro. split; [exact Hc|now apply IH].
Qed.

Lemma scan_buffer (buf text : string) :
  no_terminator buf = true ->
  lines_of (buf +:+ text) = fst (scan buf text) /\ rest_of (buf +:+ text) = snd (scan buf text).
Proof.
  intros Hbuf. unfold lines_of, rest_of, scan, re_split.
  now rewrite (re_split_from_seg buf "" text Hbuf).
Qed.

Fixpoint ends_with_CR (s : string) : bool :=
  match s with
  | EmptyString => false
  | String c s' =>
      match s' with
      | EmptyString => Ascii.eqb c CR
      | String _ _ => ends_with_CR s'
      end
  end.

Definition starts_with_LF (s : string) : bool :=
  match s with
  | EmptyString => false
  | String c _ => Ascii.eqb c LF
  end.

Lemma ends_with_CR_cons c a :
  ends_with_CR (String c a) = match a with "" => Ascii.eqb c CR | _ => ends_with_CR a end.
Proof. reflexivity. Qed.

Lemma ends_with_CR_tail c a b :
  ends_with_CR (String c a) && starts_with_LF b = false ->
  ends_with_CR a && starts_with_LF b = false.
Proof. rewrite ends_with_CR_cons. destruct a; [reflexivity|auto]. Qed.

Lemma scan_nil seg : scan seg "" = ([], seg).
Proof. reflexivity. Qed.

Lemma scan_step seg sep s :
  pair_up (seg :: sep :: re_split_from "" s)
  = ((seg +:+ sep) :: fst (scan "" s), snd (scan "" s)).
Proof. unfold scan. cbn [pair_up]. now destruct (pair_up (re_split_from "" s)). Qed.

Lemma scan_CRLF seg s :
  scan seg (String CR (String LF s))
  = ((seg +:+ str_CRLF) :: fst (scan "" s), snd (scan "" s)).
Proof. unfold scan at 1. cbn [re_split_from]. cbn. apply scan_step. Qed.

Lemma scan_CR seg s :
  starts_with_LF s = false ->
  scan seg (String CR s) = ((seg +:+ str_CR) :: fst (scan "" s), snd (scan "" s)).
Proof.
  intros Hs. unfold scan at 1. cbn [re_split_from]. cbn [Ascii.eqb CR Bool.eqb].
  destruct s as [|d s]; [apply scan_step|]. cbn in Hs. rewrite Hs. apply scan_step.
Qed.

Lemma scan_LF seg s :
  scan seg (String LF s) = ((seg +:+ str_LF) :: fst (scan "" s), snd (scan "" s)).
Proof. unfold scan at 1. cbn [re_split_from]. cbn. apply scan_step. Qed.

Lemma scan_other seg c s :
  Ascii.eqb c CR = false -> Ascii.eqb c LF = false ->
  scan seg (String c s) = scan (seg +:+ String c "") s.
Proof. intros Hcr Hlf. unfold scan. cbn [re_split_from]. now rewrite Hcr, Hlf. Qed.

(** Scanning a text in two parts gives the lines of the whole, unless the
    parts separate a carriage return from its line feed. *)
Lemma scan_app_bounded (n : nat) :
  forall a seg b, String.length a <= n ->
  ends_with_CR a && starts_with_LF b = false ->
  scan seg (a +:+ b)
  = (fst (scan seg a) ++ fst (scan (snd (scan seg a)) b), snd (scan (snd (scan seg a)) b)).
Proof.
  induction n as [|n IH]; intros a seg b Hlen Hsplit.
  - destruct a; [|simpl in Hlen; lia]. change ("" +:+ b) with b.
    rewrite scan_nil. cbn [fst snd app]. now destruct (scan seg b).
  - destruct a as [|c a].
    { change ("" +:+ b) with b. rewrite scan_nil. cbn [fst snd app].
      now destruct (scan seg b). }
    simpl in Hlen. pose proof (ends_with_CR_tail _ _ _ Hsplit) as Htail.
    rewrite append_cons.
    destruct (Ascii.eqb c CR) eqn:Hcr.
    + apply Ascii.eqb_eq in Hcr as ->. destruct a as [|d a].
      * change ("" +:+ b) with b.
        assert (starts_with_LF b = false) as Hb by exact Hsplit.
        rewrite (scan_CR seg b Hb), (scan_CR seg "" eq_refl), scan_nil.
        cbn [fst snd app]. reflexivity.
      * rewrite append_cons. simpl in Hlen. destruct (Ascii.eqb d LF) eqn:Hlf.
        -- apply Ascii.eqb_eq in Hlf as ->. rewrite !scan_CRLF.
           rewrite (IH a "" b) by (try lia; exact (ends_with_CR_tail _ _ _ Htail)).
           cbn [fst snd app]. reflexivity.
        -- rewrite <- append_cons.
           rewrite (scan_CR seg (String d a +:+ b)) by (rewrite append_cons; exact Hlf).
           rewrite (scan_CR seg (String d a)) by exact Hlf.
           rewrite (IH (String d a) "" b) by (simpl; try lia; exact Htail).
           cbn [fst snd app]. reflexivity.
    + destruct (Ascii.eqb c LF) eqn:Hlf.
      * apply Ascii.eqb_eq in Hlf as ->. rewrite !scan_LF.
        rewrite (IH a "" b) by (try lia; exact Htail).
        cbn [fst snd app]. reflexivity.
      * rewrite !(scan_other _ _ _ Hcr Hlf). apply IH; [lia|exact Htail].
Qed.

Lemma scan_app (a seg b : string) :
  ends_with_CR a && starts_with_LF b = false ->
  scan seg (a +:+ b)
  = (fst (scan seg a) ++ fst (scan (snd (scan seg a)) b), snd (scan (snd (scan seg a)) b)).
Proof. now apply (scan_app_bounded (String.length a)). Qed.

Lemma scan_shape seg text :
  no_terminator seg = true ->
  Forall complete_line (fst (scan seg text)) /\ no_terminator (snd (scan seg text)) = true.
Proof.
  intros Hseg. apply pair_up_shape.
  now apply (re_split_from_alternating_bounded (String.length text)).
Qed.

Lemma lines_of_scan text : lines_of text = fst (scan "" text) /\ rest_of text = snd (scan "" text).
Proof. split; reflexivity. Qed.

Lemma lines_rest_CR buf :
  no_terminator buf = true ->
  lines_of (buf +:+ str_CR) = [buf +:+ str_CR] /\ rest_of (buf +:+ str_CR) = "".
Proof.
  intros Hbuf. destruct (scan_buffer buf str_CR Hbuf) as [-> ->].
  change str_CR with (String CR "") at 1 3. now rewrite (scan_CR buf "" eq_refl), scan_nil.
Qed.

Lemma lines_rest_CRLF buf rest :
  no_terminator buf = true ->
  lines_of (buf +:+ str_CRLF +:+ rest) = (buf +:+ str_CRLF) :: lines_of rest /\
  rest_of (buf +:+ str_CRLF +:+ rest) = rest_of rest.
Proof.
  intros Hbuf. destruct (scan_buffer buf (str_CRLF +:+ rest) Hbuf) as [-> ->].
  change (str_CRLF +:+ rest) with (String CR (String LF rest)).
  rewrite scan_CRLF. split; reflexivity.
Qed.

Lemma lines_rest_LF rest :
  lines_of (str_LF +:+ rest) = str_LF :: lines_of rest /\
  rest_of (str_LF +:+ rest) = rest_of rest.
Proof.
  destruct (lines_of_scan (str_LF +:+ rest)) as [-> ->].
  change (str_LF +:+ rest) with (String LF rest). rewrite scan_LF. split; reflexivity.
Qed.

Section Loop.
Variable decoder : IncrementalDecoder.

(** The text that the decoder gives for the reads, up to the end of the
    stream or the first error. *)
Fixpoint decoded_text (reads : list ReadResult) (st : dec_state decoder) : string :=
  match reads with
  | ReadBytes raw :: reads' =>
      if str_truthy raw then
        match dec_decode decoder st raw with
        | inr (st', data) => data +:+ decoded_text reads' st'
        | inl _ => ""
        end
      else ""
  | _ => ""
  end.

(** One turn of the loop on a read that gives bytes which decode. *)
Lemma capture_loop_data raw reads st st' data buf :
  str_truthy raw = true ->
  dec_decode decoder st raw = inr (st', data) ->
  capture_loop decoder (ReadBytes raw :: reads) st buf
  = (lines_of (buf +:+ data) ++ fst (capture_loop decoder reads st' (rest_of (buf +:+ data))),
     snd (capture_loop decoder reads st' (rest_of (buf +:+ data)))).
Proof.
  intros Hraw Hdec. cbn [capture_loop]. rewrite Hraw. cbn [negb]. rewrite Hdec.
  destruct (emit_lines_pair_up _ (re_split_alternating (buf +:+ data))) as [-> ->].
  fold (lines_of (buf +:+ data)). fold (rest_of (buf +:+ data)).
  destruct (capture_loop decoder reads st' (rest_of (buf +:+ data))). reflexivity.
Qed.

Lemma capture_loop_end r reads st buf :
  r = ReadBytes "" \/ r = ReadRaises EIO ->
  capture_loop decoder (r :: reads) st buf
  = (if str_truthy buf then [buf] else [], Returned).
Proof. intros [-> | ->]; reflexivity. Qed.

(** X1: the worker delivers the written text, and nothing else: the lines
    given to the callback, put end to end, are the start of the text (the
    buffer it began with, then what the decoder made of the reads), in
    order; what is left is the buffer of a worker that is still reading,
    and nothing when the worker has returned. *)
Theorem capture_conserves_text (reads : list ReadResult) :
  forall (st : dec_state decoder) (buf : string),
  exists rest,
    concat_str (fst (capture_loop decoder reads st buf)) +:+ rest
    = buf +:+ decoded_text reads st /\
    match snd (capture_loop decoder reads st buf) with
    | Returned => rest = ""
    | Reading b => rest = b
    | Raised _ => True
    end.
Proof.
  induction reads as [|r reads IH]; intros st buf.
  - exists buf. cbn. now rewrite append_nil_r.
  - destruct r as [raw|err].
    + destruct (str_truthy raw) eqn:Hraw.
      * destruct (dec_decode decoder st raw) as [e|[st' data]] eqn:Hdec.
        -- exists buf. cbn. rewrite Hraw, Hdec. cbn. now rewrite append_nil_r.
        -- rewrite (capture_loop_data _ _ _ _ _ _ Hraw Hdec). cbn [fst snd decoded_text].
           rewrite Hraw, Hdec.
           destruct (IH st' (rest_of (buf +:+ data))) as (rest & Hrest & Hfin).
           exists rest. split; [|exact Hfin].
           assert (forall l1 l2, concat_str (l1 ++ l2) = concat_str l1 +:+ concat_str l2)
             as Happ.
           { induction l1 as [|x l1 IHl]; intros l2; [reflexivity|].
             cbn. now rewrite IHl, append_assoc_str. }
           rewrite Happ, append_assoc_str, Hrest, <- append_assoc_str.
           unfold lines_of, rest_of. rewrite pair_up_concat, re_split_concat.
           now rewrite append_assoc_str.
      * destruct raw; [|discriminate]. exists "". cbn.
        destruct buf; cbn; now rewrite ?append_nil_r.
    + destruct err as [|n].
      * exists "". cbn. destruct buf; cbn; now rewrite ?append_nil_r.
      * exists buf. cbn. now rewrite append_nil_r.
Qed.

(** X2: every line given to the callback is a text segment without line
    terminators followed by one terminator, except the last line of a
    worker that returns, which is the rest of the text, not empty and
    without a terminator; and the buffer never holds a terminator. *)
Theorem capture_lines_shape (reads : list ReadResult) :
  forall (st : dec_state decoder) (buf : string),
  no_terminator buf = true ->
  exists complete flush,
    fst (capture_loop decoder reads st buf) = complete ++ flush /\
    Forall complete_line complete /\
    match snd (capture_loop decoder reads st buf) with
    | Returned =>
        flush = [] \/ exists b, flush = [b] /\ b <> "" /\ no_terminator b = true
    | Reading b => flush = [] /\ no_terminator b = true
    | Raised _ => flush = []
    end.
Proof.
  induction reads as [|r reads IH]; intros st buf Hbuf.
  - exists [], []. cbn. auto.
  - assert (exists complete flush,
              (if str_truthy buf then [buf] else []) = complete ++ flush /\
              Forall complete_line complete /\
              (flush = [] \/ exists b, flush = [b] /\ b <> "" /\ no_terminator b = true))
      as Hend.
    { exists []. destruct buf as [|c buf'] eqn:Hb.
      - exists []. cbn. auto.
      - exists [String c buf']. cbn. split; [reflexivity|]. split; [constructor|].
        right. eexists. split; [reflexivity|]. split; [discriminate|exact Hbuf]. }
    destruct r as [raw|err].
    + destruct (str_truthy raw) eqn:Hraw.
      * destruct (dec_decode decoder st raw) as [e|[st' data]] eqn:Hdec.
        -- exists [], []. cbn. rewrite Hraw, Hdec. cbn. auto.
        -- rewrite (capture_loop_data _ _ _ _ _ _ Hraw Hdec). cbn [fst snd].
           destruct (pair_up_shape _ (re_split_alternating (buf +:+ data))) as [Hl Hr].
           destruct (IH st' (rest_of (buf +:+ data)) Hr) as (complete & flush & Heq & Hc & Hf).
           exists (lines_of (buf +:+ data) ++ complete), flush.
           rewrite Heq, app_assoc. split; [reflexivity|].
           split; [apply Forall_app; split; [exact Hl|exact Hc]|exact Hf].
      * destruct raw; [|discriminate]. rewrite (capture_loop_end _ _ _ _ (or_introl eq_refl)).
        exact Hend.
    + destruct err as [|n].
      * rewrite (capture_loop_end _ _ _ _ (or_intror eq_refl)). exact Hend.
      * exists [], []. cbn. auto.
Qed.

(** The worker that is still reading goes on with the reads that follow. *)
Lemma capture_loop_app (reads : list ReadResult) :
  forall st buf lines b,
  capture_loop decoder reads st buf = (lines, Reading b) ->
  exists st', forall more,
    capture_loop decoder (reads ++ more) st buf
    = (lines ++ fst (capture_loop decoder more st' b),
       snd (capture_loop decoder more st' b)).
Proof.
  induction reads as [|r reads IH]; intros st buf lines b H.
  - injection H as <- <-. exists st. intros more. cbn [app].
    now destruct (capture_loop decoder more st buf).
  - destruct r as [raw|err].
    + destruct (str_truthy raw) eqn:Hraw.
      * destruct (dec_decode decoder st raw) as [e|[st' data]] eqn:Hdec.
        -- cbn in H. rewrite Hraw, Hdec in H. discriminate.
        -- rewrite (capture_loop_data _ _ _ _ _ _ Hraw Hdec) in H.
           destruct (capture_loop decoder reads st' (rest_of (buf +:+ data)))
             as [later fin] eqn:Hlater.
           cbn [fst snd] in H. injection H as <- ->.
           destruct (IH _ _ _ _ Hlater) as [st'' Hmore]. exists st''. intros more.
           rewrite <- app_comm_cons, (capture_loop_data _ _ _ _ _ _ Hraw Hdec), Hmore.
           cbn [fst snd]. now rewrite app_assoc.
      * destruct raw; [|discriminate]. cbn in H. destruct (str_truthy buf); discriminate.
    + destruct err; cbn in H; [destruct (str_truthy buf)|]; discriminate.
Qed.

(** X3: the error [EIO] of a read is the end of the stream: the worker that
    was reading gives the callback what is left in its buffer, if anything,
    and returns, as after an empty read.  Any other error of a read is
    raised, and what is left in the buffer is not given to the callback. *)
Theorem read_error_ends_or_raises (reads more : list ReadResult)
    (st : dec_state decoder) (buf : string) (lines : list string) (b : string) (n : nat) :
  capture_loop decoder reads st buf = (lines, Reading b) ->
  capture_loop decoder (reads ++ ReadRaises EIO :: more) st buf
  = (lines ++ (if str_truthy b then [b] else []), Returned) /\
  capture_loop decoder (reads ++ ReadBytes "" :: more) st buf
  = (lines ++ (if str_truthy b then [b] else []), Returned) /\
  capture_loop decoder (reads ++ ReadRaises (EOTHER n) :: more) st buf
  = (lines, Raised (OSError (EOTHER n))).
Proof.
  intros H. destruct (capture_loop_app _ _ _ _ _ H) as [st' Hmore].
  rewrite !Hmore. cbn. now rewrite app_nil_r.
Qed.

Lemma truthy_app (a b : string) : str_truthy a = true -> str_truthy (a +:+ b) = true.
Proof. destruct a; [discriminate|reflexivity]. Qed.

(** X5: how the written bytes are divided between the reads does not
    change what the callback gets, as long as no read ends with a carriage
    return whose line feed opens the next read: two reads in a row give the
    same calls, the same buffer and the same end as one read of their bytes
    (for a decoder that decodes the bytes of two reads in a row as it
    decodes them at once). *)
Theorem reads_can_be_joined (raw1 raw2 : string) (reads : list ReadResult)
    (st st1 st2 : dec_state decoder) (d1 d2 buf : string) :
  str_truthy raw1 = true -> str_truthy raw2 = true ->
  dec_decode decoder st raw1 = inr (st1, d1) ->
  dec_decode decoder st1 raw2 = inr (st2, d2) ->
  dec_decode decoder st (raw1 +:+ raw2) = inr (st2, d1 +:+ d2) ->
  no_terminator buf = true ->
  ends_with_CR d1 && starts_with_LF d2 = false ->
  capture_loop decoder (ReadBytes raw1 :: ReadBytes raw2 :: reads) st buf
  = capture_loop decoder (ReadBytes (raw1 +:+ raw2) :: reads) st buf.
Proof.
  intros Hraw1 Hraw2 Hdec1 Hdec2 Hdec Hbuf Hsplit.
  rewrite (capture_loop_data _ _ _ _ _ _ Hraw1 Hdec1).
  rewrite (capture_loop_data _ _ _ _ _ _ Hraw2 Hdec2).
  rewrite (capture_loop_data _ _ _ _ _ _ (truthy_app _ raw2 Hraw1) Hdec).
  destruct (scan_buffer buf d1 Hbuf) as [Hl1 Hr1].
  destruct (scan_shape buf d1 Hbuf) as [_ Hrest].
  destruct (scan_buffer (snd (scan buf d1)) d2 Hrest) as [Hl2 Hr2].
  destruct (scan_buffer buf (d1 +:+ d2) Hbuf) as [Hl Hr].
  rewrite Hl, Hr, Hl1, Hr1, Hl2, Hr2, (scan_app d1 buf d2 Hsplit).
  cbn [fst snd]. now rewrite app_assoc.
Qed.

(** X4: when a read ends with a carriage return and the next one starts
    with its line feed, the callback gets the line with the carriage return
    and then a line that is the line feed alone, where one read of the same
    bytes gives one line ending with both. *)
Theorem crlf_across_reads (raw1 raw2 : string) (reads : list ReadResult)
    (st st1 st2 : dec_state decoder) (seg rest buf : string) :
  str_truthy raw1 = true -> str_truthy raw2 = true ->
  dec_decode decoder st raw1 = inr (st1, seg +:+ str_CR) ->
  dec_decode decoder st1 raw2 = inr (st2, str_LF +:+ rest) ->
  dec_decode decoder st (raw1 +:+ raw2) = inr (st2, seg +:+ str_CRLF +:+ rest) ->
  no_terminator buf = true -> no_terminator seg = true ->
  capture_loop decoder (ReadBytes raw1 :: ReadBytes raw2 :: reads) st buf
  = ((buf +:+ seg +:+ str_CR) :: str_LF
       :: lines_of rest ++ fst (capture_loop decoder reads st2 (rest_of rest)),
     snd (capture_loop decoder reads st2 (rest_of rest))) /\
  capture_loop decoder (ReadBytes (raw1 +:+ raw2) :: reads) st buf
  = ((buf +:+ seg +:+ str_CRLF)
       :: lines_of rest ++ fst (capture_loop decoder reads st2 (rest_of rest)),
     snd (capture_loop decoder reads st2 (rest_of rest))).
Proof.
  intros Hraw1 Hraw2 Hdec1 Hdec2 Hdec Hbuf Hseg.
  rewrite (capture_loop_data _ _ _ _ _ _ Hraw1 Hdec1).
  rewrite (capture_loop_data _ _ _ _ _ _ Hraw2 Hdec2).
  rewrite (capture_loop_data _ _ _ _ _ _ (truthy_app _ raw2 Hraw1) Hdec).
  assert (no_terminator (buf +:+ seg) = true) as Hbs by now apply no_terminator_app.
  rewrite <- !(append_assoc_str buf seg).
  destruct (lines_rest_CR _ Hbs) as [-> ->].
  destruct (lines_rest_CRLF _ rest Hbs) as [-> ->].
  destruct (lines_rest_LF rest) as [Hl2 Hr2]. change ("" +:+ str_LF +:+ rest) with (str_LF +:+ rest).
  rewrite Hl2, Hr2. split; reflexivity.
Qed.

End Loop.

End CaptureFacts.

(** * More on the lifecycle of the app *)

Module LifecycleFacts.
Import App AppFacts.

(** X16: the sort of [_create_all_objects] loses and repeats no tag, and
    moves only the tags that start with "fu-": they come last, and the
    tags of each group keep the order of registration. *)
Theorem creation_order_stable (bp : Blueprint) :
  creation_order bp
  = List.filter (fun t => negb (String.prefix "fu-" t)) (map fst (get_objects bp))
    ++ List.filter (String.prefix "fu-") (map fst (get_objects bp)) /\
  creation_order bp ≡ₚ map fst (get_objects bp).
Proof.
  pose proof (sort_by_key_partition (String.prefix "fu-") (map fst (get_objects bp))) as H.
  split; [exact H|]. unfold creation_order. cbv zeta. rewrite H.
  generalize (map fst (get_objects bp)). intros l.
  induction l as [|t l IH]; [reflexivity|]. cbn [List.filter].
  destruct (String.prefix "fu-" t); cbn [negb].
  - rewrite <- Permutation_middle. now constructor.
  - cbn [app]. now constructor.
Qed.

(** A path with no slash. *)
Fixpoint no_slash (s : string) : bool :=
  match s with
  | EmptyString => true
  | String c s' => negb (Ascii.eqb c "/"%char) && no_slash s'
  end.

Lemma basename_from_file (file : string) :
  forall acc, no_slash file = true -> basename_from acc file = acc +:+ file.
Proof.
  induction file as [|c file IH]; intros acc Hf; [now rewrite append_nil_r|].
  cbn [no_slash] in Hf. apply andb_prop in Hf as [Hc Hf]. apply negb_true_iff in Hc.
  cbn [basename_from]. rewrite Hc, IH by exact Hf. now rewrite append_assoc_str.
Qed.

Lemma basename_from_dir (dir file : string) :
  forall acc, basename_from acc (dir +:+ String "/"%char file) = basename_from "" file.
Proof.
  induction dir as [|c dir IH]; intros acc.
  - reflexivity.
  - rewrite append_cons. cbn [basename_from]. destruct (Ascii.eqb c "/"%char); apply IH.
Qed.

Section Lifecycle.
Context {B : Type} (env : Env B).

(** X17: the name of an app is the name it was given, unless that is
    empty or missing; then it is the file name of the script, without the
    directory it was started from, followed by the arguments of the command
    line, with spaces between; and with an empty command line, taking the
    name raises [IndexError]. *)
Theorem name_of_app (w : World B) :
  (forall n, _name (w_app w) = Some n -> str_truthy n = true -> name env w = (w, Ok n)) /\
  (opt_truthy (_name (w_app w)) = false ->
   (sys_argv env = [] -> name env w = (w, Raise IndexError)) /\
   (forall dir file args,
      no_slash file = true ->
      sys_argv env = file :: args \/ sys_argv env = (dir +:+ String "/"%char file) :: args ->
      name env w = (w, Ok (String.concat " " (file :: args))))).
Proof.
  unfold name, _infer_app_name. rewrite bind_get_app. split.
  - intros n Hn Ht. rewrite Hn. cbn [opt_truthy]. rewrite Ht. reflexivity.
  - intros Hf. rewrite Hf. split.
    + intros ->. reflexivity.
    + intros dir file args Hfile [-> | ->]; unfold basename.
      * now rewrite (basename_from_file file "" Hfile).
      * now rewrite basename_from_dir, (basename_from_file file "" Hfile).
Qed.

(** X6: a run or a deployment of an app that is not in state NONE raises
    (an [Exception] naming the state, an [InvalidError]) before anything
    else: no call is made, and the app is left as it is; in particular the
    cleanup of [_run] does not reset the app that is running. *)
Theorem started_app_is_refused cl ex cur body nm ns c (w : World B) :
  state (w_app w) <> NONE ->
  _run env cl ex cur body w
  = (w, Raise (Exception ("Can't start a app that's already in state "
                            +:+ repr_AppState env (state (w_app w))))) /\
  run env c body w
  = (w, Raise (Exception ("Can't start a app that's already in state "
                            +:+ repr_AppState env (state (w_app w))))) /\
  deploy env nm ns c w
  = (w, Raise (InvalidError "Can only deploy an app that isn't running")).
Proof.
  intros Hst. unfold run, _run, deploy. rewrite !bind_get_app.
  destruct (decide (state (w_app w) <> NONE)) as [_|Hn]; [|contradiction].
  repeat split.
Qed.

(** The run, step by step. *)
Lemma run_unfold cl ex cur body (w : World B) :
  state (w_app w) = NONE ->
  _run env cl ex cur body w
  = match acquire_app env cl ex (started cl w) with
    | (w1, Raise e) => (cleaned w1, Raise e)
    | (w1, Ok _) =>
        match create_publish_yield env body (logged cur w1) with
        | (w3, r3) =>
            match disconnect env w3 with
            | (w4, r4) => (cleaned w4, match r4 with Ok _ => r3 | Raise e => Raise e end)
            end
        end
    end.
Proof.
  intros Hst. destruct (_run env cl ex cur body w) as [w' r] eqn:H.
  apply run_anatomy in H as (w1 & r1 & -> & H); [|exact Hst].
  destruct r1 as [[]|e].
  - destruct H as (w3 & r3 & w4 & r4 & -> & -> & -> & ->). reflexivity.
  - destruct H as [-> ->]. reflexivity.
Qed.

Lemma name_started cl (w : World B) r :
  name env w = (w, r) -> name env (started cl w) = (started cl w, r).
Proof.
  unfold name, _infer_app_name. rewrite !bind_get_app. cbn [started w_app set_client set_state _name].
  destruct (opt_truthy (_name (w_app w))).
  - intros H. injection H as <-. reflexivity.
  - destruct (sys_argv env); intros H; injection H as <-; reflexivity.
Qed.

(** X7: when the call that gives the app its identity fails ([AppCreate],
    or [AppGetObjects] for an existing application), the run raises its
    exception; this failed call is the only one made, so no Disconnect is
    sent; and the app is reset, with the identity it had before. *)
Theorem run_acquisition_failure cl ex cur body (w : World B) b e :
  state (w_app w) = NONE ->
  match ex with
  | Some x => AppGetObjects (backend env) x (w_remote w) = (b, Raise e)
  | None =>
      exists n, name env w = (w, Ok n) /\
        AppCreate (backend env) (client_id cl) n (w_remote w) = (b, Raise e)
  end ->
  exists ev,
    acquisition_event ev /\
    _run env cl ex cur body w
    = ({| w_app := cleanup (w_app w); w_remote := b;
          w_trace := w_trace w ++ [{| en_state := STARTING; en_event := ev; en_ok := false |}] |},
       Raise e).
Proof.
  intros Hst Hcall. rewrite (run_unfold _ _ _ _ _ Hst). unfold acquire_app.
  destruct ex as [x|].
  - exists (EvAppGetObjects x). split; [exact I|].
    rewrite (bind_self_client_stub _ _ cl) by reflexivity.
    rewrite bind_call. cbn [started w_remote]. rewrite Hcall. reflexivity.
  - destruct Hcall as (n & Hname & Hcall).
    exists (EvAppCreate (client_id cl) n). split; [exact I|].
    rewrite (bind_Ok _ _ _ _ _ (name_started cl _ _ Hname)).
    rewrite bind_call. cbn [started w_remote]. rewrite Hcall. reflexivity.
Qed.

(** The world in which the objects are created. *)
Definition creating_in (w : World B) : World B :=
  with_app (set__progress
    (Some {| tree_label := step_progress "Creating objects..."; tree_children := [] |})) w.

Lemma inner_creation_fails body (w2 wc : World B) e :
  _create_all_objects env (creating_in w2) = (wc, Raise e) ->
  create_publish_yield env body w2 = (wc, Raise e).
Proof.
  intros H. unfold create_publish_yield. rewrite bind_modify_app.
  exact (bind_Raise _ _ _ _ _ H).
Qed.

(** The world after the publish call, when it fails. *)
Definition publish_failed (wc : World B) (b : B) : World B :=
  record (EvAppSetObjects (_app_id (w_app wc)) (object_id <$> _tag_to_object (w_app wc)))
    false
    (with_app (fun a => set__progress
       (tree_set_label (step_completed "Created objects." false) <$> _progress a) a) wc)
    b.

Lemma inner_publish_fails body (w2 wc : World B) b e :
  is_Some (client (w_app w2)) ->
  _create_all_objects env (creating_in w2) = (wc, Ok tt) ->
  AppSetObjects (backend env) (_app_id (w_app wc))
    (object_id <$> _tag_to_object (w_app wc)) (w_remote wc) = (b, Raise e) ->
  create_publish_yield env body w2 = (publish_failed wc b, Raise e).
Proof.
  intros [c Hc] Hcreate Hset. unfold create_publish_yield. rewrite bind_modify_app.
  pose proof (tracks_create_all_objects env _ _ _ Hcreate) as (Hf & _).
  rewrite (bind_Ok _ _ _ _ _ Hcreate).
  rewrite bind_modify_app, bind_get_app.
  rewrite (bind_self_client_stub _ _ c) by (simpl; rewrite (fr_client _ _ Hf); exact Hc).
  rewrite bind_call.
  cbn [_tag_to_object _app_id set__progress w_app w_remote]. rewrite Hset. reflexivity.
Qed.

(** X8: the workload is entered only when every object was created and
    the objects were published.  When the creation of an object raises, or
    the publish call raises, the run goes straight to the Disconnect call,
    made in state STARTING, and raises that exception (or the one of the
    Disconnect call, if it raises too), whatever the workload is; after a
    failed creation the publish call is not made. *)
Theorem run_creation_or_publish_failure cl ex cur body (w w1 wc w4 : World B) e r4 :
  state (w_app w) = NONE ->
  acquire_app env cl ex (started cl w) = (w1, Ok tt) ->
  (_create_all_objects env (creating_in (logged cur w1)) = (wc, Raise e) ->
   disconnect env wc = (w4, r4) ->
   _run env cl ex cur body w
   = (cleaned w4, match r4 with Ok _ => Raise e | Raise e' => Raise e' end) /\
   w_trace w4
   = w_trace wc ++ [disconnect_entry STARTING (_app_id (w_app w1)) (is_Ok r4)] /\
   exists cext,
     w_trace wc = w_trace w1 ++ log_entry (_app_id (w_app w1)) cur :: cext /\
     stamped STARTING creation_event cext) /\
  (forall b,
   _create_all_objects env (creating_in (logged cur w1)) = (wc, Ok tt) ->
   AppSetObjects (backend env) (_app_id (w_app wc))
     (object_id <$> _tag_to_object (w_app wc)) (w_remote wc) = (b, Raise e) ->
   disconnect env (publish_failed wc b) = (w4, r4) ->
   _run env cl ex cur body w
   = (cleaned w4, match r4 with Ok _ => Raise e | Raise e' => Raise e' end) /\
   w_trace w4
   = w_trace wc
     ++ [publish_entry (_app_id (w_app w1)) (object_id <$> _tag_to_object (w_app wc)) false;
         disconnect_entry STARTING (_app_id (w_app w1)) (is_Ok r4)]).
Proof.
  intros Hst Hacq.
  assert (Hsome : is_Some (client (w_app (started cl w)))) by (simpl; eauto).
  pose proof (acquire_app_spec env cl ex _ _ _ Hsome Hacq)
    as (Hs1 & Hc1 & _ & _ & _ & _ & _ & _).
  simpl in Hs1, Hc1.
  split.
  - intros Hcreate Hdisc.
    pose proof (tracks_create_all_objects env _ _ _ Hcreate) as (Hf & cext & Htc & Hsc & _).
    simpl in Hf, Htc, Hsc. rewrite Hs1 in Hsc.
    rewrite (run_unfold _ _ _ _ _ Hst), Hacq, (inner_creation_fails _ _ _ _ Hcreate), Hdisc.
    split; [reflexivity|].
    apply disconnect_spec in Hdisc as [_ Ht4];
      [|rewrite (fr_client _ _ Hf); simpl; rewrite Hc1; eauto].
    rewrite (fr_state _ _ Hf), (fr_app_id _ _ Hf) in Ht4. simpl in Ht4. rewrite Hs1 in Ht4.
    split; [exact Ht4|]. exists cext. split; [|exact Hsc].
    rewrite Htc, <- app_assoc. unfold log_entry. rewrite Hs1. reflexivity.
  - intros b Hcreate Hset Hdisc.
    pose proof (tracks_create_all_objects env _ _ _ Hcreate) as (Hf & _).
    simpl in Hf.
    rewrite (run_unfold _ _ _ _ _ Hst), Hacq.
    assert (is_Some (client (w_app (logged cur w1)))) as Hcl
      by (simpl; rewrite Hc1; eauto).
    rewrite (inner_publish_fails body (logged cur w1) _ _ _ Hcl Hcreate Hset).
    rewrite Hdisc. split; [reflexivity|].
    apply disconnect_spec in Hdisc as [_ Ht4];
      [|simpl; rewrite (fr_client _ _ Hf); simpl; rewrite Hc1; eauto].
    simpl in Ht4. rewrite (fr_state _ _ Hf), (fr_app_id _ _ Hf) in Ht4. simpl in Ht4.
    rewrite Hs1 in Ht4. rewrite Ht4, <- app_assoc. reflexivity.
Qed.

(** The world in which the workload is entered. *)
Definition entered (wc : World B) (b : B) : World B :=
  record EvYield true
    {| w_app := set_state RUNNING
         (set__progress (tree_set_label (step_completed "Created objects." false)
                           <$> _progress (w_app wc)) (w_app wc));
       w_remote := b;
       w_trace := w_trace wc
                  ++ [publish_entry (_app_id (w_app wc))
                        (object_id <$> _tag_to_object (w_app wc)) true] |}
    b.

Lemma inner_publish_ok body (w2 wc : World B) b :
  is_Some (client (w_app w2)) ->
  state (w_app w2) = STARTING ->
  _create_all_objects env (creating_in w2) = (wc, Ok tt) ->
  AppSetObjects (backend env) (_app_id (w_app wc))
    (object_id <$> _tag_to_object (w_app wc)) (w_remote wc) = (b, Ok tt) ->
  create_publish_yield env body w2
  = match body (entered wc b) with
    | (wb, Ok _) => (with_app (set_state STOPPING) wb, Ok tt)
    | (wb, Raise e) => (wb, Raise e)
    end.
Proof.
  intros [c Hc] Hst Hcreate Hset. unfold create_publish_yield. rewrite bind_modify_app.
  pose proof (tracks_create_all_objects env _ _ _ Hcreate) as (Hf & _).
  rewrite (bind_Ok _ _ _ _ _ Hcreate).
  rewrite bind_modify_app, bind_get_app.
  rewrite (bind_self_client_stub _ _ c) by (simpl; rewrite (fr_client _ _ Hf); exact Hc).
  rewrite bind_call.
  cbn [_tag_to_object _app_id set__progress w_app w_remote]. rewrite Hset.
  rewrite bind_modify_app, bind_mark.
  assert (state (w_app wc) = STARTING) as Hstc by (rewrite (fr_state _ _ Hf); exact Hst).
  unfold mbind, M_bind, bind, modify_app.
  match goal with |- context [body ?x] => replace x with (entered wc b) end.
  2: { unfold entered, record, publish_entry. cbn. rewrite Hstc. reflexivity. }
  destruct (body (entered wc b)) as [wb [[]|e]]; reflexivity.
Qed.

(** X18: the workload is entered only in a running app: in state RUNNING,
    with the client and an identity, and with a live object for every tag
    of the Blueprint.  Two workloads that do the same in every such world
    make the same run. *)
Theorem workload_enters_running_app cl ex cur (body1 body2 : M B unit) (w : World B) :
  state (w_app w) = NONE ->
  (forall wy,
     state (w_app wy) = RUNNING -> client (w_app wy) = Some cl ->
     is_Some (_app_id (w_app wy)) ->
     (forall tag, tag ∈ map fst (get_objects (_blueprint (w_app w))) ->
                  is_Some (_tag_to_object (w_app wy) !! tag)) ->
     body1 wy = body2 wy) ->
  _run env cl ex cur body1 w = _run env cl ex cur body2 w.
Proof.
  intros Hst Hsame. rewrite !(run_unfold _ _ _ _ _ Hst).
  destruct (acquire_app env cl ex (started cl w)) as [w1 [[]|e]] eqn:Hacq; [|reflexivity].
  assert (Hsome : is_Some (client (w_app (started cl w)))) by (simpl; eauto).
  pose proof (acquire_app_spec env cl ex _ _ _ Hsome Hacq)
    as (Hs1 & Hc1 & _ & _ & Hb1 & _ & _ & Hid).
  simpl in Hs1, Hc1, Hb1. destruct (Hid eq_refl) as [Hid1 _].
  assert (is_Some (client (w_app (logged cur w1)))) as Hcl by (simpl; rewrite Hc1; eauto).
  destruct (_create_all_objects env (creating_in (logged cur w1))) as [wc [[]|e]] eqn:Hcreate.
  2: { now rewrite !(inner_creation_fails _ _ _ _ Hcreate). }
  destruct (AppSetObjects (backend env) (_app_id (w_app wc))
              (object_id <$> _tag_to_object (w_app wc)) (w_remote wc)) as [b [[]|e]] eqn:Hset.
  2: { now rewrite !(inner_publish_fails _ (logged cur w1) _ _ _ Hcl Hcreate Hset). }
  rewrite !(inner_publish_ok _ (logged cur w1) _ _ Hcl Hs1 Hcreate Hset).
  pose proof (tracks_create_all_objects env _ _ _ Hcreate) as (Hf & _). simpl in Hf.
  rewrite (Hsame (entered wc b)); [reflexivity|reflexivity| | |].
  - cbn. rewrite (fr_client _ _ Hf). exact Hc1.
  - cbn. rewrite (fr_app_id _ _ Hf). exact Hid1.
  - intros tag Hin. cbn. unfold _create_all_objects in Hcreate.
    rewrite bind_get_app in Hcreate.
    apply create_loop_spec in Hcreate as (ext & _ & _ & Hok).
    destruct (Hok eq_refl) as [_ Hall]. apply Hall. left.
    apply elem_of_creation_order. cbn. rewrite Hb1. exact Hin.
Qed.

(** X9: the Disconnect call decides last.  Whatever the inner block did
    (the workload returned, or a creation, the publish call or the workload
    raised), when the Disconnect call raises, the run raises its exception
    in place of the outcome of the block; when it returns, the run gives
    the outcome of the block: it returns if the workload returned, and
    raises the very exception that was raised.  Either way the app is
    reset. *)
Theorem run_outcome cl ex cur body (w w1 w3 : World B) r3 b rd :
  state (w_app w) = NONE ->
  workload body ->
  acquire_app env cl ex (started cl w) = (w1, Ok tt) ->
  create_publish_yield env body (logged cur w1) = (w3, r3) ->
  AppClientDisconnect (backend env) (_app_id (w_app w1)) (w_remote w3) = (b, rd) ->
  _run env cl ex cur body w
  = ({| w_app := cleanup (w_app w3); w_remote := b;
        w_trace := w_trace w3
                   ++ [disconnect_entry (state (w_app w3)) (_app_id (w_app w1)) (is_Ok rd)] |},
     match rd with Ok _ => r3 | Raise e' => Raise e' end).
Proof.
  intros Hst Hbody Hacq Hcpy Hdisc.
  assert (Hsome : is_Some (client (w_app (started cl w)))) by (simpl; eauto).
  pose proof (acquire_app_spec env cl ex _ _ _ Hsome Hacq)
    as (Hs1 & Hc1 & _ & _ & _ & _ & _ & _).
  simpl in Hs1, Hc1.
  assert (is_Some (client (w_app (logged cur w1)))) as Hcl
    by (simpl; rewrite Hc1; eauto).
  pose proof (create_publish_yield_spec env _ _ _ _ Hbody
                (Hs1 : state (w_app (logged cur w1)) = STARTING) Hcl Hcpy) as [Hk _].
  rewrite (run_unfold _ _ _ _ _ Hst), Hacq, Hcpy.
  unfold disconnect. rewrite bind_get_app.
  rewrite (bind_self_client_stub _ _ cl)
    by (rewrite (kept_client _ _ Hk); simpl; exact Hc1).
  unfold call. rewrite (kept_app_id _ _ Hk). simpl w_app. cbn [logged record w_app].
  rewrite Hdisc. destruct rd; reflexivity.
Qed.

(** The resolution of a reference to an object of the same app. *)
Lemma lookup_local obj l tag (w : World B) :
  label obj = Some l -> app_name l = None -> object_label l = Some tag ->
  str_truthy tag = true ->
  lookup env obj w
  = (w, match _tag_to_object (w_app w) !! tag with
        | Some o => if str_truthy (object_id o) then Ok (object_id o) else Raise AssertionError
        | None => Raise (KeyError (Some tag))
        end).
Proof.
  intros Hl Han Hol Htag. unfold lookup. rewrite Hl, Han, Hol. cbn [opt_truthy].
  rewrite Htag. cbn [negb andb].
  unfold mbind at 1, M_bind at 1, bind at 1. rewrite bind_get_app.
  cbn [mbind option_bind].
  destruct (_tag_to_object (w_app w) !! tag) as [o|]; [|reflexivity].
  cbn [ret]. now destruct (str_truthy (object_id o)).
Qed.

(** X10: [app[tag]] on an app that is not running is the reference
    [ref(None, tag)], whatever is registered, and the app is not changed.
    For an object with the label of that reference (no app name, the tag as
    object label) and a tag that is not empty: once [_create_all_objects]
    has returned, the reference to a tag of the Blueprint resolves, with no
    call, to the identity of the live object made for the tag (an empty
    identity fails the assertion); and a reference to a tag that has no
    live object raises [KeyError]. *)
Theorem item_reference_resolves tag (w0 : World B) :
  state (w_app w0) <> RUNNING ->
  AppAccess.__getitem__ tag w0 = (w0, Ok (AppAccess.ItemRef None (Some tag))) /\
  forall obj l,
    label obj = Some l -> app_name l = None -> object_label l = Some tag ->
    str_truthy tag = true ->
    (forall w wc,
       _create_all_objects env w = (wc, Ok tt) ->
       tag ∈ map fst (get_objects (_blueprint (w_app w))) ->
       exists o, _tag_to_object (w_app wc) !! tag = Some o /\
         lookup env obj wc
         = (wc, if str_truthy (object_id o) then Ok (object_id o) else Raise AssertionError)) /\
    (forall w', _tag_to_object (w_app w') !! tag = None ->
       lookup env obj w' = (w', Raise (KeyError (Some tag)))).
Proof.
  intros Hst. split.
  - unfold AppAccess.__getitem__. rewrite bind_get_app.
    destruct (decide (state (w_app w0) = RUNNING)) as [Hr|_]; [contradiction|reflexivity].
  - intros obj l Hl Han Hol Htag. split.
    + intros w wc Hcreate Hin. unfold _create_all_objects in Hcreate.
      rewrite bind_get_app in Hcreate.
      apply create_loop_spec in Hcreate as (ext & _ & _ & Hok).
      destruct (Hok eq_refl) as [_ Hsome].
      destruct (Hsome tag) as [o Ho]; [left; now apply elem_of_creation_order|].
      exists o. split; [exact Ho|].
      rewrite (lookup_local obj l tag wc Hl Han Hol Htag), Ho. reflexivity.
    + intros w' Hnone. rewrite (lookup_local obj l tag w' Hl Han Hol Htag), Hnone.
      reflexivity.
Qed.

Lemma create_object_reference_eq obj l x (w : World B) :
  label obj = Some l ->
  creating_message obj = None ->
  _create_object env obj x w
  = match app_name l with
    | Some an => _include env an (object_label l) (namespace l) w
    | None => (w, Raise AssertionError)
    end.
Proof.
  intros Hl Hcm. unfold _create_object. rewrite Hl, Hcm.
  cbv [mbind M_bind bind ret raise mret M_ret].
  destruct (app_name l) as [an|]; [|reflexivity].
  destruct (_include env an (object_label l) (namespace l) w) as [w' [id|e]]; reflexivity.
Qed.

(** X11: an object that is a reference is not loaded: [_create_object]
    resolves a reference to another app by the include request, whatever
    the existing identity, and gives what the request gives; a reference
    with no app name fails the assertion, with no call.  (For a reference
    with no creating message, as [ref] makes them.) *)
Theorem create_object_of_reference obj l x (w : World B) :
  label obj = Some l ->
  creating_message obj = None ->
  _create_object env obj x w
  = match app_name l with
    | Some an => _include env an (object_label l) (namespace l) w
    | None => (w, Raise AssertionError)
    end.
Proof. apply create_object_reference_eq. Qed.

(** X12: resuming.  When the lookup of the deployment name gives an
    application, [deploy] runs with it: the app takes its identity and the
    identities of its objects as the existing ones, and the log loop starts
    from the cursor of the lookup; [AppCreate] is not called to get the
    identity.  When the lookup gives the empty string, [deploy] creates an
    application, under the name of the app (not the deployment name), with
    no existing identities. *)
Theorem deploy_resumes_or_creates n ns c (w w' : World B) r b aid cursor :
  state (w_app w) = NONE ->
  AppGetByDeploymentName (backend env) n ns (client_id (_get_client env c)) (w_remote w)
  = (b, Ok (aid, cursor)) ->
  deploy env (Some n) ns c w = (w', r) ->
  (str_truthy aid = true ->
   forall b1 ids, AppGetObjects (backend env) aid b = (b1, Ok ids) ->
   _app_id (w_app w') = Some aid /\ _tag_to_existing_id (w_app w') = ids /\
   exists rest,
     w_trace w'
     = w_trace w
       ++ [ {| en_state := NONE; en_event := lookup_event env n ns c; en_ok := true |};
            {| en_state := STARTING; en_event := EvAppGetObjects aid; en_ok := true |};
            log_entry (Some aid) (Some cursor) ] ++ rest) /\
  (str_truthy aid = false ->
   forall nm b1 a, name env w = (w, Ok nm) ->
   AppCreate (backend env) (client_id (_get_client env c)) nm b = (b1, Ok a) ->
   _app_id (w_app w') = Some a /\ _tag_to_existing_id (w_app w') = ∅ /\
   exists rest,
     w_trace w'
     = w_trace w
       ++ [ {| en_state := NONE; en_event := lookup_event env n ns c; en_ok := true |};
            {| en_state := STARTING;
               en_event := EvAppCreate (client_id (_get_client env c)) nm; en_ok := true |};
            log_entry (Some a) (Some cursor) ] ++ rest).
Proof.
  intros Hst Hlook H.
  destruct (deploy_anatomy env _ _ _ _ _ _ Hst H) as (rn & -> & b' & rl & Hlook' & Hrl).
  rewrite Hlook in Hlook'. injection Hlook' as <- <-.
  destruct Hrl as (rr & Hrun & _).
  set (wl := record (lookup_event env n ns c) true (named n w) b) in Hrun.
  assert (state (w_app wl) = NONE) as Hstl by exact Hst.
  destruct (run_summary env _ _ _ _ _ _ _ Hstl (workload_deploy_body env n ns) Hrun)
    as (w1 & r1 & acq & Hacq & Hta & _ & (a0 & Ha0 & Hk) & _ & _ & _ & Hr).
  split.
  - intros Haid b1 ids Hget. unfold existing_of in Hacq. rewrite Haid in Hacq.
    unfold acquire_app in Hacq.
    rewrite (bind_self_client_stub _ _ (_get_client env c)) in Hacq by reflexivity.
    rewrite bind_call in Hacq. cbn [started w_remote wl record] in Hacq. rewrite Hget in Hacq.
    injection Hacq as <- <-.
    rewrite Ha0. cbn [cleanup set__tag_to_object set__progress set_state set_client
                        _app_id _tag_to_existing_id].
    rewrite (kept_app_id _ _ Hk), (kept_existing _ _ Hk).
    split; [reflexivity|]. split; [reflexivity|].
    destruct Hr as (_ & _ & cext & tail & st & ok & ret & Ht & _).
    eexists. rewrite Ht. cbn. rewrite Hst. rewrite <- !app_assoc. reflexivity.
  - intros Haid nm b1 a Hname Hcreate. unfold existing_of in Hacq. rewrite Haid in Hacq.
    unfold acquire_app in Hacq.
    assert (name env (started (_get_client env c) wl) = (started (_get_client env c) wl, Ok nm))
      as Hname'.
    { revert Hname. unfold name, _infer_app_name. rewrite !bind_get_app.
      cbn [started wl record named with_app w_app set_client set_state set_deployment_name _name].
      destruct (opt_truthy (_name (w_app w))).
      - intros Hn. injection Hn as <-. reflexivity.
      - destruct (sys_argv env); intros Hn; [discriminate|]. injection Hn as <-. reflexivity. }
    rewrite (bind_Ok _ _ _ _ _ Hname') in Hacq.
    rewrite bind_call in Hacq. cbn [started w_remote wl record] in Hacq.
    rewrite Hcreate in Hacq. injection Hacq as <- <-.
    rewrite Ha0. cbn [cleanup set__tag_to_object set__progress set_state set_client
                        _app_id _tag_to_existing_id].
    rewrite (kept_app_id _ _ Hk), (kept_existing _ _ Hk).
    split; [reflexivity|]. split; [reflexivity|].
    destruct Hr as (_ & _ & cext & tail & st & ok & ret & Ht & _).
    eexists. rewrite Ht. cbn. rewrite Hst. rewrite <- !app_assoc. reflexivity.
Qed.

(** X15: [app[tag] = obj] refuses a reference with no app name, with an
    [Exception], and registers nothing; any other object goes to
    [Blueprint.register], whose outcome is the outcome of the assignment.
    So a reference that was accepted has an app name, and its creation is
    the include request for that name, never the failed assertion. *)
Theorem setitem_refuses_local_reference
    (register : Blueprint -> string -> Object -> Result Blueprint)
    (tag : string) (obj : Object) (w : World B) :
  (AppAccess.is_local_reference obj = true ->
   AppAccess.__setitem__ register tag obj w
   = (w, Raise (Exception "Setting a reference on the blueprint"))) /\
  (AppAccess.is_local_reference obj = false ->
   AppAccess.__setitem__ register tag obj w
   = match register (_blueprint (w_app w)) tag obj with
     | Ok bp => (with_app (AppAccess.set__blueprint bp) w, Ok tt)
     | Raise e => (w, Raise e)
     end /\
   forall l, label obj = Some l ->
     exists an, app_name l = Some an /\ str_truthy an = true /\
       (creating_message obj = None ->
        forall x (w' : World B),
          _create_object env obj x w' = _include env an (object_label l) (namespace l) w')).
Proof.
  unfold AppAccess.__setitem__. split; intros Hloc; rewrite Hloc; [reflexivity|].
  split.
  - rewrite bind_get_app. now destruct (register (_blueprint (w_app w)) tag obj).
  - intros l Hl. unfold AppAccess.is_local_reference in Hloc. rewrite Hl in Hloc.
    apply negb_false_iff in Hloc. destruct (app_name l) as [an|] eqn:Han; [|discriminate].
    exists an. split; [reflexivity|]. split; [exact Hloc|].
    intros Hcm x w'. rewrite (create_object_reference_eq obj l x w' Hl Hcm), Han. reflexivity.
Qed.

(** X13: [include] asks the remote service once and gives the handle of
    the identity it answers, [NotFoundError] when the answer is empty; it
    needs the client of a run ([AttributeError] without one, before any
    call); and it registers nothing: the app, its Blueprint and its live
    objects are as before. *)
Theorem include_gives_handle n ol ns (w : World B) :
  (client (w_app w) = None ->
   AppAccess.include env n ol ns w = (w, Raise AttributeError)) /\
  (forall c b id,
     client (w_app w) = Some c ->
     AppIncludeObject (backend env) (_app_id (w_app w)) n ol ns (w_remote w) = (b, Ok id) ->
     exists r,
       AppAccess.include env n ol ns w
       = (record (EvAppIncludeObject (_app_id (w_app w)) n ol ns) true w b, r) /\
       if str_truthy id then r = Ok (from_id id)
       else exists msg repr, r = Raise (NotFoundError msg repr)).
Proof.
  split.
  - intros Hc. unfold AppAccess.include, _include, self_client_stub.
    cbv [mbind M_bind bind ret raise mret M_ret get_app]. now rewrite Hc.
  - intros c b id Hc Hresp. unfold AppAccess.include, _include.
    unfold mbind at 1, M_bind at 1, bind at 1.
    rewrite bind_get_app, (bind_self_client_stub _ _ c Hc), bind_call, Hresp.
    destruct id as [|ch id]; cbn [str_truthy negb]; eexists; split; try reflexivity.
    eauto.
Qed.

End Lifecycle.

(** ** The container *)

Section Container.
Context {B : Type} (env : Env B).
Context (get_objects_of_task : string -> string -> B -> B * Result (gmap string string)).

Definition bind_item (item : string * string) : M B unit :=
  modify_app (fun a =>
    set__tag_to_object (<[item.1 := from_id item.2]> (_tag_to_object a)) a).

Lemma bind_items (items : list (string * string)) :
  forall (w : World B),
  NoDup items.*1 ->
  exists a,
    for_each items bind_item w
    = ({| w_app := a; w_remote := w_remote w; w_trace := w_trace w |}, Ok tt) /\
    frame (w_app w) a /\
    (forall tag id, (tag, id) ∈ items -> _tag_to_object a !! tag = Some (from_id id)) /\
    (forall tag, tag ∉ items.*1 -> _tag_to_object a !! tag = _tag_to_object (w_app w) !! tag).
Proof.
  induction items as [|[t i] items IH]; intros w Hnd.
  - exists (w_app w). split; [now destruct w|]. split; [now constructor|].
    split; [|done]. intros tag id Hin. now apply elem_of_nil in Hin.
  - cbn [fmap list_fmap fst] in Hnd. apply NoDup_cons in Hnd as [Hnin Hnd].
    cbn [for_each]. unfold bind at 1, bind_item at 1, modify_app at 1.
    destruct (IH {| w_app := set__tag_to_object
                       (<[t := from_id i]> (_tag_to_object (w_app w))) (w_app w);
                    w_remote := w_remote w; w_trace := w_trace w |} Hnd)
      as (a & Heq & Hf & Hin & Hout).
    cbn [w_app w_remote w_trace] in *.
    exists a. split; [exact Heq|]. split.
    { destruct Hf. constructor; assumption. }
    split.
    + intros tag id Htag. apply elem_of_cons in Htag as [Htag|Htag].
      * injection Htag as -> ->. rewrite (Hout t Hnin). cbn. now rewrite lookup_insert_eq.
      * now apply Hin.
    + intros tag Htag. cbn [fmap list_fmap fst] in Htag.
      apply not_elem_of_cons in Htag as [Hne Htag].
      rewrite (Hout tag Htag). cbn. now rewrite lookup_insert_ne.
Qed.

(** X14: [_initialize_container] takes the identity and the client it is
    given and asks for the objects of the application.  When the answer
    comes, the app is RUNNING and has a live object for every tag of the
    answer, with the identity of the answer, on top of the live objects it
    had; so [app[tag]] is then the live object of the answer, and [None],
    not an error, for a tag without one.  When the request fails, the
    state is not changed, but the identity and the client are already the
    new ones. *)
Theorem initialize_container_binds app_id cl task_id (w : World B) b :
  (forall ids,
     get_objects_of_task app_id task_id (w_remote w) = (b, Ok ids) ->
     exists w',
       AppAccess._initialize_container get_objects_of_task app_id cl task_id w = (w', Ok tt) /\
       state (w_app w') = RUNNING /\ _app_id (w_app w') = Some app_id /\
       client (w_app w') = Some cl /\ w_remote w' = b /\
       (forall tag,
          _tag_to_object (w_app w') !! tag
          = match ids !! tag with
            | Some id => Some (from_id id)
            | None => _tag_to_object (w_app w) !! tag
            end) /\
       (forall tag,
          AppAccess.__getitem__ tag w'
          = (w', Ok (AppAccess.ItemLive
                       (match ids !! tag with
                        | Some id => Some (from_id id)
                        | None => _tag_to_object (w_app w) !! tag
                        end))))) /\
  (forall e,
     get_objects_of_task app_id task_id (w_remote w) = (b, Raise e) ->
     exists w',
       AppAccess._initialize_container get_objects_of_task app_id cl task_id w
       = (w', Raise e) /\
       state (w_app w') = state (w_app w) /\ _app_id (w_app w') = Some app_id /\
       client (w_app w') = Some cl /\
       _tag_to_object (w_app w') = _tag_to_object (w_app w)).
Proof.
  split.
  - intros ids Hget. unfold AppAccess._initialize_container.
    rewrite !bind_modify_app, (bind_self_client_stub _ _ cl) by reflexivity.
    rewrite bind_call. cbn [w_remote]. rewrite Hget.
    set (w0 := record _ true _ b).
    destruct (bind_items (map_to_list ids) w0 (NoDup_fst_map_to_list ids))
      as (a & Heq & Hf & Hin & Hout).
    fold bind_item. rewrite (bind_Ok _ _ _ _ _ Heq). unfold modify_app.
    eexists. split; [reflexivity|]. cbn [w_app w_remote set_state state _app_id client
                                         _tag_to_object].
    assert (forall tag,
              _tag_to_object a !! tag
              = match ids !! tag with
                | Some id => Some (from_id id)
                | None => _tag_to_object (w_app w) !! tag
                end) as Hobj.
    { intros tag. destruct (ids !! tag) as [id|] eqn:Hid.
      - apply Hin. now apply elem_of_map_to_list.
      - rewrite Hout; [reflexivity|].
        intros Htag. apply list_elem_of_fmap in Htag as ([t i] & -> & Hti).
        apply elem_of_map_to_list in Hti. cbn in Hid. congruence. }
    split; [reflexivity|]. rewrite (fr_app_id _ _ Hf), (fr_client _ _ Hf).
    split; [reflexivity|]. split; [reflexivity|]. split; [reflexivity|].
    split; [exact Hobj|].
    intros tag. unfold AppAccess.__getitem__. rewrite bind_get_app.
    cbn [w_app set_state state _tag_to_object].
    destruct (decide (RUNNING = RUNNING)) as [_|Hn]; [|contradiction].
    now rewrite Hobj.
  - intros e Hget. unfold AppAccess._initialize_container.
    rewrite !bind_modify_app, (bind_self_client_stub _ _ cl) by reflexivity.
    rewrite bind_call. cbn [w_remote]. rewrite Hget.
    eexists. split; [reflexivity|]. repeat split.
Qed.

End Container.

End LifecycleFacts.

(** * More scenarios *)

Module MoreScenarios.
Import OutputCapture OutputCaptureFacts CaptureFacts.
Import App AppFacts Servicer ServicerFacts Tests MoreTests LifecycleFacts.

(** ** The capture worker *)

Lemma capture_lines_shape_witness :
  exists complete flush,
    fst (capture_loop utf8_decoder [ReadBytes roundtrip_bytes; ReadBytes ""] utf8_idle "")
    = complete ++ flush /\
    Forall complete_line complete /\
    match snd (capture_loop utf8_decoder [ReadBytes roundtrip_bytes; ReadBytes ""]
                 utf8_idle "") with
    | Returned =>
        flush = [] \/ exists b, flush = [b] /\ b <> "" /\ no_terminator b = true
    | Reading b => flush = [] /\ no_terminator b = true
    | Raised _ => flush = []
    end.
Proof.
  exact (capture_lines_shape utf8_decoder [ReadBytes roundtrip_bytes; ReadBytes ""]
           utf8_idle "" eq_refl).
Defined.

Lemma read_error_ends_or_raises_witness :
  capture_loop utf8_decoder ([ReadBytes roundtrip_bytes] ++ [ReadRaises EIO]) utf8_idle ""
  = (["abc" +:+ str_LF; "def" +:+ str_CRLF] ++ (if str_truthy "ghi" then ["ghi"] else []),
     Returned) /\
  capture_loop utf8_decoder ([ReadBytes roundtrip_bytes] ++ [ReadBytes ""]) utf8_idle ""
  = (["abc" +:+ str_LF; "def" +:+ str_CRLF] ++ (if str_truthy "ghi" then ["ghi"] else []),
     Returned) /\
  capture_loop utf8_decoder ([ReadBytes roundtrip_bytes] ++ [ReadRaises (EOTHER 5)])
    utf8_idle ""
  = (["abc" +:+ str_LF; "def" +:+ str_CRLF], Raised (OSError (EOTHER 5))).
Proof.
  apply (read_error_ends_or_raises utf8_decoder [ReadBytes roundtrip_bytes] []
           utf8_idle "" ["abc" +:+ str_LF; "def" +:+ str_CRLF] "ghi" 5).
  vm_compute. reflexivity.
Defined.

Lemma crlf_across_reads_witness :
  capture_loop utf8_decoder
    [ReadBytes ("def" +:+ str_CR); ReadBytes (str_LF +:+ "ghi"); ReadBytes ""] utf8_idle ""
  = (("" +:+ "def" +:+ str_CR) :: str_LF
       :: lines_of "ghi" ++ fst (capture_loop utf8_decoder [ReadBytes ""] utf8_idle
                                   (rest_of "ghi")),
     snd (capture_loop utf8_decoder [ReadBytes ""] utf8_idle (rest_of "ghi"))) /\
  capture_loop utf8_decoder
    [ReadBytes (("def" +:+ str_CR) +:+ (str_LF +:+ "ghi")); ReadBytes ""] utf8_idle ""
  = (("" +:+ "def" +:+ str_CRLF)
       :: lines_of "ghi" ++ fst (capture_loop utf8_decoder [ReadBytes ""] utf8_idle
                                   (rest_of "ghi")),
     snd (capture_loop utf8_decoder [ReadBytes ""] utf8_idle (rest_of "ghi"))).
Proof.
  apply (crlf_across_reads utf8_decoder ("def" +:+ str_CR) (str_LF +:+ "ghi")
           [ReadBytes ""] utf8_idle utf8_idle utf8_idle "def" "ghi" "");
    vm_compute; reflexivity.
Defined.

(** The two lines of the divided line end, and the one line of the whole. *)
Lemma crlf_across_reads_lines :
  fst (capture_thread utf8_decoder
         [ReadBytes ("def" +:+ str_CR); ReadBytes (str_LF +:+ "ghi"); ReadBytes ""])
  = ["def" +:+ str_CR; str_LF; "ghi"] /\
  fst (capture_thread utf8_decoder
         [ReadBytes ("def" +:+ str_CRLF +:+ "ghi"); ReadBytes ""])
  = ["def" +:+ str_CRLF; "ghi"].
Proof. split; vm_compute; reflexivity. Qed.

Lemma reads_can_be_joined_witness :
  capture_loop utf8_decoder [ReadBytes cafe_head; ReadBytes cafe_tail; ReadBytes ""]
    utf8_idle ""
  = capture_loop utf8_decoder [ReadBytes (cafe_head +:+ cafe_tail); ReadBytes ""]
      utf8_idle "".
Proof.
  eapply (reads_can_be_joined utf8_decoder cafe_head cafe_tail [ReadBytes ""]
            utf8_idle _ _ _ _ "").
  - reflexivity.
  - reflexivity.
  - vm_compute. reflexivity.
  - vm_compute. reflexivity.
  - vm_compute. reflexivity.
  - reflexivity.
  - reflexivity.
Defined.

(** ** The lifecycle *)

(** The app in the middle of a run. *)
Definition midrun : World State := started test_client (start mixed_app).

Lemma started_app_is_refused_witness :
  _run test_env test_client None None passing_body midrun
  = (midrun, Raise (Exception ("Can't start a app that's already in state "
                                 +:+ repr_AppState test_env (state (w_app midrun))))) /\
  run test_env None passing_body midrun
  = (midrun, Raise (Exception ("Can't start a app that's already in state "
                                 +:+ repr_AppState test_env (state (w_app midrun))))) /\
  deploy test_env None account None midrun
  = (midrun, Raise (InvalidError "Can only deploy an app that isn't running")).
Proof.
  apply (started_app_is_refused test_env test_client None None passing_body None account
           None midrun).
  discriminate.
Defined.

Lemma run_acquisition_failure_witness :
  exists ev,
    acquisition_event ev /\
    _run (faulty_env FaultCreate) test_client None None passing_body (start mixed_app)
    = ({| w_app := cleanup (w_app (start mixed_app)); w_remote := initial;
          w_trace := w_trace (start mixed_app)
                     ++ [{| en_state := STARTING; en_event := ev; en_ok := false |}] |},
       Raise (RpcError "AppCreate")).
Proof.
  apply (run_acquisition_failure (faulty_env FaultCreate) test_client None None
           passing_body (start mixed_app) initial (RpcError "AppCreate")).
  - reflexivity.
  - exists "pytest client_test". split; reflexivity.
Defined.

(** The run of [test_create_object_exception], step by step. *)
Definition failing_acquired : World State :=
  fst (acquire_app test_env test_client None (started test_client (start_failing square_app))).

Definition failing_created : World State :=
  fst (_create_all_objects test_env (creating_in (logged None failing_acquired))).

Definition failing_disconnected : World State :=
  fst (disconnect test_env failing_created).

Lemma run_creation_or_publish_failure_witness :
  _run test_env test_client None None passing_body (start_failing square_app)
  = (cleaned failing_disconnected, Raise (RpcError "FunctionCreate")) /\
  w_trace failing_disconnected
  = w_trace failing_created
    ++ [disconnect_entry STARTING (_app_id (w_app failing_acquired)) (is_Ok (Ok tt))] /\
  exists cext,
    w_trace failing_created
    = w_trace failing_acquired ++ log_entry (_app_id (w_app failing_acquired)) None :: cext /\
    stamped STARTING creation_event cext.
Proof.
  apply (proj1 (run_creation_or_publish_failure test_env test_client None None passing_body
                  (start_failing square_app) failing_acquired failing_created
                  failing_disconnected (RpcError "FunctionCreate") (Ok tt)
                  eq_refl ltac:(vm_compute; reflexivity))).
  - vm_compute. reflexivity.
  - vm_compute. reflexivity.
Defined.

(** A run whose workload returns and whose Disconnect call fails. *)
Definition unheard_acquired : World State :=
  fst (acquire_app (faulty_env FaultDisconnect) test_client None
         (started test_client (start mixed_app))).

Definition unheard_inner : World State * Result unit :=
  create_publish_yield (faulty_env FaultDisconnect) passing_body (logged None unheard_acquired).

Lemma run_outcome_witness :
  _run (faulty_env FaultDisconnect) test_client None None passing_body (start mixed_app)
  = ({| w_app := cleanup (w_app (fst unheard_inner));
        w_remote := w_remote (fst unheard_inner);
        w_trace := w_trace (fst unheard_inner)
                   ++ [disconnect_entry (state (w_app (fst unheard_inner)))
                         (_app_id (w_app unheard_acquired))
                         (is_Ok (Raise (A:=unit) (RpcError "AppClientDisconnect")))] |},
     match Raise (A:=unit) (RpcError "AppClientDisconnect") with
     | Ok _ => Ok tt
     | Raise e' => Raise e'
     end).
Proof.
  apply (run_outcome (faulty_env FaultDisconnect) test_client None None passing_body
           (start mixed_app) unheard_acquired (fst unheard_inner) (Ok tt)
           (w_remote (fst unheard_inner)) (Raise (RpcError "AppClientDisconnect"))).
  - reflexivity.
  - apply Scenarios.workload_passing_body.
  - vm_compute. reflexivity.
  - vm_compute. reflexivity.
  - vm_compute. reflexivity.
Defined.

(** The reference that [app["q_1"]] gives before the run. *)
Definition q_1_label : Label :=
  {| app_name := None; object_label := Some "q_1"; namespace := account |}.

Definition q_1_reference : Object := reference None (Some "q_1") account.

(** The world in which the run of the mixed app creates its objects, and
    the world after. *)
Definition mixed_creating : World State :=
  creating_in (logged None
    (fst (acquire_app test_env test_client None (started test_client (start mixed_app))))).

Definition mixed_created : World State := fst (_create_all_objects test_env mixed_creating).

Lemma item_reference_resolves_witness :
  AppAccess.__getitem__ "q_1" (start mixed_app)
  = (start mixed_app, Ok (AppAccess.ItemRef None (Some "q_1"))) /\
  exists o, _tag_to_object (w_app mixed_created) !! "q_1" = Some o /\
    lookup test_env q_1_reference mixed_created
    = (mixed_created,
       if str_truthy (object_id o) then Ok (object_id o) else Raise AssertionError).
Proof.
  destruct (item_reference_resolves test_env "q_1" (start mixed_app)) as [Hitem Hrefs].
  - discriminate.
  - split; [exact Hitem|].
    destruct (Hrefs q_1_reference q_1_label eq_refl eq_refl eq_refl eq_refl) as [Hlive _].
    apply (Hlive mixed_creating mixed_created).
    + vm_compute. reflexivity.
    + vm_compute. repeat constructor.
Defined.

(** The queue of the mixed app is "qu-1", and the reference resolves to it. *)
Lemma q_1_resolves :
  lookup test_env q_1_reference mixed_created = (mixed_created, Ok "qu-1").
Proof. vm_compute. reflexivity. Qed.

Lemma create_object_of_reference_witness :
  _create_object test_env missing (Some "qu-7") midrun
  = match app_name {| app_name := Some "bazbazbaz"; object_label := None;
                      namespace := account |} with
    | Some an => _include test_env an None account midrun
    | None => (midrun, Raise AssertionError)
    end.
Proof.
  exact (create_object_of_reference test_env missing
           {| app_name := Some "bazbazbaz"; object_label := None; namespace := account |}
           (Some "qu-7") midrun eq_refl eq_refl).
Defined.

(** The second deployment of [test_redeploy]. *)
Lemma deploy_resumes_or_creates_witness :
  (str_truthy "ap-1" = true ->
   forall b1 ids,
     AppGetObjects (backend test_env) "ap-1" (w_remote (fst deployed_once)) = (b1, Ok ids) ->
     _app_id (w_app (fst deployed_twice)) = Some "ap-1" /\
     _tag_to_existing_id (w_app (fst deployed_twice)) = ids /\
     exists rest,
       w_trace (fst deployed_twice)
       = w_trace (fst deployed_once)
         ++ [ {| en_state := NONE;
                 en_event := lookup_event test_env "my-app" account (Some test_client);
                 en_ok := true |};
              {| en_state := STARTING; en_event := EvAppGetObjects "ap-1"; en_ok := true |};
              log_entry (Some "ap-1") (Some "") ] ++ rest) /\
  (str_truthy "ap-1" = false ->
   forall nm b1 a,
     name test_env (fst deployed_once) = (fst deployed_once, Ok nm) ->
     AppCreate (backend test_env) (client_id (_get_client test_env (Some test_client))) nm
       (w_remote (fst deployed_once)) = (b1, Ok a) ->
     _app_id (w_app (fst deployed_twice)) = Some a /\
     _tag_to_existing_id (w_app (fst deployed_twice)) = ∅ /\
     exists rest,
       w_trace (fst deployed_twice)
       = w_trace (fst deployed_once)
         ++ [ {| en_state := NONE;
                 en_event := lookup_event test_env "my-app" account (Some test_client);
                 en_ok := true |};
              {| en_state := STARTING;
                 en_event := EvAppCreate
                               (client_id (_get_client test_env (Some test_client))) nm;
                 en_ok := true |};
              log_entry (Some a) (Some "") ] ++ rest).
Proof.
  apply (deploy_resumes_or_creates test_env "my-app" account (Some test_client)
           (fst deployed_once) (fst deployed_twice) (snd deployed_twice)
           (w_remote (fst deployed_once)) "ap-1" "").
  - vm_compute. reflexivity.
  - vm_compute. reflexivity.
  - apply surjective_pairing.
Defined.

(** [test_persistent_object]: the queue deployed as "my-queue" is included
    by another app as "qu-1"; "bazbazbaz" is not found. *)
Lemma include_gives_handle_witness :
  exists r,
    AppAccess.include test_env "my-queue" None account second_app_running
    = (record (EvAppIncludeObject (_app_id (w_app second_app_running)) "my-queue" None
                 account) true second_app_running (w_remote second_app_running), r) /\
    if str_truthy "qu-1" then r = Ok (from_id "qu-1")
    else exists msg repr, r = Raise (NotFoundError msg repr).
Proof.
  apply (proj2 (include_gives_handle test_env "my-queue" None account second_app_running)
           test_client (w_remote second_app_running) "qu-1").
  - reflexivity.
  - vm_compute. reflexivity.
Defined.

Lemma test_persistent_object :
  snd (AppAccess.include test_env "my-queue" None account second_app_running)
  = Ok (from_id "qu-1") /\
  snd (AppAccess.include test_env "my-queue" (Some "q_1") account second_app_running)
  = Ok (from_id "qu-1") /\
  snd (AppAccess.include test_env "bazbazbaz" None account second_app_running)
  = Raise (NotFoundError "Could not find object bazbazbaz" "bazbazbaz").
Proof. vm_compute. repeat split. Qed.

(** The answer to the container of the deployed queue app. *)
Definition objects_of_task (app_id task_id : string) (s : State)
  : State * Result (gmap string string) :=
  AppGetObjects servicer app_id s.

Lemma initialize_container_binds_witness :
  exists w',
    AppAccess._initialize_container objects_of_task "ap-1" test_client "ta-1"
      (fst queue_deployed) = (w', Ok tt) /\
    state (w_app w') = RUNNING /\ _app_id (w_app w') = Some "ap-1" /\
    client (w_app w') = Some test_client /\ w_remote w' = w_remote (fst queue_deployed) /\
    (forall tag,
       _tag_to_object (w_app w') !! tag
       = match objects_of (w_remote (fst queue_deployed)) "ap-1" !! tag with
         | Some id => Some (from_id id)
         | None => _tag_to_object (w_app (fst queue_deployed)) !! tag
         end) /\
    (forall tag,
       AppAccess.__getitem__ tag w'
       = (w', Ok (AppAccess.ItemLive
                    (match objects_of (w_remote (fst queue_deployed)) "ap-1" !! tag with
                     | Some id => Some (from_id id)
                     | None => _tag_to_object (w_app (fst queue_deployed)) !! tag
                     end)))).
Proof.
  apply (proj1 (initialize_container_binds objects_of_task "ap-1" test_client "ta-1"
                  (fst queue_deployed) (w_remote (fst queue_deployed)))).
  reflexivity.
Defined.

(** A Blueprint that takes every registration. *)
Definition register_last (bp : Blueprint) (tag : string) (obj : Object) : Result Blueprint :=
  Ok (bp ++ [(tag, obj)]).

Lemma setitem_refuses_local_reference_witness :
  AppAccess.__setitem__ register_last "q" q_1_reference (start square_app)
  = (start square_app, Raise (Exception "Setting a reference on the blueprint")).
Proof.
  apply (proj1 (setitem_refuses_local_reference test_env register_last "q" q_1_reference
                  (start square_app))).
  reflexivity.
Defined.

Lemma name_of_app_witness :
  name test_env (start square_app) = (start square_app, Ok "pytest client_test").
Proof.
  apply (proj2 (proj2 (name_of_app test_env (start square_app)) eq_refl)
           "/usr/bin" "pytest" ["client_test"] eq_refl).
  right. reflexivity.
Defined.

Lemma workload_enters_running_app_witness :
  _run test_env test_client None None passing_body (start mixed_app)
  = _run test_env test_client None None checking_body (start mixed_app).
Proof.
  apply (workload_enters_running_app test_env test_client None None passing_body
           checking_body (start mixed_app)).
  - reflexivity.
  - intros wy Hst _ _ _. unfold checking_body, passing_body.
    rewrite bind_get_app. rewrite Hst. reflexivity.
Defined.

(** ** The round trip and the deployments, again *)

(** The bytes of the round trip in two reads, the first ending with the
    carriage return. *)
Lemma capture_roundtrip_by_reads_witness :
  capture_thread utf8_decoder
    [ReadBytes ("abc" +:+ str_LF +:+ "def" +:+ str_CR); ReadBytes (str_LF +:+ "ghi");
     ReadBytes ""]
  = (["abc" +:+ str_LF; "def" +:+ str_CR; str_LF; "ghi"], Returned).
Proof.
  apply (capture_roundtrip_by_reads
           ["abc" +:+ str_LF +:+ "def" +:+ str_CR; str_LF +:+ "ghi"] (ReadBytes "")).
  - repeat constructor.
  - reflexivity.
  - left. reflexivity.
Defined.

(** The service with content-addressed images keeps the identity it is
    given. *)
Lemma content_addressed_keeps obj id s :
  function_create_error s = false ->
  load content_addressed obj (Some id) s = (s, Ok (Some id)).
Proof. intros H. cbn. now rewrite H. Qed.


End MoreScenarios.
